(** * wxdown-service: src/main/utils.ts

    A shallow embedding of the resource registry, the static file server,
    the credential extraction pipeline and the credential store mutator of
    [src/main/utils.ts], followed by the properties established about them.

    Conventions.
    - A JavaScript string is the list of its UTF-16 code units.
    - A call that may throw returns an [outcome].
    - Built-ins of the JavaScript runtime that the file calls are embedded
      from their specification (ECMAScript, Node's [node:path]); built-ins
      whose full behaviour is irrelevant here ([JSON.parse], the WHATWG URL
      parser, [dayjs]) are fields of the class [Runtime]. *)

From Stdlib Require Import String Ascii DecimalString.
From Stdlib Require Import List ZArith NArith Lia Bool.
From Stdlib Require Import Sorted Permutation.
Import ListNotations.

Set Implicit Arguments.

(* ===================================================================== *)
(** * Part I. The embedding                                               *)
(* ===================================================================== *)

(** ** JavaScript strings *)

Definition code_unit := N.
Definition jsstring := list code_unit.

(** [js "abc"] is the JavaScript string with the same (8-bit) characters. *)
Definition js (s : string) : jsstring :=
  map N_of_ascii (list_ascii_of_string s).

Definition jseqb (a b : jsstring) : bool :=
  if list_eq_dec N.eq_dec a b then true else false.

(** [String.prototype.startsWith]. *)
Fixpoint startsWith (s prefix : jsstring) : bool :=
  match prefix, s with
  | [], _ => true
  | p :: prefix', c :: s' => (c =? p)%N && startsWith s' prefix'
  | _ :: _, [] => false
  end.

(** The remainder of [s] after [prefix], when [s] starts with it. *)
Fixpoint strip_prefix (prefix s : jsstring) : option jsstring :=
  match prefix, s with
  | [], _ => Some s
  | p :: prefix', c :: s' => if (c =? p)%N then strip_prefix prefix' s' else None
  | _ :: _, [] => None
  end.

(** ** Calls that may throw *)

Inductive js_error :=
| SyntaxError
| TypeError
| URIError
| IOError (code : jsstring).

Inductive outcome (A : Type) :=
| Returns (a : A)
| Throws (e : js_error).
Arguments Returns {A} a.
Arguments Throws {A} e.

Definition bind {A B} (m : outcome A) (k : A -> outcome B) : outcome B :=
  match m with
  | Returns a => k a
  | Throws e => Throws e
  end.

Notation "x <- m ;; k" := (bind m (fun x => k))
  (at level 61, m at next level, right associativity).

(** ** Code that acts on its surroundings

    A computation over the state [S] of what it acts on; an exception leaves
    the state as it was when it was thrown. *)

Section IO.
Variable S : Type.

Definition io (A : Type) : Type := S -> outcome A * S.

Definition ret {A} (a : A) : io A := fun s => (Returns a, s).

Definition throw {A} (e : js_error) : io A := fun s => (Throws e, s).

Definition lift {A} (o : outcome A) : io A := fun s => (o, s).

(** [await m], then [k]. *)
Definition await {A B} (m : io A) (k : A -> io B) : io B :=
  fun s =>
    match m s with
    | (Returns a, s') => k a s'
    | (Throws e, s') => (Throws e, s')
    end.

(** [try { m } catch (e) { handler e }]. *)
Definition try_catch {A} (m : io A) (handler : js_error -> io A) : io A :=
  fun s =>
    match m s with
    | (Returns a, s') => (Returns a, s')
    | (Throws e, s') => handler e s'
    end.
End IO.

Arguments ret {S A} a.
Arguments throw {S A} e.
Arguments lift {S A} o.

Notation "x <~ m ;; k" := (await m (fun x => k))
  (at level 61, m at next level, right associativity).
Notation "m >> k" := (await m (fun _ => k))
  (at level 62, right associativity).

(** ** [node:path] (POSIX flavour)

    The separator is [/] alone, as in [path.posix].  [path.win32], where the
    backslash separates too and paths start with a drive or a share, is not
    modelled. *)

Module Path.

Definition SLASH : code_unit := 47%N.
Definition DOT : code_unit := 46%N.

(** The segments of [s] between separators. *)
Fixpoint segments (s : jsstring) : list jsstring :=
  match s with
  | [] => [[]]
  | c :: rest =>
      if (c =? SLASH)%N then [] :: segments rest
      else match segments rest with
           | seg :: segs => (c :: seg) :: segs
           | [] => [[c]]
           end
  end.

Fixpoint unsegments (segs : list jsstring) : jsstring :=
  match segs with
  | [] => []
  | [seg] => seg
  | seg :: rest => seg ++ SLASH :: unsegments rest
  end.

(** One separator-delimited segment handled by [normalizeString]; [res] is
    the result so far, last segment first. *)
Definition normalize_segment (allowAboveRoot : bool)
    (res : list jsstring) (seg : jsstring) : list jsstring :=
  if jseqb seg [] || jseqb seg [DOT] then res
  else if jseqb seg [DOT; DOT] then
    match res with
    | last :: before =>
        if jseqb last [DOT; DOT]
        then (if allowAboveRoot then seg :: res else res)
        else before
    | [] => if allowAboveRoot then [seg] else []
    end
  else seg :: res.

Definition normalizeString (path : jsstring) (allowAboveRoot : bool) : jsstring :=
  unsegments (rev (fold_left (normalize_segment allowAboveRoot) (segments path) [])).

Definition isAbsolute (path : jsstring) : bool :=
  match path with
  | c :: _ => (c =? SLASH)%N
  | [] => false
  end.

Definition trailingSeparator (path : jsstring) : bool :=
  match rev path with
  | c :: _ => (c =? SLASH)%N
  | [] => false
  end.

(** [path.normalize]. *)
Definition normalize (path : jsstring) : jsstring :=
  match path with
  | [] => [DOT]
  | _ =>
      let body := normalizeString path (negb (isAbsolute path)) in
      match body with
      | [] =>
          if isAbsolute path then [SLASH]
          else if trailingSeparator path then [DOT; SLASH] else [DOT]
      | _ =>
          let body := if trailingSeparator path then body ++ [SLASH] else body in
          if isAbsolute path then SLASH :: body else body
      end
  end.

(** [path.join] of two arguments. *)
Definition join (a b : jsstring) : jsstring :=
  match a, b with
  | [], [] => [DOT]
  | [], _ => normalize b
  | _, [] => normalize a
  | _, _ => normalize (a ++ SLASH :: b)
  end.

End Path.

(** ** [decodeURIComponent] (ECMAScript [Decode] with an empty reserved set) *)

Module URI.

Definition PERCENT : code_unit := 37%N.

Definition hex_digit (c : code_unit) : option N :=
  if ((48 <=? c) && (c <=? 57))%N then Some (c - 48)%N
  else if ((65 <=? c) && (c <=? 70))%N then Some (c - 55)%N
  else if ((97 <=? c) && (c <=? 102))%N then Some (c - 87)%N
  else None.

(** A code unit of the input, or the octet written by an escape [%XX]. *)
Inductive token :=
| Lit (c : code_unit)
| Esc (b : N).

Fixpoint tokens (s : jsstring) : option (list token) :=
  match s with
  | [] => Some []
  | c :: rest =>
      if (c =? PERCENT)%N then
        match rest with
        | h :: l :: rest' =>
            match hex_digit h, hex_digit l, tokens rest' with
            | Some x, Some y, Some ts => Some (Esc (16 * x + y)%N :: ts)
            | _, _, _ => None
            end
        | _ => None
        end
      else option_map (cons (Lit c)) (tokens rest)
  end.

Definition in_range (lo hi b : N) : bool := ((lo <=? b) && (b <=? hi))%N.
Definition cont (b : N) : bool := in_range 128 191 b.

(** UTF-16 encoding of a code point. *)
Definition utf16 (cp : N) : jsstring :=
  if (cp <? 65536)%N then [cp]
  else [(55296 + (cp - 65536) / 1024)%N; (56320 + (cp - 65536) mod 1024)%N].

(** Octet sequences are accepted exactly when they are well-formed UTF-8
    (no overlong form, no surrogate, nothing above U+10FFFF). *)
Fixpoint decode_tokens (ts : list token) : option jsstring :=
  match ts with
  | [] => Some []
  | Lit c :: rest => option_map (cons c) (decode_tokens rest)
  | Esc b :: rest =>
      if (b <? 128)%N then option_map (cons b) (decode_tokens rest)
      else if in_range 194 223 b then
        match rest with
        | Esc b1 :: rest1 =>
            if cont b1
            then option_map (app (utf16 ((b - 192) * 64 + (b1 - 128))%N))
                            (decode_tokens rest1)
            else None
        | _ => None
        end
      else if in_range 224 239 b then
        match rest with
        | Esc b1 :: Esc b2 :: rest2 =>
            let lo := if (b =? 224)%N then 160%N else 128%N in
            let hi := if (b =? 237)%N then 159%N else 191%N in
            if in_range lo hi b1 && cont b2
            then option_map
                   (app (utf16 ((b - 224) * 4096 + (b1 - 128) * 64 + (b2 - 128))%N))
                   (decode_tokens rest2)
            else None
        | _ => None
        end
      else if in_range 240 244 b then
        match rest with
        | Esc b1 :: Esc b2 :: Esc b3 :: rest3 =>
            let lo := if (b =? 240)%N then 144%N else 128%N in
            let hi := if (b =? 244)%N then 143%N else 191%N in
            if in_range lo hi b1 && cont b2 && cont b3
            then option_map
                   (app (utf16 ((b - 240) * 262144 + (b1 - 128) * 4096
                                + (b2 - 128) * 64 + (b3 - 128))%N))
                   (decode_tokens rest3)
            else None
        | _ => None
        end
      else None
  end.

(** [None] stands for the [URIError] the built-in throws. *)
Definition decodeURIComponent (s : jsstring) : option jsstring :=
  match tokens s with
  | Some ts => decode_tokens ts
  | None => None
  end.

(** [encodeURIComponent] (ECMAScript [Encode] with the unreserved set). *)

Definition unreserved (c : code_unit) : bool :=
  in_range 65 90 c || in_range 97 122 c || in_range 48 57 c
  || existsb (N.eqb c) [45; 95; 46; 33; 126; 42; 39; 40; 41]%N.

Definition hex_char (d : N) : code_unit :=
  if (d <? 10)%N then (48 + d)%N else (55 + d)%N.

Definition escape (octet : N) : jsstring :=
  [PERCENT; hex_char (octet / 16); hex_char (octet mod 16)].

Definition utf8 (cp : N) : list N :=
  if (cp <? 128)%N then [cp]
  else if (cp <? 2048)%N then [192 + cp / 64; 128 + cp mod 64]%N
  else if (cp <? 65536)%N then
    [224 + cp / 4096; 128 + (cp / 64) mod 64; 128 + cp mod 64]%N
  else
    [240 + cp / 262144; 128 + (cp / 4096) mod 64;
     128 + (cp / 64) mod 64; 128 + cp mod 64]%N.

Definition escape_code_point (cp : N) : jsstring :=
  flat_map escape (utf8 cp).

Definition high_surrogate (c : code_unit) : bool := in_range 55296 56319 c.
Definition low_surrogate (c : code_unit) : bool := in_range 56320 57343 c.

(** [None] stands for the [URIError] thrown at an unpaired surrogate. *)
Fixpoint encodeURIComponent (s : jsstring) : option jsstring :=
  match s with
  | [] => Some []
  | c :: rest =>
      if unreserved c then option_map (cons c) (encodeURIComponent rest)
      else if low_surrogate c then None
      else if high_surrogate c then
        match rest with
        | d :: rest' =>
            if low_surrogate d
            then option_map
                   (app (escape_code_point
                           ((c - 55296) * 1024 + (d - 56320) + 65536)%N))
                   (encodeURIComponent rest')
            else None
        | [] => None
        end
      else option_map (app (escape_code_point c)) (encodeURIComponent rest)
  end.

End URI.

(** ** [Map<string, V>]: entries in insertion order *)

Section JsMap.
Variable V : Type.

Definition JsMap := list (jsstring * V).

Fixpoint Map_get (m : JsMap) (k : jsstring) : option V :=
  match m with
  | [] => None
  | (k', v) :: m' => if jseqb k' k then Some v else Map_get m' k
  end.

Definition Map_has (m : JsMap) (k : jsstring) : bool :=
  match Map_get m k with
  | Some _ => true
  | None => false
  end.

(** An existing key keeps its place, a new key goes last. *)
Fixpoint Map_set (m : JsMap) (k : jsstring) (v : V) : JsMap :=
  match m with
  | [] => [(k, v)]
  | (k', v') :: m' =>
      if jseqb k' k then (k, v) :: m' else (k', v') :: Map_set m' k v
  end.

Definition Map_values (m : JsMap) : list V := map snd m.
Definition Map_keys (m : JsMap) : list jsstring := map fst m.
End JsMap.

(** ** The resource registry ([_resource], lines 16-24) *)

(** An [http.Server] object: its identity and the root directory its request
    handler closes over. *)
Record Server := { server_id : nat; server_root : jsstring }.

(** A puppeteer [Browser] object. *)
Record Browser := { browser_id : nat }.

Record Resource := {
  fileServer : JsMap Server;
  browser : option Browser
}.

Definition Server_eqb (a b : Server) : bool :=
  Nat.eqb (server_id a) (server_id b) && jseqb (server_root a) (server_root b).

(** ** The file server (lines 46-123) *)

Module FileServer.

(** What the operating system finds at a path. *)
Inductive fs_node :=
| NoEnt
| Directory
| RegularFile (content : jsstring)
| Unreadable (code : jsstring).

(** The file system, as seen through the path strings handed to [fs]. *)
Definition FileSystem := jsstring -> fs_node.

Definition existsSync (fs : FileSystem) (p : jsstring) : bool :=
  match fs p with
  | NoEnt => false
  | _ => true
  end.

Definition statSync_isDirectory (fs : FileSystem) (p : jsstring) : bool :=
  match fs p with
  | Directory => true
  | _ => false
  end.

(** [fs.readFile]: the content, or the [code] of the error. *)
Definition readFile (fs : FileSystem) (p : jsstring) : jsstring + jsstring :=
  match fs p with
  | RegularFile content => inl content
  | NoEnt => inr (js "ENOENT")
  | Directory => inr (js "EISDIR")
  | Unreadable code => inr code
  end.

Inductive fs_access :=
| ExistsSync (p : jsstring)
| StatSync (p : jsstring)
| ReadFile (p : jsstring).

Definition accessed_path (a : fs_access) : jsstring :=
  match a with
  | ExistsSync p | StatSync p | ReadFile p => p
  end.

Record response := { statusCode : N; body : jsstring }.

(** What one run of the request handler did: the file system calls it made,
    in order, and the response it wrote (or the exception it let escape). *)
Record handled := { accesses : list fs_access; reply : outcome response }.

(** The request handler of lines 53-108 for the server of [rootDirectory].
    The [Content-Type] header (lines 69-88) is a function of [filePath] alone
    and is left out of [response]. *)
Definition handler (rootDirectory : jsstring) (fs : FileSystem) (url : jsstring)
  : handled :=
  let safePath := Path.normalize (Path.join rootDirectory url) in
  if negb (startsWith safePath rootDirectory) then
    {| accesses := [];
       reply := Returns {| statusCode := 403; body := js "<h1>403 Forbidden</h1>" |} |}
  else
    match URI.decodeURIComponent safePath with
    | None => {| accesses := []; reply := Throws URIError |}
    | Some filePath =>
        let isDir := existsSync fs filePath && statSync_isDirectory fs filePath in
        let probes :=
          ExistsSync filePath
            :: (if existsSync fs filePath then [StatSync filePath] else []) in
        let filePath := if isDir then Path.join filePath (js "index.html") else filePath in
        {| accesses := probes ++ [ReadFile filePath];
           reply :=
             match readFile fs filePath with
             | inr code =>
                 if jseqb code (js "ENOENT")
                 then Returns {| statusCode := 404; body := js "<h1>404 Not Found</h1>" |}
                 else Returns {| statusCode := 500;
                                 body := js "Sorry, there was an error: " ++ code
                                         ++ js " .." ++ [10%N] |}
             | inl content => Returns {| statusCode := 200; body := content |}
             end |}
    end.

(** *** [startFileServer] and its callbacks

    The function is asynchronous: the call creates the server and returns a
    promise; the server is put into the registry by the [listen] callback,
    which the event loop runs later. *)

Record State := {
  _resource : Resource;
  next_id : nat;                    (* identity of the next object created *)
  bound : list (nat * N);           (* ports of the servers that listen *)
  pending : list Server             (* created, [listen] callback not run yet *)
}.

Definition registry (st : State) : JsMap Server := fileServer (_resource st).

Inductive promise :=
| Resolved (s : Server)             (* [Promise.resolve(...)], line 49 *)
| Awaiting (s : Server).            (* settled by the callbacks of [s] *)

Definition set_fileServer (r : Resource) (m : JsMap Server) : Resource :=
  {| fileServer := m; browser := browser r |}.

(** The synchronous part of a call (lines 47-53 and 110-122). *)
Definition startFileServer (rootDirectory : jsstring) (st : State)
  : promise * State :=
  match Map_get (fileServer (_resource st)) rootDirectory with
  | Some s => (Resolved s, st)      (* [has] holds, [get] gives [s] *)
  | None =>
      let server := {| server_id := next_id st; server_root := rootDirectory |} in
      (Awaiting server,
       {| _resource := _resource st;
          next_id := S (next_id st);
          bound := bound st;
          pending := pending st ++ [server] |})
  end.

Definition remove_pending (s : Server) (l : list Server) : list Server :=
  filter (fun p => negb (Server_eqb p s)) l.

(** The [listen] callback of [server] (lines 112-117): the operating system
    has bound [port]; the promise of [server] resolves with [server]. *)
Definition on_listening (server : Server) (port : N) (st : State) : State :=
  {| _resource := set_fileServer (_resource st)
                   (Map_set (fileServer (_resource st)) (server_root server) server);
     next_id := next_id st;
     bound := (server_id server, port) :: bound st;
     pending := remove_pending server (pending st) |}.

(** The ['error'] event of [server] (line 118): its promise is rejected. *)
Definition on_error (server : Server) (st : State) : State :=
  {| _resource := _resource st;
     next_id := next_id st;
     bound := bound st;
     pending := remove_pending server (pending st) |}.

(** [server.close()] has taken effect: the server listens no longer.  The
    registry is not touched.  [cleanup] (lines 157-162) closes every
    registered server this way, and whoever holds the server that
    [startFileServer] resolved with can close it too. *)
Definition on_closed (server : Server) (st : State) : State :=
  {| _resource := _resource st;
     next_id := next_id st;
     bound := filter (fun e => negb (Nat.eqb (fst e) (server_id server))) (bound st);
     pending := pending st |}.

Definition port_of (st : State) (s : Server) : option N :=
  match find (fun e => Nat.eqb (fst e) (server_id s)) (bound st) with
  | Some (_, p) => Some p
  | None => None
  end.

(** What the event loop may run next. *)
Inductive event :=
| Call (rootDirectory : jsstring)
| Listening (server : Server) (port : N)
| Error (server : Server)
| Closed (server : Server).

(** A callback runs only for a server whose [listen] is outstanding. *)
Definition is_pending (s : Server) (st : State) : bool :=
  existsb (Server_eqb s) (pending st).

Definition run_event (st : State) (e : event) : State :=
  match e with
  | Call rootDirectory => snd (startFileServer rootDirectory st)
  | Listening server port =>
      if is_pending server st then on_listening server port st else st
  | Error server =>
      if is_pending server st then on_error server st else st
  | Closed server => on_closed server st
  end.

Definition run (st : State) (es : list event) : State :=
  fold_left run_event es st.

Definition initial : State :=
  {| _resource := {| fileServer := []; browser := None |};
     next_id := 0;
     bound := [];
     pending := [] |}.

(** A file system for the examples; the operating system resolves [.] and
    [..] in the paths it is handed. *)
Definition example_fs : FileSystem :=
  fun p =>
    let resolved := Path.normalize p in
    if existsb (jseqb resolved)
         [js "/"; js "/etc"; js "/srv"; js "/srv/www"; js "/srv/www-private"]
    then Directory
    else if jseqb resolved (js "/etc/passwd")
    then RegularFile (js "root:x:0:0:root:/root:/bin/sh")
    else if jseqb resolved (js "/srv/www/index.html")
    then RegularFile (js "<h1>articles</h1>")
    else if jseqb resolved (js "/srv/www-private/key.pem")
    then RegularFile (js "PRIVATE KEY")
    else NoEnt.

End FileServer.

(** ** [cleanup] (lines 148-164) *)

Module Lifecycle.

(** The teardown calls [cleanup] can make. *)
Inductive teardown :=
| StopInterceptionProxy                 (* [MitmproxyManager.close()] *)
| ClearSystemProxy                      (* [osProxy.closeProxy()] *)
| CloseBrowser (b : Browser)            (* [_resource.browser.close()] *)
| CloseFileServer (s : Server).         (* [server.close(resolve)] *)

(** How the collaborators answer.  [MitmproxyManager] lives in a file of the
    repository that is not modelled, [cross-os-proxy] and [puppeteer] are
    libraries: each call either fulfils or rejects its promise.
    [server.close(cb)] does not reject: it hands an error, if any, to [cb]. *)
Record Collaborators := {
  MitmproxyManager_close : outcome unit;
  osProxy_closeProxy : outcome unit;
  browser_close : Browser -> outcome unit;
  server_close : Server -> option js_error
}.

(** The state [cleanup] acts on: the teardown calls made so far. *)
Definition log := list teardown.

(** Making the call [t], whose promise settles as [settled]. *)
Definition call (t : teardown) (settled : outcome unit) : io log unit :=
  fun made => (settled, made ++ [t]).

(** [new Promise((resolve) => server.close(resolve))]: [resolve] is the
    callback, so the promise is fulfilled whatever [close] reports. *)
Definition close_server (c : Collaborators) (s : Server) : io log unit :=
  call (CloseFileServer s)
       (match server_close c s with
        | Some _ => Returns tt
        | None => Returns tt
        end).

Fixpoint close_servers (c : Collaborators) (servers : list Server) : io log unit :=
  match servers with
  | [] => ret tt
  | s :: rest => close_server c s >> close_servers c rest
  end.

Definition cleanup (c : Collaborators) (r : Resource) : io log unit :=
  call StopInterceptionProxy (MitmproxyManager_close c) >>
  call ClearSystemProxy (osProxy_closeProxy c) >>
  match browser r with
  | Some b => call (CloseBrowser b) (browser_close c b)
  | None => ret tt
  end >>
  close_servers c (Map_values (fileServer r)).

(** Collaborators for the examples: clearing the system proxy fails. *)
Definition proxy_clear_fails : Collaborators :=
  {| MitmproxyManager_close := Returns tt;
     osProxy_closeProxy := Throws (IOError (js "EPERM"));
     browser_close := fun _ => Returns tt;
     server_close := fun _ => None |}.

(** Collaborators for the examples: the first three calls succeed, the file
    server reports an error when it is closed. *)
Definition only_server_complains : Collaborators :=
  {| MitmproxyManager_close := Returns tt;
     osProxy_closeProxy := Returns tt;
     browser_close := fun _ => Returns tt;
     server_close := fun _ => Some (IOError (js "ERR_SERVER_NOT_RUNNING")) |}.

Definition example_registry : Resource :=
  {| fileServer := [(js "/srv/www", {| server_id := 0; server_root := js "/srv/www" |})];
     browser := Some {| browser_id := 1 |} |}.

(** The teardown sequence of the specification for a registry [r]. *)
Definition full_teardown (r : Resource) : list teardown :=
  [StopInterceptionProxy; ClearSystemProxy]
    ++ match browser r with
       | Some b => [CloseBrowser b]
       | None => []
       end
    ++ map CloseFileServer (Map_values (fileServer r)).

End Lifecycle.

(** ** JSON values and the runtime *)

#[local] Set Warnings "-register-all".

(** A value produced by [JSON.parse].  Numbers are taken at integer values
    (epoch milliseconds, exact in a double below 2^53); an object is the
    list of its own properties. *)
Inductive json :=
| JNull
| JBool (b : bool)
| JNum (n : Z)
| JStr (s : jsstring)
| JArr (items : list json)
| JObj (members : list (jsstring * json)).

(** Built-ins and libraries the credential code calls. *)
Class Runtime := {
  (** [JSON.parse]; [None] when it throws [SyntaxError]. *)
  JSON_parse : jsstring -> option json;
  (** [JSON.stringify]. *)
  JSON_stringify : json -> jsstring;
  (** [new URL(u).searchParams], as its list of name-value pairs; [None]
      when the constructor throws [TypeError] (the string is not a URL). *)
  URL_searchParams : jsstring -> option (list (jsstring * jsstring));
  (** [dayjs(t).format('YYYY-MM-DD HH:mm:ss')]. *)
  dayjs_format : Z -> jsstring
}.

(** Property access [o.k] on an object: [None] is [undefined]. *)
Fixpoint member (k : jsstring) (members : list (jsstring * json)) : option json :=
  match members with
  | [] => None
  | (k', v) :: rest => if jseqb k' k then Some v else member k rest
  end.

(** [Array.prototype.sort] with a comparison function.  The built-in is
    stable; for a consistent comparison function its result is the one
    computed here. *)
Section ArraySort.
Variable A : Type.
Variable comparefn : A -> A -> Z.

Fixpoint insert_sorted (x : A) (l : list A) : list A :=
  match l with
  | [] => [x]
  | y :: l' =>
      if (comparefn x y <=? 0)%Z then x :: y :: l' else y :: insert_sorted x l'
  end.

Fixpoint Array_sort (l : list A) : list A :=
  match l with
  | [] => []
  | x :: l' => insert_sorted x (Array_sort l')
  end.
End ArraySort.

(** ** Credentials (lines 220-238) *)

Module Credential.
Record t := {
  biz : jsstring;
  url : jsstring;
  set_cookie : jsstring;
  timestamp : Z;
  nickname : jsstring;
  round_head_img : jsstring
}.
End Credential.

Module ParsedCredential.
Record t := {
  nickname : jsstring;
  round_head_img : jsstring;
  biz : jsstring;
  uin : jsstring;
  key : jsstring;
  pass_ticket : jsstring;
  wap_sid2 : jsstring;
  time : jsstring;
  valid : bool
}.
End ParsedCredential.

(** The result of running code on a parsed value: what the code does when
    the value has the type the code declares for it, [IllTyped] when it has
    not (the embedding says nothing about such runs). *)
Inductive typed (A : Type) :=
| WellTyped (o : outcome A)
| IllTyped.
Arguments WellTyped {A} o.
Arguments IllTyped {A}.

(** ** [parseCredentialData] (lines 240-284) *)

Module Extraction.

Section WithRuntime.
Context {RT : Runtime}.

(** Reading a parsed value at the type [Credential]. *)
Definition as_Credential (v : json) : option Credential.t :=
  match v with
  | JObj o =>
      match member (js "biz") o, member (js "url") o,
            member (js "set_cookie") o, member (js "timestamp") o,
            member (js "nickname") o, member (js "round_head_img") o with
      | Some (JStr b), Some (JStr u), Some (JStr c), Some (JNum t),
        Some (JStr n), Some (JStr i) =>
          Some {| Credential.biz := b; Credential.url := u;
                  Credential.set_cookie := c; Credential.timestamp := t;
                  Credential.nickname := n; Credential.round_head_img := i |}
      | _, _, _, _, _, _ => None
      end
  | _ => None
  end.

Fixpoint as_Credentials (items : list json) : option (list Credential.t) :=
  match items with
  | [] => Some []
  | v :: rest =>
      match as_Credential v, as_Credentials rest with
      | Some c, Some cs => Some (c :: cs)
      | _, _ => None
      end
  end.

(** [searchParams.get(name)]: the value of the first pair named [name]. *)
Fixpoint searchParams_get (name : jsstring) (sp : list (jsstring * jsstring))
  : option jsstring :=
  match sp with
  | [] => None
  | (n, v) :: rest => if jseqb n name then Some v else searchParams_get name rest
  end.

(** [.] of a regular expression without the [s] flag. *)
Definition line_terminator (c : code_unit) : bool :=
  existsb (N.eqb c) [10; 13; 8232; 8233]%N.

Definition SEMICOLON : code_unit := 59%N.

(** [(.+?);] matched at the head of [s]: the shortest capture. *)
Fixpoint lazy_until_semicolon (s : jsstring) : option jsstring :=
  match s with
  | [] => None
  | c :: rest =>
      if line_terminator c then None
      else match rest with
           | d :: _ =>
               if (d =? SEMICOLON)%N then Some [c]
               else option_map (cons c) (lazy_until_semicolon rest)
           | [] => None
           end
  end.

(** [s.match(/wap_sid2=(?<wap_sid2>.+?);/)]: the capture group of the
    leftmost match, [None] when nothing matches. *)
Fixpoint match_wap_sid2 (s : jsstring) : option jsstring :=
  let here :=
    match strip_prefix (js "wap_sid2=") s with
    | Some after => lazy_until_semicolon after
    | None => None
    end in
  match here with
  | Some capture => Some capture
  | None =>
      match s with
      | [] => None
      | _ :: rest => match_wap_sid2 rest
      end
  end.

(** [!x] is false: [x] is neither [null] nor the empty string. *)
Definition truthy (x : option jsstring) : bool :=
  match x with
  | Some (_ :: _) => true
  | _ => false
  end.

Definition or_empty (x : option jsstring) : jsstring :=
  match x with
  | Some v => v
  | None => []
  end.

Definition VALIDITY : Z := 1000 * 60 * 25.

Definition avatar_proxy : jsstring :=
  js "https://thirsty-alligator-94.deno.dev?url=".

(** One iteration of the loop (lines 252-280) for [item], [now] being what
    [Date.now()] returns if the iteration reaches line 279.
    [Returns None] is the [continue] of line 265. *)
Definition iteration (now : Z) (item : Credential.t)
  : outcome (option ParsedCredential.t) :=
  match URL_searchParams (Credential.url item) with
  | None => Throws TypeError
  | Some searchParams =>
      let __biz := searchParams_get (js "__biz") searchParams in
      let uin := searchParams_get (js "uin") searchParams in
      let key := searchParams_get (js "key") searchParams in
      let pass_ticket := searchParams_get (js "pass_ticket") searchParams in
      let wap_sid2 :=
        match match_wap_sid2 (Credential.set_cookie item) with
        | Some (c :: capture) => Some (c :: capture)
        | _ => None
        end in
      if negb (truthy __biz) || negb (truthy uin) || negb (truthy key)
         || negb (truthy pass_ticket) || negb (truthy wap_sid2)
      then Returns None
      else
        img <- match Credential.round_head_img item with
               | [] => Returns []
               | i =>
                   match URI.encodeURIComponent i with
                   | Some e => Returns (avatar_proxy ++ e)
                   | None => Throws URIError
                   end
               end ;;
        Returns (Some
          {| ParsedCredential.nickname := Credential.nickname item;
             ParsedCredential.round_head_img := img;
             ParsedCredential.biz := or_empty __biz;
             ParsedCredential.uin := or_empty uin;
             ParsedCredential.key := or_empty key;
             ParsedCredential.pass_ticket := or_empty pass_ticket;
             ParsedCredential.wap_sid2 := or_empty wap_sid2;
             ParsedCredential.time := dayjs_format (Credential.timestamp item);
             ParsedCredential.valid :=
               (now <? Credential.timestamp item + VALIDITY)%Z |})
  end.

(** The [for ... of] loop.  [clock n] is the value of the [n]-th call of
    [Date.now()]; [calls] of them were made so far. *)
Fixpoint for_of (clock : nat -> Z) (calls : nat)
    (items : list Credential.t) (result : list ParsedCredential.t)
  : outcome (list ParsedCredential.t) :=
  match items with
  | [] => Returns result
  | item :: rest =>
      match iteration (clock calls) item with
      | Throws e => Throws e
      | Returns None => for_of clock calls rest result
      | Returns (Some parsed) =>
          for_of clock (S calls) rest (result ++ [parsed])
      end
  end.

Definition by_timestamp_desc (a b : Credential.t) : Z :=
  (Credential.timestamp b - Credential.timestamp a)%Z.

Definition parseCredentialData (clock : nat -> Z) (data : jsstring)
  : typed (list ParsedCredential.t) :=
  match JSON_parse data with
  | None => WellTyped (Returns [])
  | Some (JArr items) =>
      match as_Credentials items with
      | Some list =>
          WellTyped (for_of clock 0 (Array_sort by_timestamp_desc list) [])
      | None => IllTyped
      end
  | Some _ => WellTyped (Throws TypeError)
  end.

(** [item] gets past the check of line 264 and is pushed. *)
Definition yields (item : Credential.t) : bool :=
  match iteration 0 item with
  | Returns (Some _) => true
  | _ => false
  end.

(** *** The words of the specification

    A query parameter is present when the URL has it with a value that is
    not empty; the cookie token is present when the header holds
    [wap_sid2=], a value of one character or more on one line, and [;]. *)

Definition param_present (name : jsstring) (sp : list (jsstring * jsstring))
  : Prop :=
  exists v, searchParams_get name sp = Some v /\ v <> [].

Definition cookie_token_present (header : jsstring) : Prop :=
  exists before value after,
    header = before ++ js "wap_sid2=" ++ value ++ SEMICOLON :: after
    /\ value <> []
    /\ Forall (fun c => line_terminator c = false) value.

Definition all_five_present (item : Credential.t) : Prop :=
  exists sp,
    URL_searchParams (Credential.url item) = Some sp
    /\ param_present (js "__biz") sp
    /\ param_present (js "uin") sp
    /\ param_present (js "key") sp
    /\ param_present (js "pass_ticket") sp
    /\ cookie_token_present (Credential.set_cookie item).

(** [parsed] is what the loop pushes for [item] at some reading of the
    clock. *)
Definition emitted_from (clock : nat -> Z)
    (item : Credential.t) (parsed : ParsedCredential.t) : Prop :=
  exists n, iteration (clock n) item = Returns (Some parsed).

(** [news] is what the loop pushes for the sessions [kept], one after the
    other, the first of them at the reading [calls] of the clock. *)
Fixpoint emitted_run (clock : nat -> Z) (calls : nat)
    (kept : list Credential.t) (news : list ParsedCredential.t) : Prop :=
  match kept, news with
  | [], [] => True
  | item :: kept', parsed :: news' =>
      iteration (clock calls) item = Returns (Some parsed)
      /\ emitted_run clock (S calls) kept' news'
  | _, _ => False
  end.

Definition not_older (a b : Credential.t) : Prop :=
  (Credential.timestamp b <= Credential.timestamp a)%Z.

Definition captured_at (t : Z) (item : Credential.t) : bool :=
  (Credential.timestamp item =? t)%Z.

(** Every session of [list] has a URL the constructor accepts and an
    avatar address [encodeURIComponent] accepts. *)
Definition all_readable (list : list Credential.t) : Prop :=
  forall item, In item list ->
    URL_searchParams (Credential.url item) <> None
    /\ URI.encodeURIComponent (Credential.round_head_img item) <> None.

End WithRuntime.

End Extraction.

(** ** [removeBizCredential] (lines 286-332) *)

Module Store.

Inductive file_op :=
| ReadStore
| WriteStore (content : jsstring).

(** The file at [credentialJsonPath]: what reading it yields, how a write of
    a given content ends, and the operations made on it so far.  A write
    that fails is taken to leave the content as it was. *)
Record StoreFile := {
  stored : outcome jsstring;
  accepts : jsstring -> outcome unit;
  ops : list file_op
}.

Definition readFileContent : io StoreFile jsstring :=
  fun f =>
    (stored f,
     {| stored := stored f; accepts := accepts f; ops := ops f ++ [ReadStore] |}).

(** On an error the source calls [reject] and then, for want of a [return],
    [resolve]; the promise is rejected by then and stays so. *)
Definition writeFileContent (content : jsstring) : io StoreFile unit :=
  fun f =>
    (accepts f content,
     {| stored := match accepts f content with
                  | Returns _ => Returns content
                  | Throws _ => stored f
                  end;
        accepts := accepts f;
        ops := ops f ++ [WriteStore content] |}).

Section WithRuntime.
Context {RT : Runtime}.

(** [item.biz !== biz].  Reading a property of [null] throws. *)
Definition biz_differs (biz : jsstring) (item : json) : outcome bool :=
  match item with
  | JNull => Throws TypeError
  | JObj members =>
      match member (js "biz") members with
      | Some (JStr b) => Returns (negb (jseqb b biz))
      | _ => Returns true
      end
  | _ => Returns true
  end.

(** [Array.prototype.filter] with a predicate that may throw. *)
Fixpoint Array_filter (p : json -> outcome bool) (items : list json)
  : outcome (list json) :=
  match items with
  | [] => Returns []
  | item :: rest =>
      keep <- p item ;;
      kept <- Array_filter p rest ;;
      Returns (if keep then item :: kept else kept)
  end.

(** [list.filter(...)] on whatever [JSON.parse] returned. *)
Definition filter_list (biz : jsstring) (parsed : json) : outcome (list json) :=
  match parsed with
  | JArr items => Array_filter (biz_differs biz) items
  | _ => Throws TypeError
  end.

Definition removeBizCredential (biz : jsstring) : io StoreFile bool :=
  try_catch
    (data <~ readFileContent ;;
     match JSON_parse data with
     | None => ret false                      (* inner [catch], line 296 *)
     | Some list =>
         list <~ lift (filter_list biz list) ;;
         writeFileContent (JSON_stringify (JArr list)) >>
         ret true
     end)
    (fun _ => ret false).                     (* outer [catch], line 303 *)

(** The words of the specification: [item] is an entry whose [biz] is
    the target. *)
Definition has_biz (biz : jsstring) (item : json) : bool :=
  match item with
  | JObj members =>
      match member (js "biz") members with
      | Some (JStr b) => jseqb b biz
      | _ => false
      end
  | _ => false
  end.

Definition without_biz (biz : jsstring) (items : list json) : list json :=
  filter (fun item => negb (has_biz biz item)) items.

(** The contents the run of an operation handed to [fs.writeFile]. *)
Definition writes_of (l : list file_op) : list jsstring :=
  flat_map (fun o => match o with WriteStore c => [c] | ReadStore => [] end) l.

End WithRuntime.

End Store.

(** ** A small runtime to run the embedding on concrete inputs

    [JSON.parse] and [JSON.stringify] for JSON texts whose numbers are
    integers written without fraction or exponent (surrogates are always
    written as escapes); the query of an
    [http(s)://] URL split at [&] and [=] without percent-decoding;
    timestamps formatted in UTC.  The properties of Part II hold for every
    [Runtime]; this one only instantiates them. *)

Module ExampleRuntime.

Definition QUOTE : code_unit := 34%N.

Fixpoint skip_ws (s : jsstring) : jsstring :=
  match s with
  | c :: rest => if existsb (N.eqb c) [32; 9; 10; 13]%N then skip_ws rest else s
  | [] => []
  end.

Definition hex4 (a b c d : code_unit) : option code_unit :=
  match URI.hex_digit a, URI.hex_digit b, URI.hex_digit c, URI.hex_digit d with
  | Some x, Some y, Some z, Some w => Some (((x * 16 + y) * 16 + z) * 16 + w)%N
  | _, _, _, _ => None
  end.

(** The characters of a string literal after its opening quote, and what
    follows its closing quote. *)
Fixpoint string_body (s : jsstring) : option (jsstring * jsstring) :=
  match s with
  | [] => None
  | c :: rest =>
      if (c =? QUOTE)%N then Some ([], rest)
      else if (c <? 32)%N then None
      else if (c =? 92)%N then
        match rest with
        | 117%N :: h1 :: h2 :: h3 :: h4 :: rest' =>
            match hex4 h1 h2 h3 h4, string_body rest' with
            | Some u, Some (str, after) => Some (u :: str, after)
            | _, _ => None
            end
        | e :: rest' =>
            let unescaped :=
              match e with
              | 34%N => Some 34%N | 92%N => Some 92%N | 47%N => Some 47%N
              | 98%N => Some 8%N | 102%N => Some 12%N | 110%N => Some 10%N
              | 114%N => Some 13%N | 116%N => Some 9%N
              | _ => None
              end in
            match unescaped, string_body rest' with
            | Some u, Some (str, after) => Some (u :: str, after)
            | _, _ => None
            end
        | [] => None
        end
      else
        match string_body rest with
        | Some (str, after) => Some (c :: str, after)
        | None => None
        end
  end.

Definition digit (c : code_unit) : bool := URI.in_range 48 57 c.

Fixpoint digits (acc : Z) (s : jsstring) : Z * jsstring :=
  match s with
  | c :: rest =>
      if digit c then digits (acc * 10 + Z.of_N (c - 48)) rest else (acc, s)
  | [] => (acc, [])
  end.

(** An integer literal at the head of [s]: no leading zero, nothing that
    would continue a JSON number after it. *)
Definition natural (s : jsstring) : option (Z * jsstring) :=
  match s with
  | c :: rest =>
      if digit c then
        let (n, after) := digits 0 s in
        let continues :=
          match after with
          | d :: _ => existsb (N.eqb d) [46; 101; 69]%N
          | [] => false
          end in
        let leading_zero :=
          match rest with
          | d :: _ => (c =? 48)%N && digit d
          | [] => false
          end in
        if continues || leading_zero then None else Some (n, after)
      else None
  | [] => None
  end.

Fixpoint value (fuel : nat) (s : jsstring) : option (json * jsstring) :=
  match fuel with
  | O => None
  | S fuel =>
      match skip_ws s with
      | 110%N :: 117%N :: 108%N :: 108%N :: rest => Some (JNull, rest)
      | 116%N :: 114%N :: 117%N :: 101%N :: rest => Some (JBool true, rest)
      | 102%N :: 97%N :: 108%N :: 115%N :: 101%N :: rest => Some (JBool false, rest)
      | 34%N :: rest =>
          match string_body rest with
          | Some (str, after) => Some (JStr str, after)
          | None => None
          end
      | 45%N :: rest =>
          match natural rest with
          | Some (n, after) => Some (JNum (- n), after)
          | None => None
          end
      | 91%N :: rest =>
          match skip_ws rest with
          | 93%N :: after => Some (JArr [], after)
          | _ =>
              match elements fuel rest with
              | Some (items, after) => Some (JArr items, after)
              | None => None
              end
          end
      | 123%N :: rest =>
          match skip_ws rest with
          | 125%N :: after => Some (JObj [], after)
          | _ =>
              match members fuel rest with
              | Some (ms, after) => Some (JObj ms, after)
              | None => None
              end
          end
      | rest =>
          match natural rest with
          | Some (n, after) => Some (JNum n, after)
          | None => None
          end
      end
  end

with elements (fuel : nat) (s : jsstring) : option (list json * jsstring) :=
  match fuel with
  | O => None
  | S fuel =>
      match value fuel s with
      | Some (v, after) =>
          match skip_ws after with
          | 44%N :: more =>
              match elements fuel more with
              | Some (vs, after') => Some (v :: vs, after')
              | None => None
              end
          | 93%N :: after' => Some ([v], after')
          | _ => None
          end
      | None => None
      end
  end

with members (fuel : nat) (s : jsstring)
  : option (list (jsstring * json) * jsstring) :=
  match fuel with
  | O => None
  | S fuel =>
      match skip_ws s with
      | 34%N :: rest =>
          match string_body rest with
          | Some (k, after) =>
              match skip_ws after with
              | 58%N :: after =>
                  match value fuel after with
                  | Some (v, after) =>
                      match skip_ws after with
                      | 44%N :: more =>
                          match members fuel more with
                          | Some (ms, after') =>
                              (* a repeated name keeps its last value *)
                              Some (if existsb (fun m => jseqb (fst m) k) ms
                                    then ms else (k, v) :: ms, after')
                          | None => None
                          end
                      | 125%N :: after' => Some ([(k, v)], after')
                      | _ => None
                      end
                  | None => None
                  end
              | _ => None
              end
          | None => None
          end
      | _ => None
      end
  end.

Definition parse (s : jsstring) : option json :=
  match value (2 * length s + 2) s with
  | Some (v, after) =>
      match skip_ws after with
      | [] => Some v
      | _ => None
      end
  | None => None
  end.

Definition decimal (n : N) : jsstring :=
  js (DecimalString.NilZero.string_of_uint (N.to_uint n)).

Definition integer (z : Z) : jsstring :=
  if (z <? 0)%Z then 45%N :: decimal (Z.to_N (- z)) else decimal (Z.to_N z).

Definition quoted_char (c : code_unit) : jsstring :=
  if (c =? 34)%N then [92; 34]%N
  else if (c =? 92)%N then [92; 92]%N
  else if (c =? 8)%N then [92; 98]%N
  else if (c =? 12)%N then [92; 102]%N
  else if (c =? 10)%N then [92; 110]%N
  else if (c =? 13)%N then [92; 114]%N
  else if (c =? 9)%N then [92; 116]%N
  else if (c <? 32)%N || URI.high_surrogate c || URI.low_surrogate c then
    [92; 117]%N
      ++ map URI.hex_char
           [c / 4096; (c / 256) mod 16; (c / 16) mod 16; c mod 16]%N
  else [c].

Definition quoted (s : jsstring) : jsstring :=
  QUOTE :: flat_map quoted_char s ++ [QUOTE].

Definition commas (parts : list jsstring) : jsstring :=
  match parts with
  | [] => []
  | p :: rest => p ++ flat_map (fun q => 44%N :: q) rest
  end.

Fixpoint stringify (v : json) : jsstring :=
  match v with
  | JNull => js "null"
  | JBool true => js "true"
  | JBool false => js "false"
  | JNum n => integer n
  | JStr s => quoted s
  | JArr items => 91%N :: commas (map stringify items) ++ [93%N]
  | JObj ms =>
      123%N
        :: commas (map (fun m => quoted (fst m) ++ 58%N :: stringify (snd m)) ms)
        ++ [125%N]
  end.

Fixpoint split_at (sep : code_unit) (s : jsstring) : list jsstring :=
  match s with
  | [] => [[]]
  | c :: rest =>
      if (c =? sep)%N then [] :: split_at sep rest
      else match split_at sep rest with
           | piece :: pieces => (c :: piece) :: pieces
           | [] => [[c]]
           end
  end.

Fixpoint cut_at (sep : code_unit) (s : jsstring) : jsstring * option jsstring :=
  match s with
  | [] => ([], None)
  | c :: rest =>
      if (c =? sep)%N then ([], Some rest)
      else let (before, after) := cut_at sep rest in (c :: before, after)
  end.

Definition pair_of (piece : jsstring) : jsstring * jsstring :=
  match cut_at 61%N piece with
  | (name, Some v) => (name, v)
  | (name, None) => (name, [])
  end.

Definition searchParams (u : jsstring) : option (list (jsstring * jsstring)) :=
  let after_scheme :=
    match strip_prefix (js "https://") u with
    | Some rest => Some rest
    | None => strip_prefix (js "http://") u
    end in
  match after_scheme with
  | Some (c :: rest) =>
      if existsb (N.eqb c) [47; 63; 35]%N then None
      else
        match snd (cut_at 63%N (fst (cut_at 35%N (c :: rest)))) with
        | Some query =>
            Some (map pair_of
                    (filter (fun p => negb (jseqb p [])) (split_at 38%N query)))
        | None => Some []
        end
  | _ => None
  end.

Definition two (n : Z) : jsstring :=
  (if (n <? 10)%Z then [48%N] else []) ++ integer n.

(** The civil date of a day number counted from 1970-01-01. *)
Definition civil (day : Z) : Z * Z * Z :=
  let z := (day + 719468)%Z in
  let era := (z / 146097)%Z in
  let doe := (z - era * 146097)%Z in
  let yoe := ((doe - doe / 1460 + doe / 36524 - doe / 146096) / 365)%Z in
  let doy := (doe - (365 * yoe + yoe / 4 - yoe / 100))%Z in
  let mp := ((5 * doy + 2) / 153)%Z in
  let d := (doy - (153 * mp + 2) / 5 + 1)%Z in
  let m := (if (mp <? 10)%Z then mp + 3 else mp - 9)%Z in
  ((yoe + era * 400 + (if (m <=? 2)%Z then 1 else 0))%Z, m, d).

Definition format_utc (t : Z) : jsstring :=
  let '(y, m, d) := civil (t / 86400000) in
  let ms := (t mod 86400000)%Z in
  integer y ++ 45%N :: two m ++ 45%N :: two d ++ 32%N
    :: two (ms / 3600000) ++ 58%N :: two ((ms / 60000) mod 60) ++ 58%N
    :: two ((ms / 1000) mod 60).

#[export] Instance runtime : Runtime := {|
  JSON_parse := parse;
  JSON_stringify := stringify;
  URL_searchParams := searchParams;
  dayjs_format := format_utc
|}.

End ExampleRuntime.

(** ** Example inputs *)

Module Examples.

Definition session (biz url set_cookie : string) (timestamp : Z) : json :=
  JObj [(js "biz", JStr (js biz));
        (js "url", JStr (js url));
        (js "set_cookie", JStr (js set_cookie));
        (js "timestamp", JNum timestamp);
        (js "nickname", JStr (js "reader"));
        (js "round_head_img", JStr (js "http://wx.qlogo.cn/a b"))].

Definition complete_url : string :=
  "https://mp.weixin.qq.com/s?__biz=MzA5&uin=NzM4&key=4f2a&pass_ticket=Q7x".

Definition cookie : string := "wxuin=1; wap_sid2=CJ7a; Path=/; HttpOnly".

(** Three sessions: the second lacks [key], the third is the most recent. *)
Definition sessions : list json :=
  [session "MzA5" complete_url cookie 1700000000000;
   session "MzB7" "https://mp.weixin.qq.com/s?__biz=MzB7&uin=NzM4&pass_ticket=Q7x"
           cookie 1700000300000;
   session "MzC1" complete_url cookie 1700000600000].

Definition store_text : jsstring := ExampleRuntime.stringify (JArr sessions).

(** A store whose only session has a string that is not a URL as [url]. *)
Definition bad_url_sessions : list json :=
  [session "MzA5" "mp.weixin.qq.com/s" cookie 1700000000000].

Definition bad_url_text : jsstring :=
  ExampleRuntime.stringify (JArr bad_url_sessions).

(** [Date.now()] twenty minutes after the first capture, at every call. *)
Definition clock : nat -> Z := fun _ => 1700001200000%Z.

Definition credentials : list Credential.t :=
  Eval vm_compute in
    match Extraction.as_Credentials sessions with
    | Some l => l
    | None => []
    end.

Definition bad_url_credentials : list Credential.t :=
  Eval vm_compute in
    match Extraction.as_Credentials bad_url_sessions with
    | Some l => l
    | None => []
    end.

(** What [parseCredentialData] returns for [store_text]. *)
Definition extracted : list ParsedCredential.t :=
  Eval vm_compute in
    match Extraction.parseCredentialData (RT := ExampleRuntime.runtime)
            clock store_text with
    | WellTyped (Returns out) => out
    | _ => []
    end.

(** The store file holding [text], every write being accepted. *)
Definition store_of (text : jsstring) : Store.StoreFile :=
  {| Store.stored := Returns text;
     Store.accepts := fun _ => Returns tt;
     Store.ops := [] |}.

(** The store file holding [text], no write being accepted. *)
Definition read_only_store_of (text : jsstring) : Store.StoreFile :=
  {| Store.stored := Returns text;
     Store.accepts := fun _ => Throws (IOError (js "EACCES"));
     Store.ops := [] |}.

(** A store file that cannot be read. *)
Definition unreadable_store : Store.StoreFile :=
  {| Store.stored := Throws (IOError (js "ENOENT"));
     Store.accepts := fun _ => Returns tt;
     Store.ops := [] |}.

(** A list whose second entry is [null]. *)
Definition with_null_entry : list json :=
  [session "MzA5" complete_url cookie 1700000000000; JNull].

Definition with_null_entry_text : jsstring :=
  ExampleRuntime.stringify (JArr with_null_entry).

End Examples.

(** ** The shape of the registry *)

Module RegistryShape.
Import FileServer.

(** What holds of the states the event loop reaches: a server sits in the
    registry under the root it was created for; every server created so far
    and every bound port belongs to an identity below [next_id]; no two
    servers that wait for their [listen] have one identity, and none of
    them is bound yet. *)
Definition shaped (st : State) : Prop :=
  (forall root s,
      In (root, s) (registry st) ->
      server_root s = root /\ (server_id s < next_id st)%nat)
  /\ (forall s, In s (pending st) -> (server_id s < next_id st)%nat)
  /\ NoDup (map server_id (pending st))
  /\ (forall e, In e (bound st) -> (fst e < next_id st)%nat)
  /\ (forall s, In s (pending st) -> ~ In (server_id s) (map fst (bound st))).

(** The server is bound, or a close has been run on a server of its
    identity. *)
Definition bound_or_closed (es : list event) (st : State) (s : Server) : Prop :=
  (exists port, port_of st s = Some port)
  \/ exists x, In (Closed x) es /\ server_id x = server_id s.

(** The first server created, for the root [/srv/www]. *)
Definition www : Server := {| server_id := 0; server_root := js "/srv/www" |}.

End RegistryShape.

(** ** More of [node:path] *)

Module PathMore.
Import Path.

(** The name of a directory entry: not empty, not [.], not [..], without
    separator. *)
Definition plain (seg : jsstring) : Prop :=
  seg <> [] /\ seg <> [DOT] /\ seg <> [DOT; DOT] /\ ~ In SLASH seg.

Definition plainb (seg : jsstring) : bool :=
  negb (jseqb seg []) && negb (jseqb seg [DOT]) && negb (jseqb seg [DOT; DOT])
  && negb (existsb (N.eqb SLASH) seg).

(** The absolute path of the entry reached from the root through [segs]. *)
Definition absolute (segs : list jsstring) : jsstring := SLASH :: unsegments segs.

(** The entries that [path], read from the root, goes through:
    [normalizeString] without leave to climb above the root. *)
Definition entries (path : jsstring) : list jsstring :=
  rev (fold_left (normalize_segment false) (segments path) []).

(** [path.resolve] of one argument; [cwd] is [process.cwd()], an absolute
    path. *)
Definition resolve (cwd path : jsstring) : jsstring :=
  absolute
    (entries ((if isAbsolute path then path else cwd ++ SLASH :: path) ++ [SLASH])).

(** What is left of two lists after their longest common prefix. *)
Fixpoint after_common (from to : list jsstring)
  : list jsstring * list jsstring :=
  match from, to with
  | f :: from', t :: to' =>
      if jseqb f t then after_common from' to' else (from, to)
  | _, _ => (from, to)
  end.

(** [path.relative]: as many [..] as [from] has entries after the common
    part, then the entries of [to] after the common part. *)
Definition relative (cwd from to : jsstring) : jsstring :=
  if jseqb from to then []
  else
    let from := resolve cwd from in
    let to := resolve cwd to in
    if jseqb from to then []
    else
      let (up, down) := after_common (entries from) (entries to) in
      unsegments (map (fun _ => [DOT; DOT]) up ++ down).

(** *** The form of a normalized path *)

Definition slash_free (seg : jsstring) : Prop := ~ In SLASH seg.

(** A segment that [normalizeString] may keep. *)
Definition proper (seg : jsstring) : Prop := seg <> [] /\ slash_free seg.

(** The shape of the result of [normalizeString], last segment first:
    entry names, on top of [..] segments that only a relative path has. *)
Definition stacked (allow : bool) (res : list jsstring) : Prop :=
  exists (k : nat) (pl : list jsstring),
    res = pl ++ repeat [DOT; DOT] k /\ Forall plain pl /\ (allow = false -> k = 0%nat).

(** The segments [normalizeString] keeps, first segment first. *)
Definition kept (p : jsstring) : list jsstring :=
  rev (fold_left (normalize_segment (negb (isAbsolute p))) (segments p) []).

(** A path put together from its kept segments, a leading and a trailing
    separator, the way [path.normalize] does. *)
Definition framed (absolute trailing : bool) (l : list jsstring) : jsstring :=
  match l with
  | [] => if absolute then [SLASH] else if trailing then [DOT; SLASH] else [DOT]
  | _ => (if absolute then [SLASH] else [])
         ++ unsegments l ++ (if trailing then [SLASH] else [])
  end.

End PathMore.

(** ** Requests that climb *)

Module Traversal.
Import Path.

(** The request that names the entry [target] of the machine to the server
    of a root [n] entries deep: [n] times [..], each dot written as [%2e],
    then the path of the entry. *)
Definition climbing_request (n : nat) (target : list jsstring) : jsstring :=
  SLASH :: unsegments (repeat (js "%2e%2e") n ++ target).

(** The path the request stands for, once decoded, under the root of
    entries [ds]. *)
Definition climbing_path (ds target : list jsstring) : jsstring :=
  PathMore.absolute (ds ++ repeat [DOT; DOT] (length ds) ++ target).

End Traversal.

(** ** [findIndexHtmlFiles] (lines 26-44) *)

Module IndexFiles.

(** The two calls the function makes on the file system:
    [fs.readdirSync(p)] and [fs.statSync(p).isDirectory()]. *)
Record Fs := {
  readdirSync : jsstring -> outcome (list jsstring);
  statSync_isDirectory : jsstring -> outcome bool
}.

(** [fileList] is one array, shared by the call and the calls it makes:
    each call hands on the array as the calls before left it.  The
    recursion follows the directories; [None] is a run that needs more than
    [fuel] nested calls. *)
Fixpoint findIndexHtmlFiles (fuel : nat) (cwd : jsstring) (fs : Fs)
    (dir baseDir : jsstring) (fileList : list jsstring)
  : option (outcome (list jsstring)) :=
  match fuel with
  | O => None
  | S fuel =>
      match readdirSync fs dir with
      | Throws e => Some (Throws e)
      | Returns files =>
          (fix forEach (files : list jsstring) (fileList : list jsstring)
             : option (outcome (list jsstring)) :=
             match files with
             | [] => Some (Returns fileList)
             | file :: files =>
                 let fullPath := Path.join dir file in
                 match statSync_isDirectory fs fullPath with
                 | Throws e => Some (Throws e)
                 | Returns true =>
                     match findIndexHtmlFiles fuel cwd fs fullPath baseDir fileList with
                     | Some (Returns fileList) => forEach files fileList
                     | other => other
                     end
                 | Returns false =>
                     if jseqb file (js "index.html")
                     then forEach files
                            (fileList ++ [PathMore.relative cwd baseDir fullPath])
                     else forEach files fileList
                 end
             end) files fileList
      end
  end.

(** *** A file system that is a tree *)

Inductive tree :=
| File
| Dir (children : list (jsstring * tree)).

Fixpoint child (name : jsstring) (children : list (jsstring * tree)) : option tree :=
  match children with
  | [] => None
  | (n, t) :: rest => if jseqb n name then Some t else child name rest
  end.

Fixpoint find_tree (t : tree) (segs : list jsstring) : option tree :=
  match segs with
  | [] => Some t
  | s :: rest =>
      match t with
      | Dir children =>
          match child s children with
          | Some t' => find_tree t' rest
          | None => None
          end
      | File => None
      end
  end.

(** One component of a path, looked up from the directory reached so far:
    the path of that directory from the root, or [None] when the walk has
    left the tree. *)
Definition walk_step (root : tree) (reached : option (list jsstring))
    (seg : jsstring) : option (list jsstring) :=
  match reached with
  | None => None
  | Some here =>
      match find_tree root here with
      | Some (Dir _) =>
          if jseqb seg [] || jseqb seg [Path.DOT] then Some here
          else if jseqb seg [Path.DOT; Path.DOT] then Some (removelast here)
          else Some (here ++ [seg])
      | _ => None
      end
  end.

(** The entry a path names; a relative path starts from [cwd]. *)
Definition at_path (cwd : jsstring) (root : tree) (p : jsstring) : option tree :=
  match p with
  | [] => None
  | _ =>
      match fold_left (walk_step root)
              (Path.segments (if Path.isAbsolute p then p else cwd ++ Path.SLASH :: p))
              (Some [])
      with
      | Some here => find_tree root here
      | None => None
      end
  end.

Definition tree_fs (cwd : jsstring) (root : tree) : Fs :=
  {| readdirSync := fun p =>
       match at_path cwd root p with
       | Some (Dir children) => Returns (map fst children)
       | Some File => Throws (IOError (js "ENOTDIR"))
       | None => Throws (IOError (js "ENOENT"))
       end;
     statSync_isDirectory := fun p =>
       match at_path cwd root p with
       | Some (Dir _) => Returns true
       | Some File => Returns false
       | None => Throws (IOError (js "ENOENT"))
       end |}.

(** The [index.html] files below a directory, as lists of entry names, in
    the order of the directory listings. *)
Fixpoint index_paths (t : tree) : list (list jsstring) :=
  match t with
  | File => []
  | Dir children =>
      (fix below (children : list (jsstring * tree)) : list (list jsstring) :=
         match children with
         | [] => []
         | (name, sub) :: rest =>
             match sub with
             | Dir _ => map (cons name) (index_paths sub)
             | File => if jseqb name (js "index.html") then [[name]] else []
             end ++ below rest
         end) children
  end.

Fixpoint height (t : tree) : nat :=
  match t with
  | File => 0
  | Dir children =>
      S ((fix highest (children : list (jsstring * tree)) : nat :=
            match children with
            | [] => 0
            | (_, sub) :: rest => Nat.max (height sub) (highest rest)
            end) children)
  end.

(** Entry names are names, and a directory has no two entries of one
    name. *)
Fixpoint well_formed (t : tree) : Prop :=
  match t with
  | File => True
  | Dir children =>
      NoDup (map fst children)
      /\ (fix each (children : list (jsstring * tree)) : Prop :=
            match children with
            | [] => True
            | (name, sub) :: rest =>
                PathMore.plain name /\ well_formed sub /\ each rest
            end) children
  end.

Definition index_html : jsstring := js "index.html".

(** The [index.html] files right below and further below one entry. *)
Definition entry_paths (e : jsstring * tree) : list (list jsstring) :=
  match snd e with
  | Dir _ => map (cons (fst e)) (index_paths (snd e))
  | File => if jseqb (fst e) index_html then [[fst e]] else []
  end.

(** A site with two articles, one of them with a nested draft, and a
    directory that is named like an index file. *)
Definition out_entries : list (jsstring * tree) :=
  [(js "a", Dir [(js "index.html", File); (js "style.css", File)]);
   (js "b", Dir [(js "draft", Dir [(js "index.html", File)]);
                 (js "index.html", File)]);
   (js "index.html", Dir [(js "readme.txt", File)])].

Definition site_entries : list (jsstring * tree) :=
  [(js "srv", Dir [(js "out", Dir out_entries)])].

Definition site : tree := Dir site_entries.

End IndexFiles.

(** ** [generatePDf]: the name of the file (lines 138-145) *)

Module Pdf.

(** [/\/index.html/] matched at the head of [s]: what follows the match.
    The dot of the pattern stands for any character but a line
    terminator. *)
Definition after_index_html (s : jsstring) : option jsstring :=
  match strip_prefix (js "/index") s with
  | Some (c :: rest) =>
      if Extraction.line_terminator c then None else strip_prefix (js "html") rest
  | _ => None
  end.

(** [url.replace(/\/index.html/, '')]: the leftmost match is taken out. *)
Fixpoint replace_index_html (s : jsstring) : jsstring :=
  match after_index_html s with
  | Some rest => rest
  | None =>
      match s with
      | [] => []
      | c :: s' => c :: replace_index_html s'
      end
  end.

(** [.split('/').at(-1)! + '.pdf']. *)
Definition filename (url : jsstring) : jsstring :=
  last (Path.segments (replace_index_html url)) [] ++ js ".pdf".

(** The [path] option of [page.pdf]. *)
Definition pdf_path (outDir url : jsstring) : jsstring :=
  Path.join outDir (filename url).

End Pdf.

(** ** [verifyMitmproxy] (lines 178-201) *)

Module Probe.

(** What [getSystemProxy()] resolves with, when not [null]. *)
Record SystemProxy := { proxyUrl : jsstring }.

(** How the request to [http://mitm.it] through the proxy goes: the agent
    cannot be built (its constructor throws on a proxy URL it cannot
    parse), the response ends after the given ['data'] chunks, or no ['end']
    event ever comes. *)
Inductive exchange :=
| NoAgent (e : js_error)
| Ends (chunks : list jsstring)
| Never.

(** A promise: fulfilled, rejected, or never settled. *)
Inductive settled (A : Type) :=
| Fulfilled (a : A)
| Rejected (e : js_error)
| Unsettled.
Arguments Fulfilled {A} a.
Arguments Rejected {A} e.
Arguments Unsettled {A}.

Definition sentinel : jsstring :=
  js "If you can see this, traffic is not passing through mitmproxy".

(** [RegExp.prototype.test] for a pattern without special characters. *)
Fixpoint test (pattern s : jsstring) : bool :=
  startsWith s pattern
  || match s with
     | [] => false
     | _ :: rest => test pattern rest
     end.

(** [proxy] is what [getSystemProxy()] resolved with, [http_get] how the
    request goes through the proxy of a given URL.  A chunk is the text
    that [data += chunk] appends. *)
Definition verifyMitmproxy (proxy : option SystemProxy)
    (http_get : jsstring -> exchange) : settled bool :=
  match proxy with
  | None => Fulfilled false
  | Some p =>
      match proxyUrl p with
      | [] => Fulfilled false
      | url =>
          match http_get url with
          | NoAgent e => Rejected e
          | Ends chunks =>
              let data := fold_left (fun data chunk => data ++ chunk) chunks [] in
              if test sentinel data then Fulfilled false else Fulfilled true
          | Never => Unsettled
          end
      end
  end.

End Probe.

(** ** [ensureBrowserLaunched] and [generatePDf] (lines 125-146) *)

Module BrowserLaunch.
Import Lifecycle.

Definition Browser_eqb (a b : Browser) : bool :=
  Nat.eqb (browser_id a) (browser_id b).

(** [ensureBrowserLaunched] is asynchronous: the call tests
    [_resource.browser] and, when it is [null], starts a browser and waits;
    the assignment of line 129 is made when the call resumes, which the
    event loop does later. *)
Record State := {
  _resource : Resource;
  next_id : nat;                    (* identity of the next browser started *)
  started : list Browser;           (* browsers [puppeteer.launch()] started *)
  launching : list Browser          (* started, the waiting call not resumed *)
}.

Inductive ensured :=
| Already                           (* line 127: returns at once *)
| Launching (b : Browser).          (* line 129: waits for [b] *)

Definition set_browser (r : Resource) (b : option Browser) : Resource :=
  {| fileServer := fileServer r; browser := b |}.

(** The call, up to its [await]. *)
Definition ensureBrowserLaunched (st : State) : ensured * State :=
  match browser (_resource st) with
  | Some _ => (Already, st)
  | None =>
      let b := {| browser_id := next_id st |} in
      (Launching b,
       {| _resource := _resource st;
          next_id := S (next_id st);
          started := started st ++ [b];
          launching := launching st ++ [b] |})
  end.

Definition is_launching (b : Browser) (st : State) : bool :=
  existsb (Browser_eqb b) (launching st).

Definition no_longer (b : Browser) (l : list Browser) : list Browser :=
  filter (fun x => negb (Browser_eqb x b)) l.

(** The call that waits for [b] resumes: [_resource.browser = b]. *)
Definition on_launched (b : Browser) (st : State) : State :=
  {| _resource := set_browser (_resource st) (Some b);
     next_id := next_id st;
     started := started st;
     launching := no_longer b (launching st) |}.

(** [puppeteer.launch()] rejects: the waiting call throws, nothing is
    assigned, and there is no browser [b]. *)
Definition on_launch_failed (b : Browser) (st : State) : State :=
  {| _resource := _resource st;
     next_id := next_id st;
     started := no_longer b (started st);
     launching := no_longer b (launching st) |}.

Inductive event :=
| Ensure
| Launched (b : Browser)
| LaunchFailed (b : Browser).

Definition run_event (st : State) (e : event) : State :=
  match e with
  | Ensure => snd (ensureBrowserLaunched st)
  | Launched b => if is_launching b st then on_launched b st else st
  | LaunchFailed b => if is_launching b st then on_launch_failed b st else st
  end.

Definition run (st : State) (es : list event) : State :=
  fold_left run_event es st.

Definition initial : State :=
  {| _resource := {| fileServer := []; browser := None |};
     next_id := 0;
     started := [];
     launching := [] |}.

(** Calls one after the other, each settled before the next is made, one
    for each entry of [launches]: the entry tells what [puppeteer.launch()]
    does if the call gets to line 129, [true] for a promise that resolves,
    [false] for one that rejects. *)
Fixpoint one_after_the_other (launches : list bool) (st : State) : State :=
  match launches with
  | [] => st
  | resolves :: rest =>
      one_after_the_other rest
        match ensureBrowserLaunched st with
        | (Already, st') => st'
        | (Launching b, st') =>
            run_event st' (if resolves then Launched b else LaunchFailed b)
        end
  end.

(** The calls of a run that get to line 129 when the browser is not set at
    the start: every call up to the first whose launch resolves. *)
Fixpoint launches_made (launches : list bool) : nat :=
  match launches with
  | [] => 0
  | true :: _ => 1
  | false :: rest => S (launches_made rest)
  end.

(** The calls [generatePDf] makes on puppeteer objects once
    [ensureBrowserLaunched] has resolved (lines 135-145). *)
Inductive puppeteer_call :=
| NewPage (b : Browser)
| Goto (url : jsstring)
| WritePdf (path : jsstring).

Record Puppeteer := {
  newPage : Browser -> outcome unit;
  goto : jsstring -> outcome unit;
  pdf : jsstring -> outcome unit
}.

Definition made (c : puppeteer_call) (settled : outcome unit)
  : io (list puppeteer_call) unit :=
  fun calls => (settled, calls ++ [c]).

(** [_resource.browser!.newPage()] on [null] is a [TypeError]. *)
Definition print_page (p : Puppeteer) (r : Resource) (url outDir : jsstring)
  : io (list puppeteer_call) unit :=
  match browser r with
  | None => throw TypeError
  | Some b =>
      made (NewPage b) (newPage p b) >>
      made (Goto url) (goto p url) >>
      made (WritePdf (Pdf.pdf_path outDir url)) (pdf p (Pdf.pdf_path outDir url))
  end.

End BrowserLaunch.

(* ===================================================================== *)
(** * Part II. Properties                                                 *)
(* ===================================================================== *)

(** ** Strings *)

Lemma jseqb_eq (a b : jsstring) : jseqb a b = true <-> a = b.
Proof.
  unfold jseqb. destruct (list_eq_dec N.eq_dec a b); split; congruence.
Qed.

Lemma jseqb_refl (a : jsstring) : jseqb a a = true.
Proof. now apply jseqb_eq. Qed.

Lemma jseqb_neq (a b : jsstring) : jseqb a b = false <-> a <> b.
Proof.
  unfold jseqb. destruct (list_eq_dec N.eq_dec a b); split; congruence.
Qed.

Lemma strip_prefix_app (p s rest : jsstring) :
  strip_prefix p s = Some rest <-> s = p ++ rest.
Proof.
  revert s. induction p as [|c p IH]; intros s; simpl.
  - split; congruence.
  - destruct s as [|d s].
    + split; discriminate.
    + destruct (N.eqb_spec d c) as [->|Hne].
      * rewrite IH. split; congruence.
      * split; [discriminate | congruence].
Qed.

(** ** The file server *)

Module FileServerFacts.
Import FileServer.

Lemma escaping_path_forbidden (root : jsstring) (fs : FileSystem) (url : jsstring) :
  startsWith (Path.normalize (Path.join root url)) root = false ->
  handler root fs url =
    {| accesses := [];
       reply := Returns {| statusCode := 403; body := js "<h1>403 Forbidden</h1>" |} |}.
Proof.
  intros H. unfold handler. now rewrite H.
Qed.

(** A request answered 403 made no file system call. *)
Lemma forbidden_touches_nothing (root : jsstring) (fs : FileSystem)
    (url b : jsstring) :
  reply (handler root fs url) = Returns {| statusCode := 403; body := b |} ->
  accesses (handler root fs url) = [].
Proof.
  unfold handler.
  destruct (startsWith _ root); simpl; [|reflexivity].
  destruct (URI.decodeURIComponent _) as [filePath|]; simpl; [|reflexivity].
  destruct (readFile fs _) as [content|code]; [discriminate|].
  destruct (jseqb code _); discriminate.
Qed.

(** Whatever the handler touches is the decoded form of a path that passed
    the containment check before it was decoded. *)
Lemma accesses_follow_the_check (root : jsstring) (fs : FileSystem)
    (url : jsstring) (a : fs_access) :
  In a (accesses (handler root fs url)) ->
  exists filePath,
    startsWith (Path.normalize (Path.join root url)) root = true
    /\ URI.decodeURIComponent (Path.normalize (Path.join root url)) = Some filePath
    /\ (accessed_path a = filePath
        \/ accessed_path a = Path.join filePath (js "index.html")).
Proof.
  unfold handler.
  destruct (startsWith _ root) eqn:Es; simpl; [|contradiction].
  destruct (URI.decodeURIComponent _) as [filePath|] eqn:Ed; simpl; [|contradiction].
  intros [<-|Hin].
  - exists filePath. auto.
  - exists filePath. split; [reflexivity|]. split; [reflexivity|].
    apply in_app_or in Hin. destruct Hin as [Hin|[<-|[]]].
    + destruct (existsSync fs filePath); [|contradiction].
      destruct Hin as [<-|[]]. now left.
    + simpl. destruct (existsSync fs filePath && statSync_isDirectory fs filePath);
        auto.
Qed.

(** C1 (the code departs from the claim).  The server of [/srv/www] is asked
    for [/%2e%2e/%2e%2e/etc/passwd].  The containment check runs on the path
    as it still is encoded, which starts with the root; the path is decoded
    only afterwards, so the request is not answered 403: the handler probes
    and reads [/srv/www/../../etc/passwd] and answers 200 with the content
    of [/etc/passwd], a file outside the root. *)
Theorem encoded_traversal_is_served :
  let root := js "/srv/www" in
  let served := handler root example_fs (js "/%2e%2e/%2e%2e/etc/passwd") in
  let p := js "/srv/www/../../etc/passwd" in
  reply served =
    Returns {| statusCode := 200; body := js "root:x:0:0:root:/root:/bin/sh" |}
  /\ accesses served = [ExistsSync p; StatSync p; ReadFile p]
  /\ Path.normalize p = js "/etc/passwd"
  /\ startsWith (Path.normalize p) root = false.
Proof.
  vm_compute. repeat split; reflexivity.
Qed.

(** Had the request path been decoded before the check, as the
    specification has it, the same request would have been refused. *)
Lemma decoding_first_would_forbid :
  URI.decodeURIComponent (js "/%2e%2e/%2e%2e/etc/passwd") = Some (js "/../../etc/passwd")
  /\ Path.normalize (Path.join (js "/srv/www") (js "/../../etc/passwd")) = js "/etc/passwd"
  /\ startsWith (js "/etc/passwd") (js "/srv/www") = false.
Proof. vm_compute. repeat split; reflexivity. Qed.

(** The prefix test compares strings, not directories: a plain [../] that
    leads into a sibling whose name extends the root's passes it as well. *)
Lemma plain_traversal_into_sibling_is_served :
  let served := handler (js "/srv/www") example_fs (js "/../www-private/key.pem") in
  reply served = Returns {| statusCode := 200; body := js "PRIVATE KEY" |}
  /\ In (ReadFile (js "/srv/www-private/key.pem")) (accesses served).
Proof.
  vm_compute. split; [reflexivity | auto].
Qed.

(** A plain [../] that leaves the root's prefix is answered 403. *)
Lemma plain_traversal_forbidden :
  handler (js "/srv/www") example_fs (js "/../../etc/passwd") =
    {| accesses := [];
       reply := Returns {| statusCode := 403; body := js "<h1>403 Forbidden</h1>" |} |}.
Proof. vm_compute. reflexivity. Qed.

End FileServerFacts.

(** ** The registry of file servers *)

Section JsMapFacts.
Variable V : Type.
Implicit Types (m : JsMap V) (k : jsstring) (v : V).

Lemma Map_has_get m k : Map_has m k = true <-> exists v, Map_get m k = Some v.
Proof.
  unfold Map_has. destruct (Map_get m k) as [v|]; split.
  - eauto.
  - reflexivity.
  - discriminate.
  - intros [v H]. discriminate.
Qed.

Lemma Map_get_set_same m k v : Map_get (Map_set m k v) k = Some v.
Proof.
  induction m as [|[k' v'] m IH]; simpl.
  - now rewrite jseqb_refl.
  - destruct (jseqb k' k) eqn:E; simpl.
    + now rewrite jseqb_refl.
    + now rewrite E.
Qed.

Lemma Map_get_set_other m k k' v :
  k' <> k -> Map_get (Map_set m k v) k' = Map_get m k'.
Proof.
  intros Hne. induction m as [|[k0 v0] m IH]; simpl.
  - apply jseqb_neq in Hne. 
    destruct (jseqb k k') eqn:E; [|reflexivity].
    apply jseqb_eq in E. apply jseqb_neq in Hne. congruence.
  - destruct (jseqb k0 k) eqn:E; simpl.
    + apply jseqb_eq in E. subst k0.
      destruct (jseqb k k') eqn:E'; [|reflexivity].
      apply jseqb_eq in E'. congruence.
    + now rewrite IH.
Qed.

Lemma Map_get_None_keys m k : Map_get m k = None <-> ~ In k (Map_keys m).
Proof.
  induction m as [|[k' v'] m IH]; simpl.
  - tauto.
  - destruct (jseqb k' k) eqn:E.
    + apply jseqb_eq in E. split; [discriminate | tauto].
    + apply jseqb_neq in E. rewrite IH. tauto.
Qed.



End JsMapFacts.

Module RegistryFacts.
Import FileServer RegistryShape.

Lemma registry_startFileServer (root : jsstring) (st : State) :
  registry (snd (startFileServer root st)) = registry st.
Proof.
  unfold startFileServer, registry.
  now destruct (Map_get _ root).
Qed.



(** Events that do not complete the [listen] of another server of the same
    root leave the root's entry alone. *)
Lemma registered_stays (root : jsstring) (es : list event) (st : State) :
  (forall s p, In (Listening s p) es -> server_root s <> root) ->
  Map_get (registry (run st es)) root = Map_get (registry st) root.
Proof.
  revert st. induction es as [|e es IH]; intros st H; simpl; [reflexivity|].
  rewrite IH by (intros s p Hin; apply (H s p); now right).
  destruct e as [r|server port|server|server]; simpl.
  - now rewrite registry_startFileServer.
  - destruct (is_pending server st); [|reflexivity].
    unfold registry, on_listening; simpl.
    apply Map_get_set_other.
    intros Heq. apply (H server port); [now left | now symmetry].
  - now destruct (is_pending server st).
  - reflexivity.
Qed.

Lemma Map_get_In (V : Type) (m : JsMap V) (k : jsstring) (v : V) :
  Map_get m k = Some v -> In (k, v) m.
Proof.
  induction m as [|[k' v'] m IH]; simpl; [discriminate|].
  destruct (jseqb k' k) eqn:E.
  - apply jseqb_eq in E. intros [= ->]. left. now subst.
  - intros H. right. now apply IH.
Qed.

Lemma Map_set_In (V : Type) (m : JsMap V) (k k' : jsstring) (v v' : V) :
  In (k', v') (Map_set m k v) -> (k', v') = (k, v) \/ In (k', v') m.
Proof.
  induction m as [|[k0 v0] m IH]; simpl.
  - intros [H|[]]. now left.
  - destruct (jseqb k0 k); simpl.
    + intros [H|H]; [now left | now right; right].
    + intros [H|H]; [now right; left|].
      destruct (IH H); [now left | now right; right].
Qed.

Lemma Map_values_In (V : Type) (m : JsMap V) (v : V) :
  In v (Map_values m) <-> exists k, In (k, v) m.
Proof.
  unfold Map_values. rewrite in_map_iff. split.
  - intros ([k v'] & <- & H). now exists k.
  - intros (k & H). now exists (k, v).
Qed.

Lemma Server_eqb_eq (a b : Server) : Server_eqb a b = true <-> a = b.
Proof.
  unfold Server_eqb. rewrite andb_true_iff, Nat.eqb_eq, jseqb_eq.
  destruct a, b; simpl. split; [intros [-> ->]; reflexivity|].
  intros [= -> ->]. now split.
Qed.

Lemma Server_eqb_refl (s : Server) : Server_eqb s s = true.
Proof. now apply Server_eqb_eq. Qed.

Lemma is_pending_In (s : Server) (st : State) :
  is_pending s st = true -> In s (pending st).
Proof.
  unfold is_pending. rewrite existsb_exists. intros (p & Hin & Heq).
  apply Server_eqb_eq in Heq. now subst.
Qed.

Lemma In_is_pending (s : Server) (st : State) :
  In s (pending st) -> is_pending s st = true.
Proof.
  intros H. unfold is_pending. apply existsb_exists.
  exists s. split; [assumption|apply Server_eqb_refl].
Qed.

Lemma remove_pending_In (s p : Server) (l : list Server) :
  In p (remove_pending s l) <-> In p l /\ p <> s.
Proof.
  unfold remove_pending. rewrite filter_In, negb_true_iff.
  rewrite <- not_true_iff_false, Server_eqb_eq. tauto.
Qed.

Lemma run_Listening_pending (st : State) (s : Server) (port : N) :
  In s (pending st) -> run_event st (Listening s port) = on_listening s port st.
Proof. intros H. simpl. now rewrite (In_is_pending s st H). Qed.

Lemma startFileServer_fresh (root : jsstring) (st : State) :
  Map_get (registry st) root = None ->
  startFileServer root st =
    (Awaiting {| server_id := next_id st; server_root := root |},
     {| _resource := _resource st;
        next_id := S (next_id st);
        bound := bound st;
        pending := pending st
                   ++ [{| server_id := next_id st; server_root := root |}] |}).
Proof.
  intros H. unfold startFileServer. unfold registry in H. now rewrite H.
Qed.

Lemma startFileServer_registered (root : jsstring) (st : State) (s : Server) :
  Map_get (registry st) root = Some s ->
  startFileServer root st = (Resolved s, st).
Proof.
  intros H. unfold startFileServer. unfold registry in H. now rewrite H.
Qed.

Lemma run_snoc (st : State) (es : list event) (e : event) :
  run st (es ++ [e]) = run_event (run st es) e.
Proof. unfold run. now rewrite fold_left_app. Qed.

(** *** Ports *)



Lemma port_of_listening (server s : Server) (port : N) (st : State) :
  port_of (on_listening server port st) s
  = if Nat.eqb (server_id server) (server_id s) then Some port else port_of st s.
Proof.
  unfold port_of, on_listening. cbn [bound find fst].
  now destruct (Nat.eqb (server_id server) (server_id s)).
Qed.

Lemma find_filter_other (i j : nat) (l : list (nat * N)) :
  i <> j ->
  find (fun e => Nat.eqb (fst e) j) (filter (fun e => negb (Nat.eqb (fst e) i)) l)
  = find (fun e => Nat.eqb (fst e) j) l.
Proof.
  intros H. induction l as [|[k p] l IH]; [reflexivity|].
  cbn [filter find fst].
  destruct (Nat.eqb_spec k i) as [->|Hk]; cbn [negb].
  - destruct (Nat.eqb_spec i j); [contradiction|exact IH].
  - cbn [find fst]. now rewrite IH.
Qed.

Lemma port_of_closed (x s : Server) (st : State) :
  server_id x <> server_id s -> port_of (on_closed x st) s = port_of st s.
Proof.
  intros H. unfold port_of, on_closed. cbn [bound].
  now rewrite find_filter_other.
Qed.

(** *** The shape of reachable states *)

Lemma shaped_initial : shaped initial.
Proof.
  repeat split; simpl; try contradiction; try constructor;
    intros; contradiction.
Qed.

Lemma NoDup_ids_filter (f : Server -> bool) (l : list Server) :
  NoDup (map server_id l) -> NoDup (map server_id (filter f l)).
Proof.
  induction l as [|a l IH]; intros H; [constructor|].
  simpl in H. inversion H as [|? ? Hn Hl]; subst. simpl.
  destruct (f a); [|now apply IH].
  simpl. constructor; [|now apply IH].
  intros I. apply Hn. apply in_map_iff in I. destruct I as (y & E & Iy).
  apply filter_In in Iy. apply in_map_iff. exists y. now split.
Qed.

Lemma NoDup_ids_same (l : list Server) (a b : Server) :
  NoDup (map server_id l) -> In a l -> In b l ->
  server_id a = server_id b -> a = b.
Proof.
  induction l as [|c l IH]; intros H Ia Ib E; [contradiction|].
  simpl in H. inversion H as [|? ? Hn Hl]; subst.
  destruct Ia as [->|Ia], Ib as [->|Ib].
  - reflexivity.
  - exfalso. apply Hn. rewrite E. now apply in_map.
  - exfalso. apply Hn. rewrite <- E. now apply in_map.
  - now apply IH.
Qed.

Lemma shaped_run_event (st : State) (e : event) :
  shaped st -> shaped (run_event st e).
Proof.
  intros Hs. pose proof Hs as (Hreg & Hpen & Hnd & Hb & Hpb).
  destruct e as [root|server port|server|server]; simpl.
  - unfold startFileServer.
    destruct (Map_get (fileServer (_resource st)) root) as [s|]; simpl;
      [exact Hs|].
    split; [|split; [|split; [|split]]].
    + intros r s Hin. destruct (Hreg r s Hin) as (H1 & H2).
      split; [assumption|simpl; lia].
    + intros s Hin. simpl in *. apply in_app_or in Hin.
      destruct Hin as [Hin|[<-|[]]].
      * specialize (Hpen s Hin). lia.
      * simpl. lia.
    + simpl. rewrite map_app. apply NoDup_app; [assumption| |].
      * simpl. constructor; [intros []|constructor].
      * intros a Ia [<-|[]]. apply in_map_iff in Ia.
        destruct Ia as (y & E & Iy). specialize (Hpen y Iy). simpl in E. lia.
    + intros e Hin. simpl in *. specialize (Hb e Hin). lia.
    + intros s Hin. simpl in *. apply in_app_or in Hin.
      destruct Hin as [Hin|[<-|[]]]; [now apply Hpb|].
      simpl. intros I. apply in_map_iff in I. destruct I as (e & E & Ie).
      specialize (Hb e Ie). lia.
  - destruct (is_pending server st) eqn:Ep; [|exact Hs].
    apply is_pending_In in Ep.
    split; [|split; [|split; [|split]]].
    + intros r s Hin. unfold registry, on_listening in Hin. simpl in Hin.
      apply Map_set_In in Hin. destruct Hin as [[= -> ->]|Hin].
      * split; [reflexivity|now apply Hpen].
      * exact (Hreg r s Hin).
    + intros s Hin. simpl in Hin. apply remove_pending_In in Hin.
      now apply Hpen.
    + simpl. now apply NoDup_ids_filter.
    + intros e [<-|Hin]; [simpl; now apply Hpen|now apply Hb].
    + intros s Hin. simpl in Hin. apply remove_pending_In in Hin.
      destruct Hin as [Hin Hne]. simpl. intros [E|I].
      * apply Hne. symmetry. now apply (NoDup_ids_same (pending st)).
      * now apply (Hpb s Hin).
  - destruct (is_pending server st); [|exact Hs].
    split; [exact Hreg|]. split; [|split; [|split]].
    + intros s Hin. simpl in Hin. apply remove_pending_In in Hin.
      now apply Hpen.
    + simpl. now apply NoDup_ids_filter.
    + exact Hb.
    + intros s Hin. simpl in Hin. apply remove_pending_In in Hin.
      now apply Hpb.
  - split; [exact Hreg|]. split; [exact Hpen|]. split; [exact Hnd|]. split.
    + intros e Hin. simpl in Hin. apply filter_In in Hin. now apply Hb.
    + intros s Hin I. simpl in *. apply (Hpb s Hin).
      apply in_map_iff in I. destruct I as (e & E & Ie).
      apply filter_In in Ie. apply in_map_iff. exists e. split; [assumption|apply Ie].
Qed.

Lemma shaped_run (es : list event) (st : State) : shaped st -> shaped (run st es).
Proof.
  revert st. induction es as [|e es IH]; intros st H; simpl; [assumption|].
  apply IH. now apply shaped_run_event.
Qed.

(** A registered server is bound, unless a close has been run on it. *)
Lemma registered_bound_or_closed (es : list event) (root : jsstring) (s : Server) :
  In (root, s) (registry (run initial es)) ->
  bound_or_closed es (run initial es) s.
Proof.
  revert root s. induction es as [|e es IH] using rev_ind; intros root s Hin;
    [contradiction|].
  rewrite run_snoc in *. set (st := run initial es) in *.
  assert (Hold : forall r, In (r, s) (registry st) ->
                 port_of (run_event st e) s = port_of st s ->
                 bound_or_closed (es ++ [e]) (run_event st e) s).
  { intros r Hr Hp. destruct (IH r s Hr) as [[p Hb]|(x & Ix & Ex)].
    - left. exists p. now rewrite Hp.
    - right. exists x. split; [apply in_or_app; now left|assumption]. }
  destruct e as [r|server port|server|server]; simpl in *.
  - rewrite registry_startFileServer in Hin. apply (Hold root Hin).
    unfold startFileServer. now destruct (Map_get _ r).
  - destruct (is_pending server st) eqn:Ep; [|now apply (Hold root)].
    unfold registry, on_listening in Hin. simpl in Hin.
    apply Map_set_In in Hin. destruct Hin as [[= -> ->]|Hin].
    + left. exists port. rewrite port_of_listening. now rewrite Nat.eqb_refl.
    + destruct (Nat.eqb_spec (server_id server) (server_id s)) as [E|E].
      * left. exists port. rewrite port_of_listening.
        apply Nat.eqb_eq in E. now rewrite E.
      * apply (Hold root Hin). rewrite port_of_listening.
        apply Nat.eqb_neq in E. now rewrite E.
  - destruct (is_pending server st); now apply (Hold root).
  - destruct (Nat.eq_dec (server_id server) (server_id s)) as [E|E].
    + right. exists server. split; [apply in_or_app; right; now left|assumption].
    + apply (Hold root Hin). now apply port_of_closed.
Qed.



End RegistryFacts.

(** ** Teardown *)

Module LifecycleFacts.
Import Lifecycle.

Lemma close_servers_all (c : Collaborators) (servers : list Server) (made : log) :
  close_servers c servers made = (Returns tt, made ++ map CloseFileServer servers).
Proof.
  revert made. induction servers as [|s rest IH]; intros made; simpl.
  - unfold ret. now rewrite app_nil_r.
  - unfold await, close_server, call.
    destruct (server_close c s); rewrite IH, <- app_assoc; reflexivity.
Qed.

(** What [cleanup] does, case by case. *)
Lemma cleanup_cases (c : Collaborators) (r : Resource) :
  cleanup c r [] =
    match MitmproxyManager_close c with
    | Throws e => (Throws e, [StopInterceptionProxy])
    | Returns _ =>
        match osProxy_closeProxy c with
        | Throws e => (Throws e, [StopInterceptionProxy; ClearSystemProxy])
        | Returns _ =>
            match browser r with
            | Some b =>
                match browser_close c b with
                | Throws e =>
                    (Throws e,
                     [StopInterceptionProxy; ClearSystemProxy; CloseBrowser b])
                | Returns _ => (Returns tt, full_teardown r)
                end
            | None => (Returns tt, full_teardown r)
            end
        end
    end.
Proof.
  unfold cleanup, await, call, full_teardown; simpl.
  destruct (MitmproxyManager_close c); [|reflexivity].
  destruct (osProxy_closeProxy c); [|reflexivity].
  destruct (browser r) as [b|]; simpl.
  - destruct (browser_close c b); [|reflexivity].
    now rewrite close_servers_all.
  - now rewrite close_servers_all.
Qed.

(** C7 as stated fails: when clearing the system proxy fails, [cleanup]
    stops there; the browser and the file server of the registry are never
    closed and the failure reaches the caller. *)
Lemma cleanup_aborts_on_failed_step :
  cleanup proxy_clear_fails example_registry [] =
    (Throws (IOError (js "EPERM")), [StopInterceptionProxy; ClearSystemProxy])
  /\ snd (cleanup proxy_clear_fails example_registry []) <> full_teardown example_registry
  /\ ~ In (CloseFileServer {| server_id := 0; server_root := js "/srv/www" |})
          (snd (cleanup proxy_clear_fails example_registry [])).
Proof.
  rewrite cleanup_cases. simpl.
  split; [reflexivity|]. split.
  - discriminate.
  - intros [H|[H|[]]]; discriminate.
Qed.

(** C7, amended.  [cleanup] makes its teardown calls in the fixed order
    (stop the interception proxy, clear the system proxy, close the browser
    if there is one, close every registered file server in registration
    order): the calls made are always a prefix of that sequence.  What a
    file server reports when it is closed never keeps the later servers from
    being closed.  A failure of one of the first three calls ends [cleanup]
    with that failure, the calls after it not being made: when stopping the
    interception proxy fails it is the only call made, when clearing the
    system proxy fails the browser and the file servers are not closed,
    when closing the browser fails no file server is closed, and in each
    case the failure is what [cleanup] throws.  Without such a failure the
    whole sequence is run and [cleanup] completes. *)
Theorem cleanup_ordered_until_first_failure (c : Collaborators) (r : Resource) :
  let result := fst (cleanup c r []) in
  let made := snd (cleanup c r []) in
  (exists rest, full_teardown r = made ++ rest)
  /\ ((forall e, MitmproxyManager_close c <> Throws e)
      /\ (forall e, osProxy_closeProxy c <> Throws e)
      /\ (forall b e, browser r = Some b -> browser_close c b <> Throws e)
      -> result = Returns tt /\ made = full_teardown r)
  /\ (forall e, result = Throws e ->
      match last made StopInterceptionProxy with
      | StopInterceptionProxy => MitmproxyManager_close c = Throws e
      | ClearSystemProxy => osProxy_closeProxy c = Throws e
      | CloseBrowser b => browser r = Some b /\ browser_close c b = Throws e
      | CloseFileServer _ => False
      end)
  /\ (forall e,
        MitmproxyManager_close c = Throws e ->
        result = Throws e /\ made = [StopInterceptionProxy])
  /\ (forall u e,
        MitmproxyManager_close c = Returns u ->
        osProxy_closeProxy c = Throws e ->
        result = Throws e /\ made = [StopInterceptionProxy; ClearSystemProxy])
  /\ (forall u v b e,
        MitmproxyManager_close c = Returns u ->
        osProxy_closeProxy c = Returns v ->
        browser r = Some b ->
        browser_close c b = Throws e ->
        result = Throws e
        /\ made = [StopInterceptionProxy; ClearSystemProxy; CloseBrowser b]).
Proof.
  cbv zeta.
  assert (Hstop : (forall e,
                     MitmproxyManager_close c = Throws e ->
                     fst (cleanup c r []) = Throws e
                     /\ snd (cleanup c r []) = [StopInterceptionProxy])
                  /\ (forall u e,
                        MitmproxyManager_close c = Returns u ->
                        osProxy_closeProxy c = Throws e ->
                        fst (cleanup c r []) = Throws e
                        /\ snd (cleanup c r [])
                           = [StopInterceptionProxy; ClearSystemProxy])
                  /\ (forall u v b e,
                        MitmproxyManager_close c = Returns u ->
                        osProxy_closeProxy c = Returns v ->
                        browser r = Some b ->
                        browser_close c b = Throws e ->
                        fst (cleanup c r []) = Throws e
                        /\ snd (cleanup c r [])
                           = [StopInterceptionProxy; ClearSystemProxy;
                              CloseBrowser b])).
  { rewrite cleanup_cases. split; [|split].
    - intros e H. rewrite H. now split.
    - intros u e H1 H2. rewrite H1, H2. now split.
    - intros u v b e H1 H2 H3 H4. rewrite H1, H2, H3, H4. now split. }
  cut ((exists rest, full_teardown r = snd (cleanup c r []) ++ rest)
       /\ ((forall e, MitmproxyManager_close c <> Throws e)
           /\ (forall e, osProxy_closeProxy c <> Throws e)
           /\ (forall b e, browser r = Some b -> browser_close c b <> Throws e)
           -> fst (cleanup c r []) = Returns tt
              /\ snd (cleanup c r []) = full_teardown r)
       /\ (forall e, fst (cleanup c r []) = Throws e ->
           match last (snd (cleanup c r [])) StopInterceptionProxy with
           | StopInterceptionProxy => MitmproxyManager_close c = Throws e
           | ClearSystemProxy => osProxy_closeProxy c = Throws e
           | CloseBrowser b => browser r = Some b /\ browser_close c b = Throws e
           | CloseFileServer _ => False
           end)).
  { intros (A & B & C). destruct Hstop as (D & E & F).
    exact (conj A (conj B (conj C (conj D (conj E F))))). }
  clear Hstop.
  rewrite cleanup_cases. unfold full_teardown.
  destruct (MitmproxyManager_close c) as [[]|e1] eqn:E1.
  2:{ simpl. split; [eexists; reflexivity|]. split.
      - intros [H _]. now destruct (H e1).
      - intros e He. congruence. }
  destruct (osProxy_closeProxy c) as [[]|e2] eqn:E2.
  2:{ simpl. split; [eexists; reflexivity|]. split.
      - intros [_ [H _]]. now destruct (H e2).
      - intros e He. congruence. }
  destruct (browser r) as [b|] eqn:Eb.
  - destruct (browser_close c b) as [[]|e3] eqn:E3; simpl.
    + split; [exists []; now rewrite app_nil_r|]. split.
      * intros _. split; reflexivity.
      * discriminate.
    + split; [eexists; reflexivity|]. split.
      * intros [_ [_ H]]. now destruct (H b e3).
      * intros e He. split; congruence.
  - simpl. split; [exists []; now rewrite app_nil_r|]. split.
    + intros _. split; reflexivity.
    + discriminate.
Qed.

Lemma cleanup_ordered_until_first_failure_witness :
  ((forall e, MitmproxyManager_close only_server_complains <> Throws e)
   /\ (forall e, osProxy_closeProxy only_server_complains <> Throws e)
   /\ (forall b e, browser example_registry = Some b ->
                   browser_close only_server_complains b <> Throws e))
  /\ fst (cleanup only_server_complains example_registry []) = Returns tt
  /\ snd (cleanup only_server_complains example_registry [])
     = full_teardown example_registry.
Proof.
  assert (H : (forall e, MitmproxyManager_close only_server_complains <> Throws e)
              /\ (forall e, osProxy_closeProxy only_server_complains <> Throws e)
              /\ (forall b e, browser example_registry = Some b ->
                              browser_close only_server_complains b <> Throws e)).
  { repeat split; intros; discriminate. }
  split; [exact H|].
  exact (proj1 (proj2 (cleanup_ordered_until_first_failure
                         only_server_complains example_registry)) H).
Defined.

End LifecycleFacts.

(** ** Sorting *)

Section ArraySortFacts.
Variable A : Type.
Variable comparefn : A -> A -> Z.

Let before (x y : A) : Prop := (comparefn x y <= 0)%Z.

Hypothesis before_trans : forall x y z, before x y -> before y z -> before x z.
Hypothesis before_total : forall x y, ~ before x y -> before y x.

Lemma insert_sorted_perm (x : A) (l : list A) :
  Permutation (insert_sorted comparefn x l) (x :: l).
Proof.
  induction l as [|y l IH]; simpl; [reflexivity|].
  destruct (comparefn x y <=? 0)%Z; [reflexivity|].
  rewrite IH. apply perm_swap.
Qed.

Lemma Array_sort_perm (l : list A) : Permutation (Array_sort comparefn l) l.
Proof.
  induction l as [|x l IH]; simpl; [reflexivity|].
  rewrite insert_sorted_perm. now constructor.
Qed.

Lemma insert_sorted_sorted (x : A) (l : list A) :
  StronglySorted before l -> StronglySorted before (insert_sorted comparefn x l).
Proof.
  induction l as [|y l IH]; intros Hs; simpl.
  - repeat constructor.
  - inversion Hs as [|? ? Hs' Hall]; subst.
    destruct (Z.leb_spec (comparefn x y) 0) as [Hle|Hgt].
    + constructor; [assumption|].
      constructor; [exact Hle|].
      rewrite Forall_forall in *. intros z Hz.
      apply before_trans with y; [exact Hle | now apply Hall].
    + constructor; [now apply IH|].
      rewrite Forall_forall in *. intros z Hz.
      apply (Permutation_in _ (insert_sorted_perm x l)) in Hz.
      destruct Hz as [<-|Hz]; [|now apply Hall].
      apply before_total. unfold before. lia.
Qed.

Lemma Array_sort_sorted (l : list A) : StronglySorted before (Array_sort comparefn l).
Proof.
  induction l as [|x l IH]; simpl; [constructor|].
  now apply insert_sorted_sorted.
Qed.

(** Stability: the members of a class of elements that compare as equal
    keep the order they had. *)
Section Stable.
Variable same : A -> bool.
Hypothesis same_before : forall x y, same x = true -> same y = true -> before x y.

Lemma insert_sorted_filter (x : A) (l : list A) :
  filter same (insert_sorted comparefn x l) = filter same (x :: l).
Proof.
  induction l as [|y l IH]; simpl; [reflexivity|].
  destruct (Z.leb_spec (comparefn x y) 0) as [Hle|Hgt]; [reflexivity|].
  simpl in *. rewrite IH.
  destruct (same x) eqn:Ex, (same y) eqn:Ey; try reflexivity.
  exfalso. pose proof (same_before Ex Ey) as H. unfold before in H. lia.
Qed.

Lemma Array_sort_stable (l : list A) :
  filter same (Array_sort comparefn l) = filter same l.
Proof.
  induction l as [|x l IH]; simpl; [reflexivity|].
  rewrite insert_sorted_filter. simpl. now rewrite IH.
Qed.
End Stable.
End ArraySortFacts.

(** ** Extraction *)

Module ExtractionFacts.
Import Extraction.

Section WithRuntime.
Context {RT : Runtime}.

(** *** The cookie pattern *)

Lemma lazy_until_semicolon_eq (c : code_unit) (rest : jsstring) :
  lazy_until_semicolon (c :: rest) =
    if line_terminator c then None
    else match rest with
         | d :: _ =>
             if (d =? SEMICOLON)%N then Some [c]
             else option_map (cons c) (lazy_until_semicolon rest)
         | [] => None
         end.
Proof. reflexivity. Qed.

Lemma lazy_until_semicolon_sound (s capture : jsstring) :
  lazy_until_semicolon s = Some capture ->
  capture <> []
  /\ Forall (fun c => line_terminator c = false) capture
  /\ exists after, s = capture ++ SEMICOLON :: after.
Proof.
  revert capture. induction s as [|c rest IH]; intros capture; [discriminate|].
  rewrite lazy_until_semicolon_eq.
  destruct (line_terminator c) eqn:Ec; [discriminate|].
  destruct rest as [|d rest']; [discriminate|].
  destruct (N.eqb_spec d SEMICOLON) as [->|Hd].
  - intros [= <-]. repeat split.
    + discriminate.
    + now repeat constructor.
    + now exists rest'.
  - destruct (lazy_until_semicolon (d :: rest')) as [capture'|]; [|discriminate].
    intros [= <-].
    destruct (IH capture' eq_refl) as (_ & Hall & after & Heq).
    repeat split.
    + discriminate.
    + now constructor.
    + exists after. simpl. now rewrite Heq.
Qed.

Lemma lazy_until_semicolon_complete (value after : jsstring) :
  value <> [] ->
  Forall (fun c => line_terminator c = false) value ->
  exists capture, lazy_until_semicolon (value ++ SEMICOLON :: after) = Some capture.
Proof.
  induction value as [|c value IH]; intros Hne Hall; [congruence|].
  inversion Hall as [|? ? Hc Hall']; subst.
  change ((c :: value) ++ SEMICOLON :: after)
    with (c :: (value ++ SEMICOLON :: after)).
  rewrite lazy_until_semicolon_eq, Hc.
  destruct value as [|d value'].
  - eexists. reflexivity.
  - change ((d :: value') ++ SEMICOLON :: after)
      with (d :: (value' ++ SEMICOLON :: after)) in *.
    cbv beta iota.
    destruct (d =? SEMICOLON)%N; [eauto|].
    destruct IH as [capture Hcap]; [discriminate | assumption |].
    rewrite Hcap. simpl. eauto.
Qed.

Lemma match_wap_sid2_eq (s : jsstring) :
  match_wap_sid2 s =
    match match strip_prefix (js "wap_sid2=") s with
          | Some after => lazy_until_semicolon after
          | None => None
          end with
    | Some capture => Some capture
    | None =>
        match s with
        | [] => None
        | _ :: rest => match_wap_sid2 rest
        end
    end.
Proof. destruct s; reflexivity. Qed.

Lemma match_wap_sid2_sound (s capture : jsstring) :
  match_wap_sid2 s = Some capture ->
  capture <> [] /\ cookie_token_present s.
Proof.
  induction s as [|c rest IH]; rewrite match_wap_sid2_eq.
  - simpl. discriminate.
  - destruct (strip_prefix (js "wap_sid2=") (c :: rest)) as [after|] eqn:Ep.
    + destruct (lazy_until_semicolon after) as [capture'|] eqn:El.
      * intros [= <-].
        apply strip_prefix_app in Ep.
        destruct (lazy_until_semicolon_sound _ El) as (Hne & Hall & post & Heq).
        split; [assumption|].
        exists [], capture', post. rewrite Ep, Heq. auto.
      * intros H. destruct (IH H) as (Hne & before & value & post & Heq & Hv).
        split; [assumption|].
        exists (c :: before), value, post. rewrite Heq. auto.
    + intros H. destruct (IH H) as (Hne & before & value & post & Heq & Hv).
      split; [assumption|].
      exists (c :: before), value, post. rewrite Heq. auto.
Qed.

Lemma match_wap_sid2_complete (s : jsstring) :
  cookie_token_present s -> exists capture, match_wap_sid2 s = Some capture.
Proof.
  intros (before & value & after & -> & Hne & Hall).
  induction before as [|c before IH]; rewrite match_wap_sid2_eq.
  - assert (Hp : strip_prefix (js "wap_sid2=")
                   ([] ++ js "wap_sid2=" ++ value ++ SEMICOLON :: after)
                 = Some (value ++ SEMICOLON :: after))
      by now apply strip_prefix_app.
    rewrite Hp.
    destruct (lazy_until_semicolon_complete after Hne Hall) as [capture Hc].
    rewrite Hc. eauto.
  - destruct (match strip_prefix _ _ with Some _ => _ | None => _ end); eauto.
Qed.

Lemma wap_sid2_found_iff (header : jsstring) :
  (exists c capture, match_wap_sid2 header = Some (c :: capture))
  <-> cookie_token_present header.
Proof.
  split.
  - intros (c & capture & H). now apply match_wap_sid2_sound in H.
  - intros H. destruct (match_wap_sid2_complete H) as [capture Hc].
    destruct (match_wap_sid2_sound _ Hc) as [Hne _].
    destruct capture as [|c capture]; [congruence|]. eauto.
Qed.

Lemma truthy_present (name : jsstring) (sp : list (jsstring * jsstring)) :
  truthy (searchParams_get name sp) = true <-> param_present name sp.
Proof.
  unfold param_present.
  destruct (searchParams_get name sp) as [[|c v]|]; simpl; split.
  - discriminate.
  - intros (v & [= <-] & H). congruence.
  - intros _. eexists. split; [reflexivity | discriminate].
  - reflexivity.
  - discriminate.
  - intros (v & H & _). discriminate.
Qed.

(** *** One iteration *)

(** What an iteration does for a session whose URL is accepted. *)
Lemma iteration_cases (now : Z) (item : Credential.t)
    (sp : list (jsstring * jsstring)) :
  URL_searchParams (Credential.url item) = Some sp ->
  (~ all_five_present item /\ iteration now item = Returns None)
  \/ (all_five_present item
      /\ ((URI.encodeURIComponent (Credential.round_head_img item) = None
           /\ iteration now item = Throws URIError)
          \/ (exists parsed,
                iteration now item = Returns (Some parsed)
                /\ ParsedCredential.valid parsed
                   = (now <? Credential.timestamp item + VALIDITY)%Z))).
Proof.
  intros Eurl. unfold iteration. rewrite Eurl.
  assert (Hparam : forall name,
             truthy (searchParams_get name sp) = false ->
             ~ param_present name sp).
  { intros name Hf Hp. apply truthy_present in Hp. congruence. }
  destruct (truthy (searchParams_get (js "__biz") sp)) eqn:T1; cbn [negb orb].
  2:{ left. split; [|reflexivity].
      intros H. pose proof H as (sp' & E & P1 & _).
      assert (sp' = sp) as -> by congruence. now apply (Hparam _ T1). }
  destruct (truthy (searchParams_get (js "uin") sp)) eqn:T2; cbn [negb orb].
  2:{ left. split; [|reflexivity].
      intros H. pose proof H as (sp' & E & _ & P2 & _).
      assert (sp' = sp) as -> by congruence. now apply (Hparam _ T2). }
  destruct (truthy (searchParams_get (js "key") sp)) eqn:T3; cbn [negb orb].
  2:{ left. split; [|reflexivity].
      intros H. pose proof H as (sp' & E & _ & _ & P3 & _).
      assert (sp' = sp) as -> by congruence. now apply (Hparam _ T3). }
  destruct (truthy (searchParams_get (js "pass_ticket") sp)) eqn:T4;
    cbn [negb orb].
  2:{ left. split; [|reflexivity].
      intros H. pose proof H as (sp' & E & _ & _ & _ & P4 & _).
      assert (sp' = sp) as -> by congruence. now apply (Hparam _ T4). }
  destruct (match_wap_sid2 (Credential.set_cookie item))
    as [[|c capture]|] eqn:W; cbn [truthy negb].
  - left. split; [|reflexivity].
    intros (_ & _ & _ & _ & _ & _ & Hc).
    apply wap_sid2_found_iff in Hc. destruct Hc as (c & capture & Hc). congruence.
  - right. split.
    + exists sp. split; [exact Eurl|].
      do 4 (split; [now apply truthy_present|]).
      apply wap_sid2_found_iff. eauto.
    + destruct (Credential.round_head_img item) as [|i img] eqn:Ei.
      * right. simpl. eexists. split; reflexivity.
      * destruct (URI.encodeURIComponent (i :: img)) as [e|] eqn:Ee.
        -- right. simpl. eexists. split; reflexivity.
        -- left. split; reflexivity.
  - left. split; [|reflexivity].
    intros (_ & _ & _ & _ & _ & _ & Hc).
    apply wap_sid2_found_iff in Hc. destruct Hc as (c & capture & Hc). congruence.
Qed.

Lemma iteration_rejected_url (now : Z) (item : Credential.t) :
  URL_searchParams (Credential.url item) = None ->
  iteration now item = Throws TypeError.
Proof. intros E. unfold iteration. now rewrite E. Qed.

(** Whether a session is pushed does not depend on the clock. *)
Lemma iteration_clock (now now' : Z) (item : Credential.t) :
  match iteration now item, iteration now' item with
  | Returns (Some _), Returns (Some _) => True
  | Returns None, Returns None => True
  | Throws e, Throws e' => e = e'
  | _, _ => False
  end.
Proof.
  unfold iteration.
  destruct (URL_searchParams (Credential.url item)); [|reflexivity].
  destruct (_ || _); [exact I|].
  destruct (Credential.round_head_img item); [exact I|].
  destruct (URI.encodeURIComponent _); [exact I | reflexivity].
Qed.

Lemma iteration_Some_yields (now : Z) (item : Credential.t)
    (parsed : ParsedCredential.t) :
  iteration now item = Returns (Some parsed) -> yields item = true.
Proof.
  intros H. unfold yields.
  pose proof (iteration_clock now 0 item) as C. rewrite H in C.
  now destruct (iteration 0 item) as [[p|]|e].
Qed.

Lemma iteration_None_yields (now : Z) (item : Credential.t) :
  iteration now item = Returns None -> yields item = false.
Proof.
  intros H. unfold yields.
  pose proof (iteration_clock now 0 item) as C. rewrite H in C.
  now destruct (iteration 0 item) as [[p|]|e].
Qed.

Lemma iteration_total (now : Z) (item : Credential.t) :
  URL_searchParams (Credential.url item) <> None ->
  URI.encodeURIComponent (Credential.round_head_img item) <> None ->
  exists r, iteration now item = Returns r.
Proof.
  intros Hu He.
  destruct (URL_searchParams (Credential.url item)) as [sp|] eqn:E; [|congruence].
  destruct (iteration_cases now item E) as [[_ H]|[_ [[H _]|(p & H & _)]]];
    [eauto | congruence | eauto].
Qed.

(** *** The loop *)

Lemma emitted_run_Forall2 (clock : nat -> Z) (kept : list Credential.t) :
  forall calls news,
    emitted_run clock calls kept news -> Forall2 (emitted_from clock) kept news.
Proof.
  induction kept as [|item kept IH]; intros calls [|parsed news] H;
    simpl in H; try contradiction.
  - constructor.
  - destruct H as [H1 H2]. constructor; [now exists calls | eauto].
Qed.

Lemma emitted_run_nth (clock : nat -> Z) (kept : list Credential.t) :
  forall calls news i parsed,
    emitted_run clock calls kept news ->
    nth_error news i = Some parsed ->
    exists item,
      nth_error kept i = Some item
      /\ iteration (clock (calls + i)%nat) item = Returns (Some parsed).
Proof.
  induction kept as [|item kept IH]; intros calls [|p news] i parsed H Hn;
    simpl in H; try contradiction.
  - destruct i; discriminate.
  - destruct H as [H1 H2]. destruct i as [|i]; simpl in Hn.
    + injection Hn as <-. exists item. now rewrite Nat.add_0_r.
    + destruct (IH _ _ _ _ H2 Hn) as (it & Hk & Hi).
      exists it. split; [assumption|].
      now replace (calls + S i)%nat with (S calls + i)%nat by lia.
Qed.

Lemma iteration_Returns_present (now : Z) (item : Credential.t)
    (r : option ParsedCredential.t) :
  iteration now item = Returns r ->
  (yields item = true <-> all_five_present item).
Proof.
  intros E.
  destruct (URL_searchParams (Credential.url item)) as [sp|] eqn:Eu.
  2:{ rewrite (iteration_rejected_url _ _ Eu) in E. discriminate. }
  destruct (iteration_cases now item Eu)
    as [[Hn H0]|[Hp [[_ H0]|(p & H0 & _)]]]; rewrite H0 in E.
  - rewrite (iteration_None_yields _ _ H0). split; [discriminate | tauto].
  - discriminate.
  - rewrite (iteration_Some_yields _ _ H0). tauto.
Qed.

(** A loop that returns pushed one credential for each session that
    yields one, in the order of the sessions, and met no other session
    with all five fields. *)
Lemma for_of_Returns (clock : nat -> Z) (items : list Credential.t) :
  forall calls result out,
    for_of clock calls items result = Returns out ->
    exists news,
      out = result ++ news
      /\ emitted_run clock calls (filter yields items) news
      /\ (forall item, In item items ->
            (yields item = true <-> all_five_present item)).
Proof.
  induction items as [|item rest IH]; intros calls result out H; simpl in H.
  - injection H as <-. exists []. rewrite app_nil_r.
    split; [reflexivity|]. split; [exact I | contradiction].
  - destruct (iteration (clock calls) item) as [[parsed|]|e] eqn:E;
      [| |discriminate].
    + destruct (IH _ _ _ H) as (news & -> & Hrun & Hall).
      exists (parsed :: news).
      simpl. rewrite (iteration_Some_yields _ _ E), <- app_assoc.
      split; [reflexivity|]. split; [now split|].
      intros it [<-|Hin]; [exact (iteration_Returns_present _ _ E) | now apply Hall].
    + destruct (IH _ _ _ H) as (news & -> & Hrun & Hall).
      exists news.
      simpl. rewrite (iteration_None_yields _ _ E).
      split; [reflexivity|]. split; [assumption|].
      intros it [<-|Hin]; [exact (iteration_Returns_present _ _ E) | now apply Hall].
Qed.

Lemma for_of_total (clock : nat -> Z) (items : list Credential.t) :
  all_readable items ->
  forall calls result, exists out, for_of clock calls items result = Returns out.
Proof.
  induction items as [|item rest IH]; intros Hr calls result; simpl; [eauto|].
  destruct (Hr item (or_introl eq_refl)) as [Hu He].
  destruct (iteration_total (clock calls) item Hu He) as [[parsed|] ->];
    apply IH; intros it Hin; apply Hr; now right.
Qed.

Lemma for_of_Throws (clock : nat -> Z) (items : list Credential.t) :
  (exists item, In item items /\ URL_searchParams (Credential.url item) = None) ->
  forall calls result, exists e, for_of clock calls items result = Throws e.
Proof.
  induction items as [|item rest IH]; intros (bad & Hin & Hbad) calls result.
  - contradiction.
  - simpl. destruct (iteration (clock calls) item) as [[parsed|]|e] eqn:E.
    + destruct Hin as [->|Hin].
      * rewrite (iteration_rejected_url _ _ Hbad) in E. discriminate.
      * apply IH. eauto.
    + destruct Hin as [->|Hin].
      * rewrite (iteration_rejected_url _ _ Hbad) in E. discriminate.
      * apply IH. eauto.
    + eauto.
Qed.

(** *** Lists *)

Lemma filter_split_perm (A : Type) (f : A -> bool) (l : list A) :
  Permutation l (filter f l ++ filter (fun x => negb (f x)) l).
Proof.
  induction l as [|x l IH]; simpl; [constructor|].
  destruct (f x); simpl.
  - now constructor.
  - now apply Permutation_cons_app.
Qed.

Lemma filter_swap (A : Type) (f g : A -> bool) (l : list A) :
  filter f (filter g l) = filter g (filter f l).
Proof.
  induction l as [|x l IH]; simpl; [reflexivity|].
  destruct (f x) eqn:Ef, (g x) eqn:Eg; simpl; rewrite ?Ef, ?Eg, IH; reflexivity.
Qed.

Lemma StronglySorted_filter (A : Type) (R : A -> A -> Prop) (f : A -> bool)
    (l : list A) :
  StronglySorted R l -> StronglySorted R (filter f l).
Proof.
  induction 1 as [|x l Hs IH Hall]; simpl; [constructor|].
  destruct (f x); [|assumption].
  constructor; [assumption|].
  rewrite Forall_forall in *. intros y Hy.
  apply filter_In in Hy. now apply Hall.
Qed.

Lemma StronglySorted_weaken (A : Type) (R R' : A -> A -> Prop) (l : list A) :
  (forall x y, R x y -> R' x y) -> StronglySorted R l -> StronglySorted R' l.
Proof.
  intros HR. induction 1 as [|x l Hs IH Hall]; constructor; [assumption|].
  rewrite Forall_forall in *. auto.
Qed.

Lemma Forall_filter_iff (A : Type) (P : A -> Prop) (f : A -> bool) (l : list A) :
  (forall x, In x l -> (f x = true <-> P x)) ->
  Forall P (filter f l) /\ Forall (fun x => ~ P x) (filter (fun x => negb (f x)) l).
Proof.
  intros H. split; apply Forall_forall; intros x Hx; apply filter_In in Hx;
    destruct Hx as [Hin Hf].
  - now apply H.
  - intros HP. apply H in HP; [|assumption]. rewrite HP in Hf. discriminate.
Qed.

(** *** [parseCredentialData] *)

Lemma sorted_by_timestamp (list : list Credential.t) :
  StronglySorted not_older (Array_sort by_timestamp_desc list).
Proof.
  apply StronglySorted_weaken
    with (R := fun x y => (by_timestamp_desc x y <= 0)%Z).
  - unfold by_timestamp_desc, not_older. intros; lia.
  - apply Array_sort_sorted; unfold by_timestamp_desc; intros; lia.
Qed.

Lemma sort_keeps_capture_order (t : Z) (list : list Credential.t) :
  filter (captured_at t) (Array_sort by_timestamp_desc list)
  = filter (captured_at t) list.
Proof.
  apply Array_sort_stable.
  unfold captured_at, by_timestamp_desc. intros x y Hx Hy.
  apply Z.eqb_eq in Hx, Hy. lia.
Qed.

Lemma parseCredentialData_typed (clock : nat -> Z) (data : jsstring)
    (items : list json) (list : list Credential.t) :
  JSON_parse data = Some (JArr items) ->
  as_Credentials items = Some list ->
  parseCredentialData clock data
  = WellTyped (for_of clock 0 (Array_sort by_timestamp_desc list) []).
Proof.
  intros Hp Ht. unfold parseCredentialData. now rewrite Hp, Ht.
Qed.

Lemma parseCredentialData_total (clock : nat -> Z) (data : jsstring)
    (items : list json) (list : list Credential.t) :
  JSON_parse data = Some (JArr items) ->
  as_Credentials items = Some list ->
  all_readable list ->
  exists out, parseCredentialData clock data = WellTyped (Returns out).
Proof.
  intros Hp Ht Hr. rewrite (parseCredentialData_typed clock _ Hp Ht).
  destruct (@for_of_total clock (Array_sort by_timestamp_desc list)) with
    (calls := 0%nat) (result := @nil ParsedCredential.t) as [out Hout].
  - intros item Hin. apply Hr.
    eapply Permutation_in; [apply Array_sort_perm | exact Hin].
  - exists out. now rewrite Hout.
Qed.

(** C8.  When [JSON.parse] rejects the input, [parseCredentialData]
    returns the empty list; nothing is thrown. *)
Theorem malformed_json_yields_empty (clock : nat -> Z) (data : jsstring) :
  JSON_parse data = None ->
  parseCredentialData clock data = WellTyped (Returns []).
Proof.
  intros H. unfold parseCredentialData. now rewrite H.
Qed.

(** C2 (the code departs from the claim).  When the input parses as a list
    of sessions and the URL constructor rejects the [url] of one of them,
    [parseCredentialData] does not return a list: the exception leaves the
    function. *)
Theorem unparseable_url_throws (clock : nat -> Z) (data : jsstring)
    (items : list json) (list : list Credential.t) :
  JSON_parse data = Some (JArr items) ->
  as_Credentials items = Some list ->
  (exists item, In item list /\ URL_searchParams (Credential.url item) = None) ->
  exists e, parseCredentialData clock data = WellTyped (Throws e).
Proof.
  intros Hp Ht (bad & Hin & Hbad).
  rewrite (parseCredentialData_typed clock _ Hp Ht).
  destruct (@for_of_Throws clock (Array_sort by_timestamp_desc list)) with
    (calls := 0%nat) (result := @nil ParsedCredential.t) as [e He].
  - exists bad. split; [|assumption].
    eapply Permutation_in; [symmetry; apply Array_sort_perm | exact Hin].
  - exists e. now rewrite He.
Qed.

(** C3.  For an input that parses as a list of sessions: the call returns
    whenever every session has a URL the constructor accepts (and an
    avatar address that can be encoded); and whenever it returns, the
    sessions split into those with all five fields ([__biz], [uin], [key],
    [pass_ticket] present with a value, a [wap_sid2=...;] token in the
    cookie header) and the others, the output holds one credential for
    each of the former and nothing for the latter, so its length is the
    number of sessions with all five fields. *)
Theorem incomplete_sessions_are_dropped (clock : nat -> Z) (data : jsstring)
    (items : list json) (list : list Credential.t) :
  JSON_parse data = Some (JArr items) ->
  as_Credentials items = Some list ->
  (all_readable list ->
   exists out, parseCredentialData clock data = WellTyped (Returns out))
  /\ (forall out,
        parseCredentialData clock data = WellTyped (Returns out) ->
        exists kept dropped,
          Permutation list (kept ++ dropped)
          /\ Forall all_five_present kept
          /\ Forall (fun item => ~ all_five_present item) dropped
          /\ Forall2 (emitted_from clock) kept out
          /\ length out = length kept).
Proof.
  intros Hp Ht. split; [now apply parseCredentialData_total with items|].
  intros out Hout.
  rewrite (parseCredentialData_typed clock _ Hp Ht) in Hout.
  injection Hout as Hout.
  destruct (for_of_Returns _ _ _ _ Hout) as (news & -> & Hrun & Hall).
  set (sorted := Array_sort by_timestamp_desc list) in *.
  exists (filter yields sorted), (filter (fun x => negb (yields x)) sorted).
  destruct (Forall_filter_iff all_five_present yields sorted Hall) as [Hk Hd].
  pose proof (emitted_run_Forall2 _ _ _ _ Hrun) as HF.
  split.
  { rewrite <- filter_split_perm. symmetry. apply Array_sort_perm. }
  repeat (split; [assumption|]).
  simpl. symmetry. exact (Forall2_length HF).
Qed.

(** C4.  Whenever [parseCredentialData] returns, the credential at
    position [i] of the output comes from a session of the input, captured
    at [T] say, and was judged at the [i]-th reading of the clock: its
    [valid] flag is true exactly when that reading is earlier than [T]
    plus 25 minutes; so it is true on [[T, T + 25min)] and false from
    [T + 25min] on. *)
Theorem valid_within_25_minutes (clock : nat -> Z) (data : jsstring)
    (items : list json) (out : list ParsedCredential.t)
    (list : list Credential.t) :
  JSON_parse data = Some (JArr items) ->
  as_Credentials items = Some list ->
  parseCredentialData clock data = WellTyped (Returns out) ->
  forall i parsed,
    nth_error out i = Some parsed ->
    exists item,
      In item list
      /\ iteration (clock i) item = Returns (Some parsed)
      /\ (ParsedCredential.valid parsed = true
          <-> (clock i < Credential.timestamp item + 25 * 60 * 1000)%Z)
      /\ ((Credential.timestamp item <= clock i
              < Credential.timestamp item + 25 * 60 * 1000)%Z ->
          ParsedCredential.valid parsed = true)
      /\ ((Credential.timestamp item + 25 * 60 * 1000 <= clock i)%Z ->
          ParsedCredential.valid parsed = false).
Proof.
  intros Hp Ht Hout i parsed Hi.
  rewrite (parseCredentialData_typed clock _ Hp Ht) in Hout.
  injection Hout as Hout.
  destruct (for_of_Returns _ _ _ _ Hout) as (news & -> & Hrun & _).
  simpl in Hi.
  destruct (emitted_run_nth _ _ _ _ _ Hrun Hi) as (item & Hk & Hit).
  simpl in Hit.
  exists item.
  assert (Hin : In item list).
  { apply nth_error_In in Hk. apply filter_In in Hk.
    eapply Permutation_in; [apply Array_sort_perm | apply Hk]. }
  assert (Hv : ParsedCredential.valid parsed
               = (clock i <? Credential.timestamp item + 25 * 60 * 1000)%Z).
  { destruct (URL_searchParams (Credential.url item)) as [sp|] eqn:Eu.
    - destruct (iteration_cases (clock i) item Eu)
        as [[_ H0]|[_ [[_ H0]|(p & H0 & Hv)]]]; try congruence.
      assert (p = parsed) as -> by congruence. exact Hv.
    - rewrite (iteration_rejected_url _ _ Eu) in Hit. discriminate. }
  repeat split; try assumption.
  - rewrite Hv. apply Z.ltb_lt.
  - rewrite Hv. apply Z.ltb_lt.
  - intros [_ H]. rewrite Hv. now apply Z.ltb_lt.
  - intros H. rewrite Hv. apply Z.ltb_ge. exact H.
Qed.

(** C5.  For an input that parses as a list of sessions: the call returns
    whenever every session is readable; and whenever it returns, the
    output lists the credentials of the sessions that yield one from the
    most recent capture to the oldest, sessions captured at the same time
    keeping the order they have in the input. *)
Theorem output_most_recent_first (clock : nat -> Z) (data : jsstring)
    (items : list json) (list : list Credential.t) :
  JSON_parse data = Some (JArr items) ->
  as_Credentials items = Some list ->
  (all_readable list ->
   exists out, parseCredentialData clock data = WellTyped (Returns out))
  /\ (forall out,
        parseCredentialData clock data = WellTyped (Returns out) ->
        exists kept,
          Forall2 (emitted_from clock) kept out
          /\ StronglySorted not_older kept
          /\ forall t,
               filter (captured_at t) kept
               = filter (captured_at t) (filter yields list)).
Proof.
  intros Hp Ht. split; [now apply parseCredentialData_total with items|].
  intros out Hout.
  rewrite (parseCredentialData_typed clock _ Hp Ht) in Hout.
  injection Hout as Hout.
  destruct (for_of_Returns _ _ _ _ Hout) as (news & -> & Hrun & _).
  exists (filter yields (Array_sort by_timestamp_desc list)).
  split; [exact (emitted_run_Forall2 _ _ _ _ Hrun)|].
  split; [apply StronglySorted_filter, sorted_by_timestamp|].
  intros t.
  now rewrite filter_swap, sort_keeps_capture_order, filter_swap.
Qed.

End WithRuntime.

(** *** The theorems at the example inputs *)

Lemma malformed_json_yields_empty_witness :
  JSON_parse (Runtime := ExampleRuntime.runtime) (js "not json") = None
  /\ parseCredentialData (RT := ExampleRuntime.runtime) Examples.clock (js "not json")
     = WellTyped (Returns []).
Proof.
  assert (H : JSON_parse (Runtime := ExampleRuntime.runtime) (js "not json") = None)
    by (vm_compute; reflexivity).
  split; [exact H|].
  exact (@malformed_json_yields_empty ExampleRuntime.runtime Examples.clock _ H).
Defined.

Lemma example_store_parses :
  JSON_parse (Runtime := ExampleRuntime.runtime) Examples.store_text
  = Some (JArr Examples.sessions).
Proof. vm_compute. reflexivity. Qed.

Lemma example_store_typed :
  as_Credentials Examples.sessions = Some Examples.credentials.
Proof. vm_compute. reflexivity. Qed.

Lemma example_store_extracted :
  parseCredentialData (RT := ExampleRuntime.runtime) Examples.clock Examples.store_text
  = WellTyped (Returns Examples.extracted).
Proof. vm_compute. reflexivity. Qed.

Lemma example_store_drops_one :
  length Examples.credentials = 3%nat /\ length Examples.extracted = 2%nat
  /\ map ParsedCredential.biz Examples.extracted = [js "MzA5"; js "MzA5"]
  /\ map ParsedCredential.valid Examples.extracted = [true; true].
Proof. vm_compute. repeat split; reflexivity. Qed.

Lemma unparseable_url_throws_witness :
  JSON_parse (Runtime := ExampleRuntime.runtime) Examples.bad_url_text
  = Some (JArr Examples.bad_url_sessions)
  /\ as_Credentials Examples.bad_url_sessions = Some Examples.bad_url_credentials
  /\ (exists item,
        In item Examples.bad_url_credentials
        /\ URL_searchParams (Runtime := ExampleRuntime.runtime) (Credential.url item)
           = None)
  /\ exists e,
       parseCredentialData (RT := ExampleRuntime.runtime) Examples.clock
         Examples.bad_url_text = WellTyped (Throws e).
Proof.
  assert (H1 : JSON_parse (Runtime := ExampleRuntime.runtime) Examples.bad_url_text
               = Some (JArr Examples.bad_url_sessions)) by (vm_compute; reflexivity).
  assert (H2 : as_Credentials Examples.bad_url_sessions
               = Some Examples.bad_url_credentials) by (vm_compute; reflexivity).
  assert (H3 : exists item,
             In item Examples.bad_url_credentials
             /\ URL_searchParams (Runtime := ExampleRuntime.runtime)
                  (Credential.url item) = None).
  { eexists. split; [left; reflexivity | vm_compute; reflexivity]. }
  repeat (split; [assumption|]).
  exact (@unparseable_url_throws ExampleRuntime.runtime Examples.clock _ _ _ H1 H2 H3).
Defined.

Lemma incomplete_sessions_are_dropped_witness :
  JSON_parse (Runtime := ExampleRuntime.runtime) Examples.store_text
  = Some (JArr Examples.sessions)
  /\ as_Credentials Examples.sessions = Some Examples.credentials
  /\ exists kept dropped,
       Permutation Examples.credentials (kept ++ dropped)
       /\ Forall (all_five_present (RT := ExampleRuntime.runtime)) kept
       /\ Forall (fun item => ~ all_five_present (RT := ExampleRuntime.runtime) item)
                 dropped
       /\ Forall2 (emitted_from (RT := ExampleRuntime.runtime) Examples.clock)
                  kept Examples.extracted
       /\ length Examples.extracted = length kept.
Proof.
  split; [exact example_store_parses|].
  split; [exact example_store_typed|].
  exact (proj2 (@incomplete_sessions_are_dropped ExampleRuntime.runtime
                  Examples.clock _ _ _ example_store_parses example_store_typed)
               _ example_store_extracted).
Defined.

Lemma valid_within_25_minutes_witness :
  JSON_parse (Runtime := ExampleRuntime.runtime) Examples.store_text
  = Some (JArr Examples.sessions)
  /\ as_Credentials Examples.sessions = Some Examples.credentials
  /\ parseCredentialData (RT := ExampleRuntime.runtime) Examples.clock
       Examples.store_text = WellTyped (Returns Examples.extracted)
  /\ exists parsed,
       nth_error Examples.extracted 1 = Some parsed
       /\ exists item,
            In item Examples.credentials
            /\ (ParsedCredential.valid parsed = true
                <-> (Examples.clock 1%nat
                     < Credential.timestamp item + 25 * 60 * 1000)%Z).
Proof.
  split; [exact example_store_parses|].
  split; [exact example_store_typed|].
  split; [exact example_store_extracted|].
  eexists. split; [vm_compute; reflexivity|].
  destruct (@valid_within_25_minutes ExampleRuntime.runtime Examples.clock _ _ _ _
              example_store_parses example_store_typed example_store_extracted
              1%nat _ eq_refl) as (item & Hin & _ & Hv & _).
  exists item. split; assumption.
Defined.

Lemma output_most_recent_first_witness :
  JSON_parse (Runtime := ExampleRuntime.runtime) Examples.store_text
  = Some (JArr Examples.sessions)
  /\ as_Credentials Examples.sessions = Some Examples.credentials
  /\ exists kept,
       Forall2 (emitted_from (RT := ExampleRuntime.runtime) Examples.clock)
               kept Examples.extracted
       /\ StronglySorted not_older kept
       /\ forall t,
            filter (captured_at t) kept
            = filter (captured_at t)
                (filter (yields (RT := ExampleRuntime.runtime)) Examples.credentials).
Proof.
  split; [exact example_store_parses|].
  split; [exact example_store_typed|].
  exact (proj2 (@output_most_recent_first ExampleRuntime.runtime
                  Examples.clock _ _ _ example_store_parses example_store_typed)
               _ example_store_extracted).
Defined.

End ExtractionFacts.

(** ** The credential store *)

Module StoreFacts.
Import Store.

Section WithRuntime.
Context {RT : Runtime}.

Lemma biz_differs_has_biz (biz : jsstring) (item : json) :
  item <> JNull -> biz_differs biz item = Returns (negb (has_biz biz item)).
Proof.
  intros Hn. destruct item as [| | | | |members]; try reflexivity; [congruence|].
  simpl. destruct (member (js "biz") members) as [[| | |b| |]|]; reflexivity.
Qed.

(** On entries none of which is [null] the filter is the list filter. *)
Lemma Array_filter_without_biz (biz : jsstring) (items : list json) :
  Forall (fun item => item <> JNull) items ->
  Array_filter (biz_differs biz) items = Returns (without_biz biz items).
Proof.
  induction 1 as [|item items Hn Hall IH]; simpl; [reflexivity|].
  rewrite (biz_differs_has_biz biz Hn), IH. simpl.
  now destruct (has_biz biz item).
Qed.

(** A [null] entry makes the filter throw. *)
Lemma Array_filter_null (biz : jsstring) (items : list json) :
  In JNull items -> exists e, Array_filter (biz_differs biz) items = Throws e.
Proof.
  induction items as [|item items IH]; intros Hin; [contradiction|].
  simpl. destruct (biz_differs biz item) as [keep|e] eqn:E; simpl; [|eauto].
  destruct Hin as [->|Hin]; [discriminate|].
  destruct (IH Hin) as [e ->]. simpl. eauto.
Qed.

Lemma without_biz_absent (biz : jsstring) (items : list json) :
  (forall item, In item items -> has_biz biz item = false) ->
  without_biz biz items = items.
Proof.
  induction items as [|item items IH]; intros H; simpl; [reflexivity|].
  rewrite (H item (or_introl eq_refl)). simpl.
  rewrite IH; [reflexivity|]. intros it Hin. apply H. now right.
Qed.

Lemma without_biz_spec (biz : jsstring) (items : list json) (item : json) :
  In item (without_biz biz items) <-> In item items /\ has_biz biz item = false.
Proof.
  unfold without_biz. rewrite filter_In.
  now destruct (has_biz biz item).
Qed.

Lemma writes_of_app (l l' : list file_op) :
  writes_of (l ++ l') = writes_of l ++ writes_of l'.
Proof. unfold writes_of. apply flat_map_app. Qed.

(** The run of [removeBizCredential], case by case. *)
Lemma removeBizCredential_cases (biz : jsstring) (f : StoreFile) :
  removeBizCredential biz f =
    let read := {| stored := stored f; accepts := accepts f;
                   ops := ops f ++ [ReadStore] |} in
    match stored f with
    | Throws _ => (Returns false, read)
    | Returns data =>
        match JSON_parse data with
        | None => (Returns false, read)
        | Some parsed =>
            match filter_list biz parsed with
            | Throws _ => (Returns false, read)
            | Returns kept =>
                let content := JSON_stringify (JArr kept) in
                match accepts f content with
                | Throws _ =>
                    (Returns false,
                     {| stored := stored f; accepts := accepts f;
                        ops := (ops f ++ [ReadStore]) ++ [WriteStore content] |})
                | Returns _ =>
                    (Returns true,
                     {| stored := Returns content; accepts := accepts f;
                        ops := (ops f ++ [ReadStore]) ++ [WriteStore content] |})
                end
            end
        end
    end.
Proof.
  unfold removeBizCredential, try_catch, await, readFileContent,
    writeFileContent, lift, ret.
  destruct (stored f) as [data|e] eqn:Es; simpl; [|reflexivity].
  destruct (JSON_parse data) as [parsed|]; simpl; [|reflexivity].
  destruct (filter_list biz parsed) as [kept|e]; simpl; [|reflexivity].
  destruct (accepts f (JSON_stringify (JArr kept))); reflexivity.
Qed.

(** The promise of [removeBizCredential] is never rejected. *)
Lemma removeBizCredential_never_throws (biz : jsstring) (f : StoreFile) :
  exists b, fst (removeBizCredential biz f) = Returns b.
Proof.
  rewrite removeBizCredential_cases. cbv zeta.
  destruct (stored f) as [data|e]; [|simpl; eauto].
  destruct (JSON_parse data) as [parsed|]; [|simpl; eauto].
  destruct (filter_list biz parsed) as [kept|e]; [|simpl; eauto].
  destruct (accepts f _); simpl; eauto.
Qed.

(** C6, amended.  [removeBizCredential] never rejects its promise.  When
    the store is read and parses as a list none of whose entries is
    [null], the operation hands to the write the serialization of the list
    without the entries whose [biz] is the target (the list itself when no
    entry has the target), and returns [true] with that content persisted
    if the write goes through, [false] if it fails.  When the store cannot
    be read, does not parse, or parses as something that is not a list or
    as a list with a [null] entry, it returns [false] and attempts no
    write. *)
Theorem removeBizCredential_behaviour (biz : jsstring) (f : StoreFile) :
  let r := removeBizCredential biz f in
  let written := writes_of (ops (snd r)) in
  (exists b, fst r = Returns b)
  /\ (forall data items,
        stored f = Returns data ->
        JSON_parse data = Some (JArr items) ->
        Forall (fun item => item <> JNull) items ->
        let content := JSON_stringify (JArr (without_biz biz items)) in
        written = writes_of (ops f) ++ [content]
        /\ (forall item,
              In item (without_biz biz items)
              <-> In item items /\ has_biz biz item = false)
        /\ ((forall item, In item items -> has_biz biz item = false) ->
            without_biz biz items = items)
        /\ (forall u, accepts f content = Returns u ->
            fst r = Returns true /\ stored (snd r) = Returns content)
        /\ (forall e, accepts f content = Throws e -> fst r = Returns false))
  /\ (forall data,
        stored f = Returns data ->
        JSON_parse data = None ->
        fst r = Returns false /\ written = writes_of (ops f))
  /\ (forall data parsed,
        stored f = Returns data ->
        JSON_parse data = Some parsed ->
        (forall items, parsed = JArr items -> In JNull items) ->
        fst r = Returns false /\ written = writes_of (ops f))
  /\ (forall e,
        stored f = Throws e ->
        fst r = Returns false /\ written = writes_of (ops f)).
Proof.
  cbv zeta. split; [apply removeBizCredential_never_throws|].
  rewrite removeBizCredential_cases. cbv zeta.
  assert (Hread : writes_of (ops f ++ [ReadStore]) = writes_of (ops f)).
  { rewrite writes_of_app. simpl. apply app_nil_r. }
  split; [|split; [|split]].
  - intros data items Hs Hp Hn. rewrite Hs, Hp. simpl.
    rewrite (Array_filter_without_biz biz Hn).
    split.
    { destruct (accepts f _); simpl; rewrite writes_of_app, Hread; reflexivity. }
    split; [intros item; apply without_biz_spec|].
    split; [apply without_biz_absent|].
    split.
    + intros u Hu. rewrite Hu. simpl. auto.
    + intros e He. rewrite He. reflexivity.
  - intros data Hs Hp. rewrite Hs, Hp. simpl. auto.
  - intros data parsed Hs Hp Hbad. rewrite Hs, Hp.
    destruct parsed as [| | | |items|]; simpl; auto.
    destruct (Array_filter_null biz items (Hbad items eq_refl)) as [e ->].
    simpl. auto.
  - intros e Hs. rewrite Hs. simpl. auto.
Qed.

(** C10, amended.  When the store is read and parses as a list none of
    whose entries is [null], and no entry has the target [biz], the
    operation still hands the serialization of the parsed list to the
    write: the file is overwritten with it, and once the write has gone
    through the persisted content is that serialization and the call
    returns [true]. *)
Theorem no_match_rewrites_store (biz : jsstring) (f : StoreFile)
    (data : jsstring) (items : list json) :
  stored f = Returns data ->
  JSON_parse data = Some (JArr items) ->
  Forall (fun item => item <> JNull) items ->
  (forall item, In item items -> has_biz biz item = false) ->
  let r := removeBizCredential biz f in
  let content := JSON_stringify (JArr items) in
  ops (snd r) = ops f ++ [ReadStore; WriteStore content]
  /\ (accepts f content = Returns tt ->
      fst r = Returns true /\ stored (snd r) = Returns content).
Proof.
  intros Hs Hp Hn Habsent. cbv zeta.
  rewrite removeBizCredential_cases. cbv zeta. rewrite Hs, Hp. simpl.
  rewrite (Array_filter_without_biz biz Hn), (without_biz_absent biz items Habsent).
  destruct (accepts f (JSON_stringify (JArr items))) as [[]|e]; simpl;
    rewrite <- app_assoc; split; auto; discriminate.
Qed.

End WithRuntime.

(** C6 as stated fails: the store [[null]] parses as a list, every write
    would be accepted, and yet the call returns [false] and writes nothing. *)
Lemma null_entry_store_not_rewritten :
  let f := Examples.store_of (js "[null]") in
  let r := removeBizCredential (RT := ExampleRuntime.runtime) (js "MzA5") f in
  stored f = Returns (js "[null]")
  /\ JSON_parse (Runtime := ExampleRuntime.runtime) (js "[null]") = Some (JArr [JNull])
  /\ fst r = Returns false
  /\ ops (snd r) = [ReadStore]
  /\ stored (snd r) = Returns (js "[null]").
Proof. vm_compute. repeat split; reflexivity. Qed.

(** C10 as stated fails: a readable store that parses as a list, here with
    [null] as second entry, is not overwritten when no entry matches. *)
Lemma null_entry_store_no_match_not_rewritten :
  let f := Examples.store_of Examples.with_null_entry_text in
  let r := removeBizCredential (RT := ExampleRuntime.runtime) (js "absent") f in
  stored f = Returns Examples.with_null_entry_text
  /\ JSON_parse (Runtime := ExampleRuntime.runtime) Examples.with_null_entry_text
     = Some (JArr Examples.with_null_entry)
  /\ (forall item, In item Examples.with_null_entry -> has_biz (js "absent") item = false)
  /\ writes_of (ops (snd r)) = []
  /\ fst r = Returns false.
Proof.
  cbv zeta. split; [reflexivity|].
  split; [vm_compute; reflexivity|].
  split; [|split; vm_compute; reflexivity].
  intros item [<-|[<-|[]]]; vm_compute; reflexivity.
Qed.

(** *** The theorems at the example inputs *)

Lemma sessions_not_null :
  Forall (fun item => item <> JNull) Examples.sessions.
Proof. repeat constructor; discriminate. Qed.

Lemma removeBizCredential_behaviour_witness :
  let f := Examples.store_of Examples.store_text in
  let r := removeBizCredential (RT := ExampleRuntime.runtime) (js "MzB7") f in
  stored f = Returns Examples.store_text
  /\ JSON_parse (Runtime := ExampleRuntime.runtime) Examples.store_text
     = Some (JArr Examples.sessions)
  /\ Forall (fun item => item <> JNull) Examples.sessions
  /\ accepts f (ExampleRuntime.stringify (JArr (without_biz (js "MzB7") Examples.sessions)))
     = Returns tt
  /\ fst r = Returns true
  /\ stored (snd r)
     = Returns (ExampleRuntime.stringify (JArr (without_biz (js "MzB7") Examples.sessions))).
Proof.
  cbv zeta.
  split; [reflexivity|].
  split; [exact ExtractionFacts.example_store_parses|].
  split; [exact sessions_not_null|].
  split; [reflexivity|].
  destruct (@removeBizCredential_behaviour ExampleRuntime.runtime (js "MzB7")
              (Examples.store_of Examples.store_text))
    as (_ & Hlist & _).
  destruct (Hlist _ _ eq_refl ExtractionFacts.example_store_parses sessions_not_null)
    as (_ & _ & _ & Hok & _).
  exact (Hok tt eq_refl).
Defined.

Lemma no_match_rewrites_store_witness :
  let f := Examples.store_of Examples.store_text in
  let r := removeBizCredential (RT := ExampleRuntime.runtime) (js "absent") f in
  let content := ExampleRuntime.stringify (JArr Examples.sessions) in
  stored f = Returns Examples.store_text
  /\ JSON_parse (Runtime := ExampleRuntime.runtime) Examples.store_text
     = Some (JArr Examples.sessions)
  /\ Forall (fun item => item <> JNull) Examples.sessions
  /\ (forall item, In item Examples.sessions -> has_biz (js "absent") item = false)
  /\ ops (snd r) = [ReadStore; WriteStore content]
  /\ fst r = Returns true
  /\ stored (snd r) = Returns content.
Proof.
  cbv zeta.
  assert (Habsent : forall item, In item Examples.sessions ->
                                 has_biz (js "absent") item = false).
  { intros item [<-|[<-|[<-|[]]]]; vm_compute; reflexivity. }
  split; [reflexivity|].
  split; [exact ExtractionFacts.example_store_parses|].
  split; [exact sessions_not_null|].
  split; [exact Habsent|].
  destruct (@no_match_rewrites_store ExampleRuntime.runtime (js "absent")
              (Examples.store_of Examples.store_text) _ _
              eq_refl ExtractionFacts.example_store_parses sessions_not_null Habsent)
    as (Hops & Hok).
  split; [exact Hops|].
  exact (Hok eq_refl).
Defined.

(** The bytes written need not be the bytes read: a store holding the empty
    list with a space inside the brackets is rewritten without the space. *)
Lemma rewrite_changes_formatting :
  let r := removeBizCredential (RT := ExampleRuntime.runtime) (js "absent")
             (Examples.store_of (js "[ ]")) in
  fst r = Returns true
  /\ stored (snd r) = Returns (js "[]")
  /\ js "[]" <> js "[ ]".
Proof. vm_compute. repeat split; discriminate. Qed.

(** A store that cannot be read, and a store that refuses the write. *)
Lemma failed_io_returns_false :
  fst (removeBizCredential (RT := ExampleRuntime.runtime) (js "MzA5")
         Examples.unreadable_store) = Returns false
  /\ fst (removeBizCredential (RT := ExampleRuntime.runtime) (js "MzA5")
            (Examples.read_only_store_of Examples.store_text)) = Returns false
  /\ stored (snd (removeBizCredential (RT := ExampleRuntime.runtime) (js "MzA5")
                    (Examples.read_only_store_of Examples.store_text)))
     = Returns Examples.store_text.
Proof. vm_compute. repeat split; reflexivity. Qed.

(** The example of the specification: from the list of [a] and [b],
    removing [a] leaves [b], removing [z] leaves both. *)
Lemma remove_a_keeps_b :
  let a := JObj [(js "biz", JStr (js "a"))] in
  let b := JObj [(js "biz", JStr (js "b"))] in
  let f := Examples.store_of (ExampleRuntime.stringify (JArr [a; b])) in
  (let r := removeBizCredential (RT := ExampleRuntime.runtime) (js "a") f in
   fst r = Returns true
   /\ stored (snd r) = Returns (ExampleRuntime.stringify (JArr [b])))
  /\ (let r := removeBizCredential (RT := ExampleRuntime.runtime) (js "z") f in
      fst r = Returns true
      /\ stored (snd r) = Returns (ExampleRuntime.stringify (JArr [a; b]))).
Proof. vm_compute. repeat split; reflexivity. Qed.

End StoreFacts.

(** ** More on the registry *)

Module RegistryMore.
Import FileServer RegistryShape Lifecycle RegistryFacts.

(** X1.  In every state the event loop reaches (calls, [listen] and
    ['error'] callbacks, closes), the server the registry holds for a root
    is a server created for that root (its request handler serves that
    directory) and it is what [startFileServer] resolves with at once; it
    is bound to a port, or else a close has been run on it: the registry
    keeps a server that listens no longer. *)
Theorem registered_server_serves_its_root (es : list event)
    (root : jsstring) (s : Server) :
  Map_get (registry (run initial es)) root = Some s ->
  server_root s = root
  /\ bound_or_closed es (run initial es) s
  /\ fst (startFileServer root (run initial es)) = Resolved s.
Proof.
  intros Hget.
  destruct (@shaped_run es initial shaped_initial) as [Hreg _].
  pose proof (Map_get_In _ _ Hget) as Hin.
  destruct (Hreg root s Hin) as (H1 & _).
  split; [assumption|]. split.
  - eapply registered_bound_or_closed. eassumption.
  - erewrite startFileServer_registered by eassumption. reflexivity.
Qed.

Lemma cleanup_log_subset (c : Collaborators) (r : Resource) (t : teardown) :
  In t (snd (cleanup c r [])) -> In t (full_teardown r).
Proof.
  rewrite LifecycleFacts.cleanup_cases. unfold full_teardown.
  destruct (MitmproxyManager_close c).
  2:{ simpl. intros [<-|[]]. now left. }
  destruct (osProxy_closeProxy c).
  2:{ simpl. intros [<-|[<-|[]]]; simpl; auto. }
  destruct (browser r) as [b|]; [|exact (fun H => H)].
  destruct (browser_close c b); [exact (fun H => H)|].
  simpl. intros [<-|[<-|[<-|[]]]]; simpl; auto.
Qed.

Lemma Map_get_None_not_In (V : Type) (m : JsMap V) (k : jsstring) (v : V) :
  Map_get m k = None -> ~ In (k, v) m.
Proof.
  intros H Hin. apply Map_get_None_keys in H. apply H.
  unfold Map_keys. apply in_map_iff. now exists (k, v).
Qed.

Lemma Server_eqb_ids (a b : Server) :
  server_id a <> server_id b -> Server_eqb a b = false.
Proof.
  intros H. unfold Server_eqb.
  destruct (Nat.eqb_spec (server_id a) (server_id b)); [contradiction | reflexivity].
Qed.

Lemma Map_set_twice (V : Type) (m : JsMap V) (k : jsstring) (v w : V) :
  Map_set (Map_set m k v) k w = Map_set m k w.
Proof.
  induction m as [|[k' v'] m IH]; simpl.
  - now rewrite jseqb_refl.
  - destruct (jseqb k' k) eqn:E; simpl.
    + now rewrite jseqb_refl.
    + now rewrite E, IH.
Qed.

(** X2.  Two calls for a root that is not registered, the second made before
    the [listen] callback of the first has run, create two servers.  Both
    come to listen; the registry keeps the one whose callback runs last, and
    the other one, though bound to its port, is out of the registry: no
    later call returns it and [cleanup] never closes it. *)
Theorem overlapping_calls_leak_a_server (es : list event) (root : jsstring)
    (port1 port2 : N) (c : Collaborators) :
  let st := run initial es in
  let st1 := snd (startFileServer root st) in
  let st2 := snd (startFileServer root st1) in
  Map_get (registry st) root = None ->
  exists s1 s2,
    fst (startFileServer root st) = Awaiting s1
    /\ fst (startFileServer root st1) = Awaiting s2
    /\ s1 <> s2
    /\ let st4 := run st2 [Listening s1 port1; Listening s2 port2] in
       Map_get (registry st4) root = Some s2
       /\ port_of st4 s1 = Some port1
       /\ port_of st4 s2 = Some port2
       /\ ~ In s1 (Map_values (registry st4))
       /\ ~ In (CloseFileServer s1) (snd (cleanup c (_resource st4) [])).
Proof.
  intros st st1 st2 Hnone.
  destruct (shaped_run es shaped_initial) as (Hreg & Hpen & _).
  fold st in Hreg, Hpen.
  set (s1 := {| server_id := next_id st; server_root := root |}).
  set (s2 := {| server_id := S (next_id st); server_root := root |}).
  assert (H1 : startFileServer root st = (Awaiting s1, st1)).
  { unfold st1. now rewrite (startFileServer_fresh root st Hnone). }
  assert (Est1 : st1 = {| _resource := _resource st; next_id := S (next_id st);
                          bound := bound st; pending := pending st ++ [s1] |}).
  { unfold st1. now rewrite (startFileServer_fresh root st Hnone). }
  assert (Hnone1 : Map_get (registry st1) root = None) by now rewrite Est1.
  assert (Est2 : st2 = {| _resource := _resource st; next_id := S (S (next_id st));
                          bound := bound st;
                          pending := (pending st ++ [s1]) ++ [s2] |}).
  { unfold st2. rewrite (startFileServer_fresh root st1 Hnone1). now rewrite Est1. }
  exists s1, s2.
  split; [now rewrite H1|].
  split; [rewrite (startFileServer_fresh root st1 Hnone1); now rewrite Est1|].
  split; [intros [= H]; lia|].
  cbv zeta. unfold run. cbn [fold_left].
  rewrite (run_Listening_pending st2 s1 port1)
    by (rewrite Est2; simpl; apply in_or_app; left; apply in_or_app; right; now left).
  rewrite run_Listening_pending.
  2:{ rewrite Est2. simpl. unfold remove_pending. apply filter_In. split.
      - apply in_or_app. right. now left.
      - rewrite Server_eqb_ids; [reflexivity | simpl; lia]. }
  rewrite Est2. unfold on_listening, registry, set_fileServer, port_of.
  cbn [_resource fileServer bound server_root server_id s1 s2 browser find fst].
  rewrite Map_set_twice.
  set (m := fileServer (_resource st)) in *.
  assert (Hnot1 : ~ In s1 (Map_values (Map_set m root s2))).
  { intros Hin. apply Map_values_In in Hin. destruct Hin as [k Hin].
    apply Map_set_In in Hin. destruct Hin as [[= _ H]|Hin].
    - lia.
    - destruct (Hreg k s1 Hin) as (_ & Hlt). simpl in Hlt. lia. }
  split; [apply Map_get_set_same|].
  split.
  { destruct (Nat.eqb_spec (S (next_id st)) (next_id st)); [lia|].
    now rewrite Nat.eqb_refl. }
  split; [now rewrite Nat.eqb_refl|].
  split; [exact Hnot1|].
  intros Hin. apply cleanup_log_subset in Hin.
  unfold full_teardown in Hin. cbn [fileServer browser] in Hin.
  simpl in Hin. destruct Hin as [Hin|[Hin|Hin]]; [discriminate..|].
  apply in_app_or in Hin. destruct Hin as [Hin|Hin].
  - destruct (browser (_resource st));
      [destruct Hin as [Hin|[]]; discriminate | contradiction].
  - apply in_map_iff in Hin. destruct Hin as (x & [= ->] & Hx). now apply Hnot1.
Qed.

(** X3.  When the [listen] of a newly created server fails, the root stays
    out of the registry and the server is forgotten; the next call for the
    root does not find it and creates another server. *)
Theorem failed_listen_is_retried (es : list event) (root : jsstring) :
  let st := run initial es in
  Map_get (registry st) root = None ->
  exists s,
    fst (startFileServer root st) = Awaiting s
    /\ let st2 := run_event (snd (startFileServer root st)) (Error s) in
       Map_get (registry st2) root = None
       /\ ~ In s (pending st2)
       /\ exists s', fst (startFileServer root st2) = Awaiting s' /\ s' <> s.
Proof.
  intros st Hnone.
  set (s := {| server_id := next_id st; server_root := root |}).
  exists s. rewrite (startFileServer_fresh root st Hnone). fold s. cbn [fst snd].
  split; [reflexivity|].
  cbv zeta. cbn [run_event]. unfold is_pending. cbn [pending].
  rewrite existsb_app. cbn [existsb]. rewrite Server_eqb_refl, orb_true_r.
  unfold on_error. cbn [_resource next_id bound pending].
  split; [exact Hnone|].
  split.
  { unfold remove_pending. rewrite filter_In. cbn [pending].
    rewrite Server_eqb_refl. intros [_ H]. discriminate. }
  rewrite startFileServer_fresh by exact Hnone. cbn [fst next_id].
  eexists. split; [reflexivity|].
  intros [= H]. lia.
Qed.

(** X4.  [cleanup] closes the file servers of the registry but does not take
    them out of it (lines 157-162 only read [_resource.fileServer]): after a
    cleanup that ran to its end, a call for a registered root still resolves
    at once with the server that has just been closed, and no new server is
    created. *)
Theorem cleanup_leaves_closed_server_registered (es : list event)
    (c : Collaborators) (root : jsstring) (s : Server) :
  let st := run initial es in
  Map_get (registry st) root = Some s ->
  MitmproxyManager_close c = Returns tt ->
  osProxy_closeProxy c = Returns tt ->
  (forall b, browser (_resource st) = Some b -> browser_close c b = Returns tt) ->
  fst (cleanup c (_resource st) []) = Returns tt
  /\ In (CloseFileServer s) (snd (cleanup c (_resource st) []))
  /\ startFileServer root st = (Resolved s, st).
Proof.
  intros st Hget Hm Ho Hb.
  rewrite LifecycleFacts.cleanup_cases, Hm, Ho.
  assert (Hin : In (CloseFileServer s) (full_teardown (_resource st))).
  { unfold full_teardown. simpl. right. right. apply in_or_app. right.
    apply in_map. apply Map_values_In. exists root. now apply Map_get_In. }
  assert (Hstart : startFileServer root st = (Resolved s, st)).
  { unfold startFileServer. unfold registry in Hget. now rewrite Hget. }
  destruct (browser (_resource st)) as [b|] eqn:Eb.
  - rewrite (Hb b eq_refl). simpl. auto.
  - simpl. auto.
Qed.

(** *** The theorems at example inputs *)

Lemma www_registered :
  Map_get (registry (run initial [Call (js "/srv/www"); Listening www 8080]))
          (js "/srv/www") = Some www.
Proof. vm_compute. reflexivity. Qed.

Lemma www_still_registered :
  Map_get (registry (run initial [Call (js "/srv/www"); Listening www 8080;
                                  Closed www]))
          (js "/srv/www") = Some www.
Proof. vm_compute. reflexivity. Qed.

Lemma registered_server_serves_its_root_witness :
  Map_get (registry (run initial [Call (js "/srv/www"); Listening www 8080;
                                  Closed www]))
          (js "/srv/www") = Some www
  /\ server_root www = js "/srv/www"
  /\ bound_or_closed [Call (js "/srv/www"); Listening www 8080; Closed www]
       (run initial [Call (js "/srv/www"); Listening www 8080; Closed www]) www
  /\ fst (startFileServer (js "/srv/www")
            (run initial [Call (js "/srv/www"); Listening www 8080; Closed www]))
     = Resolved www.
Proof.
  split; [exact www_still_registered|].
  exact (registered_server_serves_its_root _ _ www_still_registered).
Defined.

Lemma overlapping_calls_leak_a_server_witness :
  Map_get (registry (run initial [])) (js "/srv/www") = None
  /\ exists s1 s2,
       fst (startFileServer (js "/srv/www") (run initial [])) = Awaiting s1
       /\ s1 <> s2
       /\ ~ In (CloseFileServer s1)
              (snd (cleanup only_server_complains
                      (_resource
                         (run (snd (startFileServer (js "/srv/www")
                                      (snd (startFileServer (js "/srv/www")
                                              (run initial [])))))
                              [Listening s1 8080; Listening s2 8081]))
                      [])).
Proof.
  split; [reflexivity|].
  destruct (@overlapping_calls_leak_a_server [] (js "/srv/www") 8080 8081
              only_server_complains eq_refl)
    as (s1 & s2 & H1 & _ & Hne & _ & _ & _ & _ & Hleak).
  exists s1, s2. repeat split; assumption.
Defined.

Lemma failed_listen_is_retried_witness :
  Map_get (registry (run initial [])) (js "/srv/www") = None
  /\ exists s,
       fst (startFileServer (js "/srv/www") (run initial [])) = Awaiting s
       /\ Map_get
            (registry (run_event (snd (startFileServer (js "/srv/www")
                                         (run initial []))) (Error s)))
            (js "/srv/www") = None.
Proof.
  split; [reflexivity|].
  destruct (@failed_listen_is_retried [] (js "/srv/www") eq_refl)
    as (s & H1 & H2 & _).
  exists s. split; assumption.
Defined.

Lemma cleanup_leaves_closed_server_registered_witness :
  let st := run initial [Call (js "/srv/www"); Listening www 8080] in
  Map_get (registry st) (js "/srv/www") = Some www
  /\ MitmproxyManager_close only_server_complains = Returns tt
  /\ osProxy_closeProxy only_server_complains = Returns tt
  /\ (forall b, browser (_resource st) = Some b ->
                browser_close only_server_complains b = Returns tt)
  /\ In (CloseFileServer www) (snd (cleanup only_server_complains (_resource st) []))
  /\ startFileServer (js "/srv/www") st = (Resolved www, st).
Proof.
  cbv zeta.
  split; [exact www_registered|].
  split; [reflexivity|]. split; [reflexivity|].
  split; [intros b _; reflexivity|].
  destruct (@cleanup_leaves_closed_server_registered
              [Call (js "/srv/www"); Listening www 8080] only_server_complains
              (js "/srv/www") www www_registered eq_refl eq_refl
              (fun b _ => eq_refl)) as (_ & H2 & H3).
  split; assumption.
Defined.

End RegistryMore.

(** ** Percent-encoding *)

Module URIFacts.
Import URI.

Lemma in_range_spec (lo hi b : N) :
  in_range lo hi b = true <-> (lo <= b /\ b <= hi)%N.
Proof.
  unfold in_range. rewrite andb_true_iff, !N.leb_le. tauto.
Qed.

Lemma in_range_false (lo hi b : N) :
  in_range lo hi b = false <-> (b < lo \/ hi < b)%N.
Proof.
  unfold in_range. rewrite andb_false_iff, !N.leb_gt. tauto.
Qed.

Lemma hex_digit_hex_char (d : N) : (d < 16)%N -> hex_digit (hex_char d) = Some d.
Proof.
  intros H. unfold hex_char, hex_digit.
  destruct (N.ltb_spec d 10).
  - replace ((48 <=? 48 + d) && (48 + d <=? 57))%N with true.
    + f_equal. lia.
    + symmetry. apply andb_true_iff. rewrite !N.leb_le. lia.
  - replace ((48 <=? 55 + d) && (55 + d <=? 57))%N with false.
    + replace ((65 <=? 55 + d) && (55 + d <=? 70))%N with true.
      * f_equal. lia.
      * symmetry. apply andb_true_iff. rewrite !N.leb_le. lia.
    + symmetry. apply andb_false_iff. rewrite !N.leb_gt. lia.
Qed.

Lemma unreserved_ascii (c : code_unit) : unreserved c = true -> (c < 128)%N.
Proof.
  unfold unreserved. rewrite !orb_true_iff, !in_range_spec.
  intros [[[H|H]|H]|H]; try lia.
  simpl in H. rewrite !orb_true_iff, !N.eqb_eq in H.
  repeat (destruct H as [H|H]; [lia|]). discriminate.
Qed.

Lemma unreserved_not_percent (c : code_unit) :
  unreserved c = true -> (c =? PERCENT)%N = false.
Proof.
  intros H. apply N.eqb_neq. intros ->. vm_compute in H. discriminate.
Qed.

Lemma tokens_literal (c : code_unit) (rest : jsstring) :
  (c =? PERCENT)%N = false ->
  tokens (c :: rest) = option_map (cons (Lit c)) (tokens rest).
Proof. intros H. simpl. now rewrite H. Qed.

Lemma tokens_escape (b : N) (rest : jsstring) :
  (b < 256)%N ->
  tokens (escape b ++ rest) = option_map (cons (Esc b)) (tokens rest).
Proof.
  intros H. unfold escape. cbn [app tokens]. rewrite N.eqb_refl.
  rewrite !hex_digit_hex_char.
  - replace (16 * (b / 16) + b mod 16)%N with b; [now destruct (tokens rest)|].
    pose proof (N.div_mod b 16). lia.
  - apply N.mod_lt. discriminate.
  - apply N.Div0.div_lt_upper_bound. lia.
Qed.

Ltac div_lia := zify; Z.to_euclidean_division_equations; lia.

Lemma tokens_escapes (octets : list N) (rest : jsstring) :
  Forall (fun b => b < 256)%N octets ->
  tokens (flat_map escape octets ++ rest)
  = option_map (app (map Esc octets)) (tokens rest).
Proof.
  induction 1 as [|b octets Hb Hall IH].
  - change (flat_map escape [] ++ rest) with rest. now destruct (tokens rest).
  - change (flat_map escape (b :: octets))
      with (escape b ++ flat_map escape octets).
    rewrite <- app_assoc, (tokens_escape _ Hb), IH.
    now destruct (tokens rest).
Qed.

Lemma decode_tokens_1 (b : N) (ts : list token) :
  (b < 128)%N ->
  decode_tokens (Esc b :: ts) = option_map (cons b) (decode_tokens ts).
Proof.
  intros H. cbn [decode_tokens]. apply N.ltb_lt in H. now rewrite H.
Qed.

Lemma decode_tokens_2 (b b1 : N) (ts : list token) :
  in_range 194 223 b = true -> cont b1 = true ->
  decode_tokens (Esc b :: Esc b1 :: ts)
  = option_map (app (utf16 ((b - 192) * 64 + (b1 - 128))%N)) (decode_tokens ts).
Proof.
  intros H H1. cbn [decode_tokens].
  assert (E : (b <? 128)%N = false)
    by (apply in_range_spec in H; apply N.ltb_ge; lia).
  now rewrite E, H, H1.
Qed.

Lemma decode_tokens_3 (b b1 b2 : N) (ts : list token) :
  in_range 224 239 b = true ->
  in_range (if (b =? 224)%N then 160%N else 128%N)
           (if (b =? 237)%N then 159%N else 191%N) b1 = true ->
  cont b2 = true ->
  decode_tokens (Esc b :: Esc b1 :: Esc b2 :: ts)
  = option_map
      (app (utf16 ((b - 224) * 4096 + (b1 - 128) * 64 + (b2 - 128))%N))
      (decode_tokens ts).
Proof.
  intros H H1 H2. cbn [decode_tokens].
  assert (E : (b <? 128)%N = false)
    by (apply in_range_spec in H; apply N.ltb_ge; lia).
  assert (E' : in_range 194 223 b = false)
    by (apply in_range_spec in H; apply in_range_false; lia).
  now rewrite E, E', H, H1, H2.
Qed.

Lemma decode_tokens_4 (b b1 b2 b3 : N) (ts : list token) :
  in_range 240 244 b = true ->
  in_range (if (b =? 240)%N then 144%N else 128%N)
           (if (b =? 244)%N then 143%N else 191%N) b1 = true ->
  cont b2 = true -> cont b3 = true ->
  decode_tokens (Esc b :: Esc b1 :: Esc b2 :: Esc b3 :: ts)
  = option_map
      (app (utf16 ((b - 240) * 262144 + (b1 - 128) * 4096
                   + (b2 - 128) * 64 + (b3 - 128))%N))
      (decode_tokens ts).
Proof.
  intros H H1 H2 H3. cbn [decode_tokens].
  assert (E : (b <? 128)%N = false)
    by (apply in_range_spec in H; apply N.ltb_ge; lia).
  assert (E' : in_range 194 223 b = false)
    by (apply in_range_spec in H; apply in_range_false; lia).
  assert (E'' : in_range 224 239 b = false)
    by (apply in_range_spec in H; apply in_range_false; lia).
  now rewrite E, E', E'', H, H1, H2, H3.
Qed.

(** The octets of a scalar value are read back as that value. *)
Lemma decode_tokens_utf8 (cp : N) (ts : list token) :
  (cp < 55296 \/ 57343 < cp /\ cp <= 1114111)%N ->
  decode_tokens (map Esc (utf8 cp) ++ ts)
  = option_map (app (utf16 cp)) (decode_tokens ts).
Proof.
  intros Hcp. unfold utf8.
  destruct (N.ltb_spec cp 128) as [H1|H1].
  { cbn [map app]. rewrite (decode_tokens_1 _ H1).
    unfold utf16. replace (cp <? 65536)%N with true by (symmetry; apply N.ltb_lt; lia).
    reflexivity. }
  destruct (N.ltb_spec cp 2048) as [H2|H2].
  { cbn [map app]. rewrite decode_tokens_2.
    - assert (E : ((192 + cp / 64 - 192) * 64 + (128 + cp mod 64 - 128))%N = cp)
        by div_lia.
      now rewrite E.
    - apply in_range_spec. div_lia.
    - apply in_range_spec. div_lia. }
  destruct (N.ltb_spec cp 65536) as [H3|H3].
  { cbn [map app]. rewrite decode_tokens_3.
    - assert (E : ((224 + cp / 4096 - 224) * 4096
                   + (128 + (cp / 64) mod 64 - 128) * 64
                   + (128 + cp mod 64 - 128))%N = cp) by div_lia.
      now rewrite E.
    - apply in_range_spec. div_lia.
    - apply in_range_spec.
      destruct (N.eqb_spec (224 + cp / 4096) 224);
        destruct (N.eqb_spec (224 + cp / 4096) 237); div_lia.
    - apply in_range_spec. div_lia. }
  cbn [map app]. rewrite decode_tokens_4.
  - assert (E : ((240 + cp / 262144 - 240) * 262144
                 + (128 + (cp / 4096) mod 64 - 128) * 4096
                 + (128 + (cp / 64) mod 64 - 128) * 64
                 + (128 + cp mod 64 - 128))%N = cp) by div_lia.
    now rewrite E.
  - apply in_range_spec. div_lia.
  - apply in_range_spec.
    destruct (N.eqb_spec (240 + cp / 262144) 240);
      destruct (N.eqb_spec (240 + cp / 262144) 244); div_lia.
  - apply in_range_spec. div_lia.
  - apply in_range_spec. div_lia.
Qed.

Lemma utf8_octets (cp : N) :
  (cp <= 1114111)%N -> Forall (fun b => b < 256)%N (utf8 cp).
Proof.
  intros H. unfold utf8.
  destruct (cp <? 128)%N eqn:E1; [repeat constructor; apply N.ltb_lt in E1; lia|].
  destruct (cp <? 2048)%N eqn:E2;
    [apply N.ltb_lt in E2; repeat constructor; div_lia|].
  destruct (cp <? 65536)%N eqn:E3;
    [apply N.ltb_lt in E3; repeat constructor; div_lia|].
  repeat constructor; div_lia.
Qed.

Lemma escape_ascii (b : N) :
  (b < 256)%N -> Forall (fun c => c < 128)%N (escape b).
Proof.
  intros Hb. unfold escape, hex_char, PERCENT.
  repeat constructor; try lia.
  - destruct (N.ltb_spec (b / 16) 10); div_lia.
  - destruct (N.ltb_spec (b mod 16) 10); div_lia.
Qed.

Lemma escape_code_point_ascii (cp : N) :
  (cp <= 1114111)%N -> Forall (fun c => c < 128)%N (escape_code_point cp).
Proof.
  intros H. unfold escape_code_point.
  pose proof (utf8_octets H) as Ho.
  induction Ho as [|b l Hb Hl IH]; [constructor|].
  change (flat_map escape (b :: l)) with (escape b ++ flat_map escape l).
  apply Forall_app. split; [now apply escape_ascii | exact IH].
Qed.

Lemma encodeURIComponent_eq (c : code_unit) (rest : jsstring) :
  encodeURIComponent (c :: rest) =
    if unreserved c then option_map (cons c) (encodeURIComponent rest)
    else if low_surrogate c then None
    else if high_surrogate c then
      match rest with
      | d :: rest' =>
          if low_surrogate d
          then option_map
                 (app (escape_code_point
                         ((c - 55296) * 1024 + (d - 56320) + 65536)%N))
                 (encodeURIComponent rest')
          else None
      | [] => None
      end
    else option_map (app (escape_code_point c)) (encodeURIComponent rest).
Proof. destruct rest; reflexivity. Qed.

Lemma utf16_unit (c : N) : (c < 65536)%N -> utf16 c = [c].
Proof.
  intros H. unfold utf16. apply N.ltb_lt in H. now rewrite H.
Qed.

Lemma utf16_pair (c d : N) :
  high_surrogate c = true -> low_surrogate d = true ->
  utf16 ((c - 55296) * 1024 + (d - 56320) + 65536)%N = [c; d].
Proof.
  unfold high_surrogate, low_surrogate. rewrite !in_range_spec. intros Hc Hd.
  unfold utf16.
  replace ((c - 55296) * 1024 + (d - 56320) + 65536 <? 65536)%N with false
    by (symmetry; apply N.ltb_ge; lia).
  f_equal; [|f_equal]; div_lia.
Qed.

Lemma decode_encode_aux (n : nat) :
  forall s e,
    (length s <= n)%nat ->
    Forall (fun c => c < 65536)%N s ->
    encodeURIComponent s = Some e ->
    (exists ts, tokens e = Some ts /\ decode_tokens ts = Some s)
    /\ Forall (fun c => c < 128)%N e.
Proof.
  induction n as [|n IH]; intros s e Hlen Hs He.
  { destruct s; [|simpl in Hlen; lia]. injection He as <-.
    split; [exists []; split; reflexivity | constructor]. }
  destruct s as [|c rest].
  { injection He as <-. split; [exists []; split; reflexivity | constructor]. }
  inversion Hs as [|? ? Hc Hrest]; subst.
  rewrite encodeURIComponent_eq in He. simpl in Hlen.
  destruct (unreserved c) eqn:Eu.
  { destruct (encodeURIComponent rest) as [e'|] eqn:Ee; [|discriminate].
    injection He as <-.
    destruct (IH rest e' ltac:(lia) Hrest Ee) as [(ts & Ht & Hd) Ha].
    split.
    - exists (Lit c :: ts).
      rewrite (@tokens_literal c e' (@unreserved_not_percent c Eu)), Ht. simpl.
      now rewrite Hd.
    - constructor; [now apply unreserved_ascii | exact Ha]. }
  destruct (low_surrogate c) eqn:El; [discriminate|].
  destruct (high_surrogate c) eqn:Eh.
  { destruct rest as [|d rest']; [discriminate|].
    destruct (low_surrogate d) eqn:Ed; [|discriminate].
    destruct (encodeURIComponent rest') as [e'|] eqn:Ee; [|discriminate].
    injection He as <-.
    inversion Hrest as [|? ? Hd' Hrest']; subst.
    destruct (IH rest' e' ltac:(simpl in Hlen; lia) Hrest' Ee) as [(ts & Ht & Hd) Ha].
    set (cp := ((c - 55296) * 1024 + (d - 56320) + 65536)%N).
    assert (Hcp : (57343 < cp /\ cp <= 1114111)%N).
    { unfold cp, high_surrogate, low_surrogate in *.
      apply in_range_spec in Eh, Ed. lia. }
    split.
    - exists (map Esc (utf8 cp) ++ ts).
      unfold escape_code_point.
      rewrite (@tokens_escapes (utf8 cp) e' (@utf8_octets cp (proj2 Hcp))), Ht. simpl.
      split; [reflexivity|].
      rewrite decode_tokens_utf8 by (right; exact Hcp).
      rewrite Hd. unfold cp. now rewrite (@utf16_pair c d Eh Ed).
    - apply Forall_app. split; [apply escape_code_point_ascii; lia | exact Ha]. }
  destruct (encodeURIComponent rest) as [e'|] eqn:Ee; [|discriminate].
  injection He as <-.
  destruct (IH rest e' ltac:(lia) Hrest Ee) as [(ts & Ht & Hd) Ha].
  assert (Hcp : (c < 55296 \/ 57343 < c /\ c <= 1114111)%N).
  { unfold high_surrogate, low_surrogate in *.
    apply in_range_false in Eh, El. lia. }
  split.
  - exists (map Esc (utf8 c) ++ ts).
    unfold escape_code_point.
    rewrite (@tokens_escapes (utf8 c) e' (@utf8_octets c ltac:(lia))), Ht. simpl.
    split; [reflexivity|].
    rewrite (@decode_tokens_utf8 c ts Hcp), Hd, (@utf16_unit c Hc). reflexivity.
  - apply Forall_app. split; [apply escape_code_point_ascii; lia | exact Ha].
Qed.

(** X5.  For a string of 16-bit code units that [encodeURIComponent]
    accepts, the result consists of ASCII characters only and
    [decodeURIComponent] gives the string back. *)
Theorem decode_after_encode (s e : jsstring) :
  Forall (fun c => c < 65536)%N s ->
  encodeURIComponent s = Some e ->
  decodeURIComponent e = Some s /\ Forall (fun c => c < 128)%N e.
Proof.
  intros Hs He.
  destruct (@decode_encode_aux (length s) s e (le_n _) Hs He)
    as [(ts & Ht & Hd) Ha].
  split; [|exact Ha].
  unfold decodeURIComponent. now rewrite Ht.
Qed.

(** [encodeURIComponent] fails only at an unpaired surrogate. *)
Lemma encode_without_surrogates (s : jsstring) :
  Forall (fun c => high_surrogate c = false /\ low_surrogate c = false) s ->
  exists e, encodeURIComponent s = Some e.
Proof.
  induction 1 as [|c rest [Hh Hl] Hall [e IH]]; [now exists []|].
  rewrite encodeURIComponent_eq, IH, Hh, Hl.
  destruct (unreserved c); simpl; eauto.
Qed.

Lemma decode_after_encode_witness :
  Forall (fun c => c < 65536)%N (js "http://wx.qlogo.cn/a b")
  /\ encodeURIComponent (js "http://wx.qlogo.cn/a b")
     = Some (js "http%3A%2F%2Fwx.qlogo.cn%2Fa%20b")
  /\ decodeURIComponent (js "http%3A%2F%2Fwx.qlogo.cn%2Fa%20b")
     = Some (js "http://wx.qlogo.cn/a b").
Proof.
  assert (H1 : Forall (fun c => c < 65536)%N (js "http://wx.qlogo.cn/a b"))
    by (repeat constructor).
  assert (H2 : encodeURIComponent (js "http://wx.qlogo.cn/a b")
               = Some (js "http%3A%2F%2Fwx.qlogo.cn%2Fa%20b"))
    by (vm_compute; reflexivity).
  split; [exact H1|]. split; [exact H2|].
  exact (proj1 (@decode_after_encode _ _ H1 H2)).
Defined.

End URIFacts.

(** ** More on extraction *)

Module ExtractionMore.
Import Extraction ExtractionFacts.

Section WithRuntime.
Context {RT : Runtime}.

Lemma lazy_until_semicolon_head (s capture : jsstring) :
  lazy_until_semicolon s = Some capture ->
  exists c rest tail, s = c :: rest /\ capture = c :: tail.
Proof.
  destruct s as [|c rest]; [discriminate|].
  rewrite lazy_until_semicolon_eq.
  destruct (line_terminator c); [discriminate|].
  destruct rest as [|d rest']; [discriminate|].
  destruct (d =? SEMICOLON)%N.
  - intros [= <-]. eauto.
  - destruct (lazy_until_semicolon (d :: rest')); [|discriminate].
    intros [= <-]. eauto.
Qed.

(** The capture is the shortest one: no semicolon after its first
    character. *)
Lemma lazy_until_semicolon_shortest (s capture : jsstring) :
  lazy_until_semicolon s = Some capture -> ~ In SEMICOLON (tl capture).
Proof.
  revert capture. induction s as [|c rest IH]; intros capture; [discriminate|].
  rewrite lazy_until_semicolon_eq.
  destruct (line_terminator c); [discriminate|].
  destruct rest as [|d rest']; [discriminate|].
  destruct (N.eqb_spec d SEMICOLON) as [->|Hd].
  - intros [= <-]. simpl. tauto.
  - destruct (lazy_until_semicolon (d :: rest')) as [capture'|] eqn:E;
      [|discriminate].
    intros [= <-]. simpl.
    destruct (lazy_until_semicolon_head _ E) as (c' & r & tail & [= <- <-] & ->).
    specialize (IH _ eq_refl). simpl in IH.
    intros [H|H]; [congruence | contradiction].
Qed.

Lemma match_wap_sid2_capture (s capture : jsstring) :
  match_wap_sid2 s = Some capture ->
  exists before after,
    s = before ++ js "wap_sid2=" ++ capture ++ SEMICOLON :: after
    /\ capture <> []
    /\ Forall (fun c => line_terminator c = false) capture
    /\ ~ In SEMICOLON (tl capture).
Proof.
  induction s as [|c rest IH]; rewrite match_wap_sid2_eq.
  - simpl. discriminate.
  - destruct (strip_prefix (js "wap_sid2=") (c :: rest)) as [text|] eqn:Ep.
    + destruct (lazy_until_semicolon text) as [capture'|] eqn:El.
      * intros [= <-].
        apply strip_prefix_app in Ep.
        destruct (lazy_until_semicolon_sound _ El) as (Hne & Hall & post & Heq).
        exists [], post. rewrite Ep, Heq.
        repeat split; try assumption.
        exact (lazy_until_semicolon_shortest _ El).
      * intros H. destruct (IH H) as (before & after & Heq & Hrest).
        exists (c :: before), after. rewrite Heq. auto.
    + intros H. destruct (IH H) as (before & after & Heq & Hrest).
      exists (c :: before), after. rewrite Heq. auto.
Qed.

(** What a pushed credential is made of. *)
Lemma iteration_fields (now : Z) (item : Credential.t) (parsed : ParsedCredential.t) :
  iteration now item = Returns (Some parsed) ->
  exists sp,
    URL_searchParams (Credential.url item) = Some sp
    /\ searchParams_get (js "__biz") sp = Some (ParsedCredential.biz parsed)
    /\ searchParams_get (js "uin") sp = Some (ParsedCredential.uin parsed)
    /\ searchParams_get (js "key") sp = Some (ParsedCredential.key parsed)
    /\ searchParams_get (js "pass_ticket") sp
       = Some (ParsedCredential.pass_ticket parsed)
    /\ match_wap_sid2 (Credential.set_cookie item)
       = Some (ParsedCredential.wap_sid2 parsed)
    /\ (ParsedCredential.biz parsed <> []
        /\ ParsedCredential.uin parsed <> []
        /\ ParsedCredential.key parsed <> []
        /\ ParsedCredential.pass_ticket parsed <> [])
    /\ ParsedCredential.nickname parsed = Credential.nickname item
    /\ ParsedCredential.time parsed = dayjs_format (Credential.timestamp item)
    /\ (Credential.round_head_img item = []
        /\ ParsedCredential.round_head_img parsed = []
        \/ exists e,
             Credential.round_head_img item <> []
             /\ URI.encodeURIComponent (Credential.round_head_img item) = Some e
             /\ ParsedCredential.round_head_img parsed = avatar_proxy ++ e).
Proof.
  unfold iteration.
  destruct (URL_searchParams (Credential.url item)) as [sp|]; [|discriminate].
  destruct (searchParams_get (js "__biz") sp) as [[|b1 v1]|] eqn:G1;
    cbn [truthy negb orb]; try discriminate.
  destruct (searchParams_get (js "uin") sp) as [[|b2 v2]|] eqn:G2;
    cbn [truthy negb orb]; try discriminate.
  destruct (searchParams_get (js "key") sp) as [[|b3 v3]|] eqn:G3;
    cbn [truthy negb orb]; try discriminate.
  destruct (searchParams_get (js "pass_ticket") sp) as [[|b4 v4]|] eqn:G4;
    cbn [truthy negb orb]; try discriminate.
  destruct (match_wap_sid2 (Credential.set_cookie item)) as [[|b5 v5]|] eqn:G5;
    cbn [truthy negb orb]; try discriminate.
  destruct (Credential.round_head_img item) as [|i img] eqn:Ei.
  - simpl. intros [= <-]. exists sp. simpl.
    split; [reflexivity|].
    split; [exact G1|]. split; [exact G2|]. split; [exact G3|].
    split; [exact G4|]. split; [reflexivity|].
    split; [repeat split; discriminate|].
    do 2 (split; [reflexivity|]). now left.
  - destruct (URI.encodeURIComponent (i :: img)) as [e|] eqn:Ee; [|discriminate].
    simpl. intros [= <-]. exists sp. simpl.
    split; [reflexivity|].
    split; [exact G1|]. split; [exact G2|]. split; [exact G3|].
    split; [exact G4|]. split; [reflexivity|].
    split; [repeat split; discriminate|].
    do 2 (split; [reflexivity|]).
    right. exists e. split; [discriminate|]. split; reflexivity.
Qed.

Lemma Forall2_In_r (A B : Type) (R : A -> B -> Prop) (l : list A) (l' : list B) (y : B) :
  Forall2 R l l' -> In y l' -> exists x, In x l /\ R x y.
Proof.
  induction 1 as [|x y' l l' Hxy HF IH]; [contradiction|].
  intros [<-|Hin].
  - exists x. split; [now left | assumption].
  - destruct (IH Hin) as (x' & Hx' & HR). exists x'. split; [now right | assumption].
Qed.

Lemma Forall2_In_l (A B : Type) (R : A -> B -> Prop) (l : list A) (l' : list B) (x : A) :
  Forall2 R l l' -> In x l -> exists y, In y l' /\ R x y.
Proof.
  induction 1 as [|x' y l l' Hxy HF IH]; [contradiction|].
  intros [<-|Hin].
  - exists y. split; [now left | assumption].
  - destruct (IH Hin) as (y' & Hy' & HR). exists y'. split; [now right | assumption].
Qed.

(** Every credential of the output comes from a session of the input. *)
Lemma output_from_sessions (clock : nat -> Z) (data : jsstring)
    (items : list json) (out : list ParsedCredential.t) (list : list Credential.t)
    (parsed : ParsedCredential.t) :
  JSON_parse data = Some (JArr items) ->
  as_Credentials items = Some list ->
  parseCredentialData clock data = WellTyped (Returns out) ->
  In parsed out ->
  exists item, In item list /\ emitted_from clock item parsed.
Proof.
  intros Hp Ht Hout Hin.
  rewrite (parseCredentialData_typed clock _ Hp Ht) in Hout.
  injection Hout as Hout.
  destruct (for_of_Returns _ _ _ _ Hout) as (news & -> & Hrun & _).
  simpl in Hin.
  pose proof (emitted_run_Forall2 _ _ _ _ Hrun) as HF.
  eapply Forall2_In_r in Hin; [|exact HF].
  destruct Hin as (item & Hk & He).
  exists item. split; [|exact He].
  apply filter_In in Hk.
  eapply Permutation_in; [apply Array_sort_perm | apply Hk].
Qed.

(** X6.  Every credential [parseCredentialData] returns carries all five
    secrets, none of them empty: [biz], [uin], [key] and [pass_ticket] are
    the values of the first [__biz], [uin], [key] and [pass_ticket]
    parameters of the session's URL, and [wap_sid2] is a piece of the
    session's cookie header that follows [wap_sid2=], is followed by [;],
    stays on one line and holds no [;] after its first character.  The
    [nickname] is copied and [time] is the formatted capture time. *)
Theorem credentials_carry_the_session_secrets (clock : nat -> Z) (data : jsstring)
    (items : list json) (out : list ParsedCredential.t) (list : list Credential.t)
    (parsed : ParsedCredential.t) :
  JSON_parse data = Some (JArr items) ->
  as_Credentials items = Some list ->
  parseCredentialData clock data = WellTyped (Returns out) ->
  In parsed out ->
  exists item sp,
    In item list
    /\ URL_searchParams (Credential.url item) = Some sp
    /\ searchParams_get (js "__biz") sp = Some (ParsedCredential.biz parsed)
    /\ searchParams_get (js "uin") sp = Some (ParsedCredential.uin parsed)
    /\ searchParams_get (js "key") sp = Some (ParsedCredential.key parsed)
    /\ searchParams_get (js "pass_ticket") sp
       = Some (ParsedCredential.pass_ticket parsed)
    /\ ParsedCredential.biz parsed <> []
    /\ ParsedCredential.uin parsed <> []
    /\ ParsedCredential.key parsed <> []
    /\ ParsedCredential.pass_ticket parsed <> []
    /\ (exists before after,
          Credential.set_cookie item
          = before ++ js "wap_sid2=" ++ ParsedCredential.wap_sid2 parsed
              ++ SEMICOLON :: after)
    /\ ParsedCredential.wap_sid2 parsed <> []
    /\ Forall (fun c => line_terminator c = false) (ParsedCredential.wap_sid2 parsed)
    /\ ~ In SEMICOLON (tl (ParsedCredential.wap_sid2 parsed))
    /\ ParsedCredential.nickname parsed = Credential.nickname item
    /\ ParsedCredential.time parsed = dayjs_format (Credential.timestamp item).
Proof.
  intros Hp Ht Hout Hin.
  destruct (output_from_sessions clock _ _ Hp Ht Hout Hin) as (item & Hitem & n & Hit).
  destruct (iteration_fields _ _ Hit)
    as (sp & Hu & H1 & H2 & H3 & H4 & Hw & (N1 & N2 & N3 & N4) & Hn & Htime & _).
  destruct (match_wap_sid2_capture _ Hw) as (before & after & Hc & Hne & Hall & Hs).
  exists item, sp.
  repeat (split; [assumption|]).
  split; [now exists before, after|].
  repeat (split; [assumption|]). assumption.
Qed.

(** X7.  The avatar address of a returned credential is empty when the
    session's is empty; otherwise it is the image proxy's address followed
    by an ASCII-only query value which, when the session's address is made
    of 16-bit code units, [decodeURIComponent] turns back into the
    session's address. *)
Theorem avatar_goes_through_the_proxy (clock : nat -> Z) (data : jsstring)
    (items : list json) (out : list ParsedCredential.t) (list : list Credential.t)
    (parsed : ParsedCredential.t) :
  JSON_parse data = Some (JArr items) ->
  as_Credentials items = Some list ->
  parseCredentialData clock data = WellTyped (Returns out) ->
  In parsed out ->
  exists item,
    In item list
    /\ emitted_from clock item parsed
    /\ (Credential.round_head_img item = []
        /\ ParsedCredential.round_head_img parsed = []
        \/ exists e,
             Credential.round_head_img item <> []
             /\ ParsedCredential.round_head_img parsed
                = js "https://thirsty-alligator-94.deno.dev?url=" ++ e
             /\ (Forall (fun c => c < 65536)%N (Credential.round_head_img item) ->
                 Forall (fun c => c < 128)%N e
                 /\ URI.decodeURIComponent e
                    = Some (Credential.round_head_img item))).
Proof.
  intros Hp Ht Hout Hin.
  destruct (output_from_sessions clock _ _ Hp Ht Hout Hin) as (item & Hitem & n & Hit).
  exists item. split; [assumption|]. split; [now exists n|].
  destruct (iteration_fields _ _ Hit)
    as (sp & _ & _ & _ & _ & _ & _ & _ & _ & _ & [[H1 H2]|(e & H1 & H2 & H3)]).
  - left. now split.
  - right. exists e. split; [assumption|]. split; [exact H3|].
    intros H16.
    destruct (@URIFacts.decode_encode_aux _ _ _ (le_n _) H16 H2)
      as [(ts & Hts & Hd) Ha].
    split; [exact Ha|]. unfold URI.decodeURIComponent. now rewrite Hts.
Qed.

End WithRuntime.

(** *** The theorems at the example inputs *)

Lemma credentials_carry_the_session_secrets_witness :
  JSON_parse (Runtime := ExampleRuntime.runtime) Examples.store_text
  = Some (JArr Examples.sessions)
  /\ as_Credentials Examples.sessions = Some Examples.credentials
  /\ parseCredentialData (RT := ExampleRuntime.runtime) Examples.clock
       Examples.store_text = WellTyped (Returns Examples.extracted)
  /\ exists parsed,
       In parsed Examples.extracted
       /\ ParsedCredential.biz parsed <> []
       /\ ParsedCredential.wap_sid2 parsed <> []
       /\ ~ In SEMICOLON (tl (ParsedCredential.wap_sid2 parsed)).
Proof.
  split; [exact example_store_parses|].
  split; [exact example_store_typed|].
  split; [exact example_store_extracted|].
  eexists. split; [left; reflexivity|].
  destruct (@credentials_carry_the_session_secrets ExampleRuntime.runtime
              Examples.clock _ _ _ _ _
              example_store_parses example_store_typed example_store_extracted
              (or_introl eq_refl))
    as (item & sp & _ & _ & _ & _ & _ & _ & H1 & _ & _ & _ & _ & H2 & _ & H3 & _).
  repeat split; assumption.
Defined.

Lemma avatar_goes_through_the_proxy_witness :
  JSON_parse (Runtime := ExampleRuntime.runtime) Examples.store_text
  = Some (JArr Examples.sessions)
  /\ as_Credentials Examples.sessions = Some Examples.credentials
  /\ parseCredentialData (RT := ExampleRuntime.runtime) Examples.clock
       Examples.store_text = WellTyped (Returns Examples.extracted)
  /\ exists parsed item,
       In parsed Examples.extracted
       /\ In item Examples.credentials
       /\ emitted_from (RT := ExampleRuntime.runtime) Examples.clock item parsed.
Proof.
  split; [exact example_store_parses|].
  split; [exact example_store_typed|].
  split; [exact example_store_extracted|].
  eexists.
  destruct (@avatar_goes_through_the_proxy ExampleRuntime.runtime
              Examples.clock _ _ _ _ _
              example_store_parses example_store_typed example_store_extracted
              (or_introl eq_refl))
    as (item & H1 & H2 & _).
  exists item. split; [left; reflexivity|]. split; assumption.
Defined.

End ExtractionMore.

(** ** More on the credential store *)

Unset Implicit Arguments.

Module StoreMore.
Import Store StoreFacts Extraction ExtractionFacts.

Section WithRuntime.
Context {RT : Runtime}.

Lemma has_biz_typed (biz : jsstring) (item : json) (c : Credential.t) :
  as_Credential item = Some c -> has_biz biz item = jseqb (Credential.biz c) biz.
Proof.
  unfold as_Credential, has_biz.
  destruct item as [| | | | |o]; try discriminate.
  destruct (member (js "biz") o) as [[| | |b| |]|]; try discriminate.
  repeat match goal with
         | |- context [match member ?k o with _ => _ end] =>
             destruct (member k o) as [[| | | | |]|]; try discriminate
         end.
  now intros [= <-].
Qed.

Lemma as_Credential_not_null (item : json) (c : Credential.t) :
  as_Credential item = Some c -> item <> JNull.
Proof. intros H ->. discriminate. Qed.

Lemma as_Credentials_not_null (items : list json) (l : list Credential.t) :
  as_Credentials items = Some l -> Forall (fun item => item <> JNull) items.
Proof.
  revert l. induction items as [|item items IH]; intros l H; [constructor|].
  simpl in H.
  destruct (as_Credential item) as [c|] eqn:Ec; [|discriminate].
  destruct (as_Credentials items) as [cs|]; [|discriminate].
  constructor; [exact (as_Credential_not_null item c Ec) | eauto].
Qed.

(** Removing from the parsed list is removing from the typed list. *)
Lemma as_Credentials_without_biz (biz : jsstring) (items : list json)
    (l : list Credential.t) :
  as_Credentials items = Some l ->
  as_Credentials (without_biz biz items)
  = Some (filter (fun c => negb (jseqb (Credential.biz c) biz)) l).
Proof.
  revert l. induction items as [|item items IH]; intros l H.
  - injection H as <-. reflexivity.
  - simpl in H.
    destruct (as_Credential item) as [c|] eqn:Ec; [|discriminate].
    destruct (as_Credentials items) as [cs|] eqn:Ecs; [|discriminate].
    injection H as <-.
    unfold without_biz in *. simpl.
    rewrite (has_biz_typed biz item c Ec).
    destruct (jseqb (Credential.biz c) biz); simpl.
    + now apply IH.
    + now rewrite Ec, (IH cs eq_refl).
Qed.

Lemma without_biz_twice (biz : jsstring) (items : list json) :
  without_biz biz (without_biz biz items) = without_biz biz items.
Proof.
  unfold without_biz. induction items as [|item items IH]; simpl; [reflexivity|].
  destruct (has_biz biz item) eqn:E; simpl; [exact IH|].
  now rewrite E, IH.
Qed.

Lemma without_biz_not_null (biz : jsstring) (items : list json) :
  Forall (fun item => item <> JNull) items ->
  Forall (fun item => item <> JNull) (without_biz biz items).
Proof.
  intros H. unfold without_biz. rewrite Forall_forall in *.
  intros x Hx. apply filter_In in Hx. now apply H.
Qed.

(** A removal that goes through. *)
Lemma removal_succeeds (biz : jsstring) (f : StoreFile) (data : jsstring)
    (items : list json) :
  stored f = Returns data ->
  JSON_parse data = Some (JArr items) ->
  Forall (fun item => item <> JNull) items ->
  accepts f (JSON_stringify (JArr (without_biz biz items))) = Returns tt ->
  removeBizCredential biz f =
    (Returns true,
     {| stored := Returns (JSON_stringify (JArr (without_biz biz items)));
        accepts := accepts f;
        ops := (ops f ++ [ReadStore])
               ++ [WriteStore (JSON_stringify (JArr (without_biz biz items)))] |}).
Proof.
  intros Hs Hp Hn Ha.
  rewrite removeBizCredential_cases. cbv zeta. rewrite Hs, Hp. simpl.
  rewrite (@Array_filter_without_biz biz items Hn), Ha. reflexivity.
Qed.

(** X8.  Removal is keyed on the stored [biz] field, extraction reports the
    [__biz] of the URL.  Take a store that is read and parses as a list of
    sessions, each with a URL the [URL] constructor accepts and an avatar
    [encodeURIComponent] accepts, a write that the file system accepts, and
    a runtime in which [JSON.parse] reads the written text back as the list
    that was serialized.  Then the removal of [biz] returns [true] and
    persists the serialized list of the other sessions, and extraction from
    the persisted store returns credentials of sessions whose stored [biz]
    differs from the target only, one for every such session that carries
    the five secrets, whatever [__biz] their URLs carry. *)
Theorem removal_then_extraction (clock : nat -> Z) (biz : jsstring)
    (f : StoreFile) (data : jsstring) (items : list json)
    (l : list Credential.t) :
  let content := JSON_stringify (JArr (without_biz biz items)) in
  stored f = Returns data ->
  JSON_parse data = Some (JArr items) ->
  as_Credentials items = Some l ->
  accepts f content = Returns tt ->
  JSON_parse content = Some (JArr (without_biz biz items)) ->
  all_readable l ->
  fst (removeBizCredential biz f) = Returns true
  /\ stored (snd (removeBizCredential biz f)) = Returns content
  /\ exists out,
       parseCredentialData clock content = WellTyped (Returns out)
       /\ (forall parsed,
             In parsed out ->
             exists item,
               In item l /\ Credential.biz item <> biz
               /\ emitted_from clock item parsed)
       /\ (forall item,
             In item l -> Credential.biz item <> biz -> yields item = true ->
             exists parsed, In parsed out /\ emitted_from clock item parsed).
Proof.
  intros content Hs Hp Ht Ha Hback Hread.
  rewrite (removal_succeeds biz f data items Hs Hp (as_Credentials_not_null items l Ht) Ha).
  split; [reflexivity|]. split; [reflexivity|].
  set (keep := fun c => negb (jseqb (Credential.biz c) biz)).
  assert (Ht' : as_Credentials (without_biz biz items) = Some (filter keep l))
    by now apply as_Credentials_without_biz.
  assert (Hkeep : forall c, keep c = true <-> Credential.biz c <> biz).
  { intros c. unfold keep. rewrite negb_true_iff. apply jseqb_neq. }
  assert (Hread' : all_readable (filter keep l)).
  { intros item Hin. apply filter_In in Hin. now apply Hread. }
  destruct (@parseCredentialData_total _ clock _ _ _ Hback Ht' Hread') as [out Hout].
  exists out. split; [exact Hout|].
  pose proof Hout as Hout'.
  rewrite (@parseCredentialData_typed _ clock _ _ _ Hback Ht') in Hout'.
  injection Hout' as Hout'.
  destruct (@for_of_Returns _ _ _ _ _ _ Hout') as (news & -> & Hrun & _).
  pose proof (@emitted_run_Forall2 _ _ _ _ _ Hrun) as HF.
  split.
  - intros parsed Hin. simpl in Hin.
    eapply ExtractionMore.Forall2_In_r in Hin; [|exact HF].
    destruct Hin as (item & Hk & He).
    apply filter_In in Hk. destruct Hk as [Hk _].
    eapply Permutation_in in Hk; [|apply Array_sort_perm].
    apply filter_In in Hk. destruct Hk as [Hl Hb].
    exists item. split; [assumption|]. split; [now apply Hkeep | assumption].
  - intros item Hl Hb Hy.
    assert (Hk : In item (filter yields (Array_sort by_timestamp_desc (filter keep l)))).
    { apply filter_In. split; [|assumption].
      eapply Permutation_in; [symmetry; apply Array_sort_perm|].
      apply filter_In. split; [assumption | now apply Hkeep]. }
    eapply ExtractionMore.Forall2_In_l in Hk; [|exact HF].
    destruct Hk as (parsed & Hin & He). exists parsed. now split.
Qed.

(** X9.  Take a store that is read and parses as a list without [null]
    entry, a write of the remaining list that the file system accepts, and
    a runtime in which [JSON.parse] reads the written text back as the list
    that was serialized.  Then removing the same [biz] a second time
    changes nothing: both calls return [true], the second finds no entry to
    remove and writes the same content again. *)
Theorem removal_is_idempotent (biz : jsstring) (f : StoreFile) (data : jsstring)
    (items : list json) :
  let content := JSON_stringify (JArr (without_biz biz items)) in
  let once := snd (removeBizCredential biz f) in
  stored f = Returns data ->
  JSON_parse data = Some (JArr items) ->
  Forall (fun item => item <> JNull) items ->
  accepts f content = Returns tt ->
  JSON_parse content = Some (JArr (without_biz biz items)) ->
  fst (removeBizCredential biz once) = Returns true
  /\ stored (snd (removeBizCredential biz once)) = stored once
  /\ stored once = Returns content
  /\ writes_of (ops (snd (removeBizCredential biz once)))
     = writes_of (ops f) ++ [content; content]
  /\ fst (removeBizCredential biz f) = Returns true.
Proof.
  intros content once Hs Hp Hn Ha Hback.
  unfold once. rewrite (removal_succeeds biz f data items Hs Hp Hn Ha). cbn [snd].
  rewrite (removal_succeeds biz _ content (without_biz biz items));
    cbn [stored accepts ops]; try reflexivity.
  - rewrite without_biz_twice. fold content. cbn [fst snd stored ops].
    repeat split; try reflexivity.
    rewrite !writes_of_app. simpl.
    repeat rewrite app_nil_r. repeat rewrite <- app_assoc. reflexivity.
  - exact Hback.
  - now apply without_biz_not_null.
  - rewrite without_biz_twice. exact Ha.
Qed.

Lemma without_biz_swap (a b : jsstring) (items : list json) :
  without_biz a (without_biz b items) = without_biz b (without_biz a items).
Proof. unfold without_biz. apply filter_swap. Qed.

(** X10.  Take a store that is read and parses as a list without [null]
    entry, a file system that accepts every write, and a runtime in which
    [JSON.parse] reads back the lists the two first removals serialized.
    Then two removals commute: removing [a] and then [b] persists the same
    content as removing [b] and then [a], namely the list without the
    entries of either, and all four calls return [true]. *)
Theorem removals_commute (a b : jsstring) (f : StoreFile) (data : jsstring)
    (items : list json) :
  let after_a := snd (removeBizCredential a f) in
  let after_b := snd (removeBizCredential b f) in
  stored f = Returns data ->
  JSON_parse data = Some (JArr items) ->
  Forall (fun item => item <> JNull) items ->
  (forall content, accepts f content = Returns tt) ->
  JSON_parse (JSON_stringify (JArr (without_biz a items)))
  = Some (JArr (without_biz a items)) ->
  JSON_parse (JSON_stringify (JArr (without_biz b items)))
  = Some (JArr (without_biz b items)) ->
  stored (snd (removeBizCredential b after_a))
  = stored (snd (removeBizCredential a after_b))
  /\ stored (snd (removeBizCredential b after_a))
     = Returns (JSON_stringify (JArr (without_biz b (without_biz a items))))
  /\ fst (removeBizCredential b after_a) = Returns true
  /\ fst (removeBizCredential a after_b) = Returns true
  /\ fst (removeBizCredential a f) = Returns true
  /\ fst (removeBizCredential b f) = Returns true.
Proof.
  intros after_a after_b Hs Hp Hn Ha Hback_a Hback_b.
  unfold after_a, after_b.
  rewrite (removal_succeeds a f data items Hs Hp Hn (Ha _)).
  rewrite (removal_succeeds b f data items Hs Hp Hn (Ha _)). cbn [snd].
  rewrite (removal_succeeds b _ (JSON_stringify (JArr (without_biz a items)))
             (without_biz a items));
    cbn [stored accepts ops]; try reflexivity;
    [|exact Hback_a | now apply without_biz_not_null | apply Ha].
  rewrite (removal_succeeds a _ (JSON_stringify (JArr (without_biz b items)))
             (without_biz b items));
    cbn [stored accepts ops]; try reflexivity;
    [|exact Hback_b | now apply without_biz_not_null | apply Ha].
  cbn [fst snd stored]. rewrite (without_biz_swap a b).
  repeat split; reflexivity.
Qed.

End WithRuntime.

(** *** The theorems at the example inputs *)

Lemma example_sessions_readable :
  all_readable (RT := ExampleRuntime.runtime) Examples.credentials.
Proof.
  intros item [<-|[<-|[<-|[]]]]; split; vm_compute; discriminate.
Qed.

Lemma example_rewrite_read_back (biz : jsstring) :
  biz = js "MzB7" \/ biz = js "MzA5" ->
  JSON_parse (Runtime := ExampleRuntime.runtime)
    (ExampleRuntime.stringify (JArr (without_biz biz Examples.sessions)))
  = Some (JArr (without_biz biz Examples.sessions)).
Proof. intros [->| ->]; vm_compute; reflexivity. Qed.

Lemma removal_then_extraction_witness :
  let f := Examples.store_of Examples.store_text in
  let content :=
    ExampleRuntime.stringify (JArr (without_biz (js "MzB7") Examples.sessions)) in
  stored f = Returns Examples.store_text
  /\ JSON_parse (Runtime := ExampleRuntime.runtime) Examples.store_text
     = Some (JArr Examples.sessions)
  /\ as_Credentials Examples.sessions = Some Examples.credentials
  /\ accepts f content = Returns tt
  /\ JSON_parse (Runtime := ExampleRuntime.runtime) content
     = Some (JArr (without_biz (js "MzB7") Examples.sessions))
  /\ all_readable (RT := ExampleRuntime.runtime) Examples.credentials
  /\ stored (snd (removeBizCredential (RT := ExampleRuntime.runtime) (js "MzB7") f))
     = Returns content
  /\ exists out,
       parseCredentialData (RT := ExampleRuntime.runtime) Examples.clock content
       = WellTyped (Returns out).
Proof.
  cbv zeta.
  split; [reflexivity|].
  split; [exact example_store_parses|].
  split; [exact example_store_typed|].
  split; [reflexivity|].
  split; [exact (example_rewrite_read_back (js "MzB7") (or_introl eq_refl))|].
  split; [exact example_sessions_readable|].
  destruct (@removal_then_extraction ExampleRuntime.runtime Examples.clock
              (js "MzB7") (Examples.store_of Examples.store_text)
              Examples.store_text Examples.sessions Examples.credentials
              eq_refl example_store_parses example_store_typed eq_refl
              (example_rewrite_read_back (js "MzB7") (or_introl eq_refl))
              example_sessions_readable)
    as (_ & H2 & out & H3 & _).
  split; [exact H2|]. now exists out.
Defined.

Lemma removal_is_idempotent_witness :
  let f := Examples.store_of Examples.store_text in
  let content :=
    ExampleRuntime.stringify (JArr (without_biz (js "MzB7") Examples.sessions)) in
  let once := snd (removeBizCredential (RT := ExampleRuntime.runtime) (js "MzB7") f) in
  stored f = Returns Examples.store_text
  /\ JSON_parse (Runtime := ExampleRuntime.runtime) Examples.store_text
     = Some (JArr Examples.sessions)
  /\ Forall (fun item => item <> JNull) Examples.sessions
  /\ accepts f content = Returns tt
  /\ JSON_parse (Runtime := ExampleRuntime.runtime) content
     = Some (JArr (without_biz (js "MzB7") Examples.sessions))
  /\ fst (removeBizCredential (RT := ExampleRuntime.runtime) (js "MzB7") once)
     = Returns true
  /\ stored (snd (removeBizCredential (RT := ExampleRuntime.runtime) (js "MzB7") once))
     = stored once.
Proof.
  cbv zeta.
  split; [reflexivity|].
  split; [exact example_store_parses|].
  split; [exact sessions_not_null|].
  split; [reflexivity|].
  split; [exact (example_rewrite_read_back (js "MzB7") (or_introl eq_refl))|].
  destruct (@removal_is_idempotent ExampleRuntime.runtime
              (js "MzB7") (Examples.store_of Examples.store_text)
              Examples.store_text Examples.sessions
              eq_refl example_store_parses sessions_not_null eq_refl
              (example_rewrite_read_back (js "MzB7") (or_introl eq_refl)))
    as (H1 & H2 & _).
  split; assumption.
Defined.

Lemma removals_commute_witness :
  let f := Examples.store_of Examples.store_text in
  let after_a := snd (removeBizCredential (RT := ExampleRuntime.runtime) (js "MzB7") f) in
  let after_b := snd (removeBizCredential (RT := ExampleRuntime.runtime) (js "MzA5") f) in
  stored f = Returns Examples.store_text
  /\ JSON_parse (Runtime := ExampleRuntime.runtime) Examples.store_text
     = Some (JArr Examples.sessions)
  /\ Forall (fun item => item <> JNull) Examples.sessions
  /\ (forall content, accepts f content = Returns tt)
  /\ stored (snd (removeBizCredential (RT := ExampleRuntime.runtime) (js "MzA5") after_a))
     = stored (snd (removeBizCredential (RT := ExampleRuntime.runtime) (js "MzB7") after_b)).
Proof.
  cbv zeta.
  split; [reflexivity|].
  split; [exact example_store_parses|].
  split; [exact sessions_not_null|].
  split; [intros content; reflexivity|].
  exact (proj1 (@removals_commute ExampleRuntime.runtime
                  (js "MzB7") (js "MzA5") (Examples.store_of Examples.store_text)
                  Examples.store_text Examples.sessions
                  eq_refl example_store_parses sessions_not_null
                  (fun _ => eq_refl)
                  (example_rewrite_read_back (js "MzB7") (or_introl eq_refl))
                  (example_rewrite_read_back (js "MzA5") (or_intror eq_refl)))).
Defined.

End StoreMore.

(** ** Normalized paths *)

Module PathFacts.
Import Path PathMore.
Local Open Scope N_scope.


Lemma segments_nonempty (s : jsstring) : segments s <> [].
Proof.
  destruct s as [|c s]; simpl; [discriminate|].
  destruct (c =? SLASH); [discriminate|].
  destruct (segments s); discriminate.
Qed.

Lemma segments_app (a b : jsstring) :
  segments (a ++ SLASH :: b) = segments a ++ segments b.
Proof.
  induction a as [|c a IH]; simpl; [reflexivity|].
  destruct (c =? SLASH); [now rewrite IH|].
  rewrite IH. pose proof (segments_nonempty a) as Ha.
  destruct (segments a); [contradiction|reflexivity].
Qed.

Lemma segments_snoc (a : jsstring) : segments (a ++ [SLASH]) = segments a ++ [[]].
Proof. apply (segments_app a []). Qed.

Lemma segments_slash_free (s : jsstring) : slash_free s -> segments s = [s].
Proof.
  unfold slash_free. induction s as [|c s IH]; simpl; intros H; [reflexivity|].
  destruct (N.eqb_spec c SLASH) as [E|E]; [exfalso; apply H; now left|].
  rewrite IH; [reflexivity|]. intros I. apply H. now right.
Qed.

Lemma segments_are_slash_free (s : jsstring) : Forall slash_free (segments s).
Proof.
  induction s as [|c s IH]; simpl.
  - constructor; [intros []|constructor].
  - destruct (N.eqb_spec c SLASH) as [E|E].
    + constructor; [intros []|exact IH].
    + destruct (segments s) as [|seg segs]; [constructor; [|constructor]|].
      * intros [I|[]]. now apply E.
      * inversion IH; subst. constructor; [|assumption].
        intros [I|I]; [now apply E|contradiction].
Qed.

Lemma segments_unsegments (l : list jsstring) :
  l <> [] -> Forall slash_free l -> segments (unsegments l) = l.
Proof.
  induction l as [|seg l IH]; intros Hl H; [contradiction|].
  inversion H; subst. destruct l as [|seg' l].
  - simpl. now apply segments_slash_free.
  - change (unsegments (seg :: seg' :: l)) with (seg ++ SLASH :: unsegments (seg' :: l)).
    rewrite segments_app, segments_slash_free by assumption.
    rewrite IH; [reflexivity|discriminate|assumption].
Qed.

Lemma plain_slash_free (seg : jsstring) : plain seg -> slash_free seg.
Proof. intros H. apply H. Qed.

Lemma plainb_plain (seg : jsstring) : plainb seg = true <-> plain seg.
Proof.
  unfold plainb, plain. rewrite !andb_true_iff, !negb_true_iff, !jseqb_neq.
  assert (E : existsb (N.eqb SLASH) seg = false <-> ~ In SLASH seg).
  { rewrite <- not_true_iff_false, existsb_exists. split.
    - intros H I. apply H. exists SLASH. split; [assumption|apply N.eqb_refl].
    - intros H [x [I E]]. apply N.eqb_eq in E. subst. contradiction. }
  rewrite E. tauto.
Qed.

Lemma Forall_plainb (l : list jsstring) :
  forallb plainb l = true -> Forall plain l.
Proof.
  intros H. apply Forall_forall. intros x I. apply plainb_plain.
  rewrite forallb_forall in H. now apply H.
Qed.

Lemma not_In_existsb (c : code_unit) (s : jsstring) :
  existsb (N.eqb c) s = false -> ~ In c s.
Proof.
  intros H I. apply not_true_iff_false in H. apply H.
  apply existsb_exists. exists c. split; [assumption|apply N.eqb_refl].
Qed.

Lemma normalize_segment_plain (allow : bool) (res : list jsstring) (seg : jsstring) :
  plain seg -> normalize_segment allow res seg = seg :: res.
Proof.
  intros (H0 & H1 & H2 & _). unfold normalize_segment.
  apply jseqb_neq in H0, H1, H2. now rewrite H0, H1, H2.
Qed.

Lemma normalize_segment_empty (allow : bool) (res : list jsstring) :
  normalize_segment allow res [] = res.
Proof. reflexivity. Qed.

Lemma fold_plain (allow : bool) (pl acc : list jsstring) :
  Forall plain pl ->
  fold_left (normalize_segment allow) pl acc = rev pl ++ acc.
Proof.
  revert acc. induction pl as [|seg pl IH]; intros acc H; [reflexivity|].
  inversion H; subst. simpl. rewrite normalize_segment_plain by assumption.
  rewrite IH by assumption. now rewrite <- app_assoc.
Qed.


Lemma stacked_nil (allow : bool) : stacked allow [].
Proof. exists 0%nat, []. repeat split. constructor. Qed.

Lemma normalize_segment_stacked (allow : bool) (res : list jsstring) (seg : jsstring) :
  slash_free seg -> stacked allow res -> stacked allow (normalize_segment allow res seg).
Proof.
  intros Hs (k & pl & E & Hpl & Hk). unfold normalize_segment.
  destruct (jseqb seg []) eqn:E0; [exists k, pl; now repeat split|].
  destruct (jseqb seg [DOT]) eqn:E1; [exists k, pl; now repeat split|].
  simpl orb. cbv iota.
  destruct (jseqb seg [DOT; DOT]) eqn:E2.
  - apply jseqb_eq in E2. subst seg.
    destruct pl as [|p pl].
    + simpl in E. destruct k as [|k].
      * simpl in E. subst res. destruct allow.
        -- exists 1%nat, []. repeat split; [constructor|discriminate].
        -- exists 0%nat, []. repeat split. constructor.
      * simpl in E. subst res. rewrite jseqb_refl. destruct allow.
        -- exists (S (S k)), []. repeat split; [constructor|discriminate].
        -- exists (S k), []. repeat split; [constructor|assumption].
    + simpl in E. subst res. inversion Hpl; subst.
      assert (N2 : jseqb p [DOT; DOT] = false) by (apply jseqb_neq; apply H1).
      rewrite N2. exists k, pl. now repeat split.
  - exists k, (seg :: pl). subst res. repeat split; [|assumption].
    constructor; [|assumption].
    apply jseqb_neq in E0, E1, E2. now repeat split.
Qed.

Lemma fold_stacked (allow : bool) (segs res : list jsstring) :
  Forall slash_free segs -> stacked allow res ->
  stacked allow (fold_left (normalize_segment allow) segs res).
Proof.
  revert res. induction segs as [|seg segs IH]; intros res H Hr; [exact Hr|].
  inversion H; subst. simpl. apply IH; [assumption|].
  now apply normalize_segment_stacked.
Qed.

Lemma entries_plain (p : jsstring) : Forall plain (entries p).
Proof.
  unfold entries.
  destruct (fold_stacked false (segments p) [] (segments_are_slash_free p) (stacked_nil false))
    as (k & pl & E & Hpl & Hk).
  rewrite E, (Hk eq_refl). simpl. rewrite app_nil_r.
  apply Forall_rev. exact Hpl.
Qed.

Lemma entries_app (a b : jsstring) :
  entries (a ++ SLASH :: b)
  = rev (fold_left (normalize_segment false) (segments b) (rev (entries a))).
Proof.
  unfold entries. now rewrite segments_app, fold_left_app, rev_involutive.
Qed.

Lemma entries_snoc_slash (a : jsstring) : entries (a ++ [SLASH]) = entries a.
Proof. rewrite (entries_app a []). simpl. apply rev_involutive. Qed.

Lemma entries_absolute (ds : list jsstring) :
  Forall plain ds -> entries (absolute ds) = ds.
Proof.
  intros H. unfold absolute.
  change (SLASH :: unsegments ds) with ([] ++ SLASH :: unsegments ds).
  rewrite entries_app. change (rev (entries [])) with (@nil jsstring).
  destruct ds as [|d ds]; [reflexivity|].
  rewrite segments_unsegments; [|discriminate|].
  - rewrite fold_plain by assumption. rewrite app_nil_r. apply rev_involutive.
  - eapply Forall_impl; [|exact H]. apply plain_slash_free.
Qed.

Lemma entries_child (a name : jsstring) :
  plain name -> entries (a ++ SLASH :: name) = entries a ++ [name].
Proof.
  intros H. rewrite entries_app, segments_slash_free by now apply plain_slash_free.
  simpl. rewrite normalize_segment_plain by assumption.
  simpl. now rewrite rev_involutive.
Qed.

(** *** The form of a normalized path *)


Lemma plain_proper (seg : jsstring) : plain seg -> proper seg.
Proof. intros H. split; apply H. Qed.

Lemma dotdot_proper : proper [DOT; DOT].
Proof.
  split; [discriminate|]. intros [E|[E|[]]]; discriminate.
Qed.

Lemma stacked_proper (allow : bool) (res : list jsstring) :
  stacked allow res -> Forall proper (rev res).
Proof.
  intros (k & pl & E & Hpl & _). subst res. apply Forall_rev, Forall_app. split.
  - eapply Forall_impl; [|exact Hpl]. apply plain_proper.
  - apply Forall_forall. intros x I. apply repeat_spec in I. subst.
    apply dotdot_proper.
Qed.

Lemma unsegments_cons (seg : jsstring) (l : list jsstring) :
  exists tl, unsegments (seg :: l) = seg ++ tl.
Proof.
  destruct l as [|seg' l].
  - exists []. simpl. now rewrite app_nil_r.
  - now exists (SLASH :: unsegments (seg' :: l)).
Qed.

Lemma unsegments_snoc (l : list jsstring) (seg : jsstring) :
  exists hd, unsegments (l ++ [seg]) = hd ++ seg.
Proof.
  induction l as [|a l [hd IH]].
  - now exists [].
  - destruct l as [|b l].
    + exists (a ++ [SLASH]). simpl. now rewrite <- app_assoc.
    + exists (a ++ SLASH :: hd).
      change (unsegments ((a :: b :: l) ++ [seg]))
        with (a ++ SLASH :: unsegments ((b :: l) ++ [seg])).
      rewrite IH. now rewrite <- app_assoc.
Qed.

Lemma unsegments_head (l : list jsstring) :
  l <> [] -> Forall proper l ->
  exists c x, unsegments l = c :: x /\ c <> SLASH.
Proof.
  intros Hl H. destruct l as [|seg l]; [contradiction|].
  inversion H as [|? ? [Hne Hsf] ?]; subst.
  destruct (unsegments_cons seg l) as [tl E]. rewrite E.
  destruct seg as [|c seg]; [contradiction|].
  exists c, (seg ++ tl). split; [reflexivity|].
  intros ->. apply Hsf. now left.
Qed.

Lemma unsegments_last (l : list jsstring) :
  l <> [] -> Forall proper l ->
  exists x c, unsegments l = x ++ [c] /\ c <> SLASH.
Proof.
  intros Hl H. destruct (exists_last Hl) as (l' & seg & ->).
  apply Forall_app in H. destruct H as [_ H].
  inversion H as [|? ? [Hne Hsf] ?]; subst.
  destruct (unsegments_snoc l' seg) as [hd E]. rewrite E.
  destruct (exists_last Hne) as (seg' & c & ->).
  exists (hd ++ seg'), c. split; [now rewrite <- app_assoc|].
  intros ->. apply Hsf. apply in_or_app. right. now left.
Qed.

Lemma trailingSeparator_snoc (x : jsstring) (c : code_unit) :
  trailingSeparator (x ++ [c]) = (c =? SLASH).
Proof. unfold trailingSeparator. now rewrite rev_app_distr. Qed.



Lemma kept_stacked (p : jsstring) : stacked (negb (isAbsolute p)) (rev (kept p)).
Proof.
  unfold kept. rewrite rev_involutive.
  apply fold_stacked; [apply segments_are_slash_free|apply stacked_nil].
Qed.

Lemma kept_proper (p : jsstring) : Forall proper (kept p).
Proof.
  rewrite <- (rev_involutive (kept p)).
  apply (stacked_proper (negb (isAbsolute p))). apply kept_stacked.
Qed.

Lemma normalize_framed (p : jsstring) :
  p <> [] -> normalize p = framed (isAbsolute p) (trailingSeparator p) (kept p).
Proof.
  intros Hp. destruct p as [|c p]; [contradiction|].
  unfold normalize, normalizeString. fold (kept (c :: p)).
  pose proof (kept_proper (c :: p)) as H.
  destruct (kept (c :: p)) as [|seg l] eqn:E; [reflexivity|].
  destruct (unsegments_head (seg :: l)) as (d & x & Eu & _);
    [discriminate|assumption|].
  rewrite Eu. unfold framed. rewrite Eu.
  destruct (isAbsolute (c :: p)), (trailingSeparator (c :: p)); simpl;
    now rewrite ?app_nil_r.
Qed.

Lemma fold_dotdots (k j : nat) :
  fold_left (normalize_segment true) (repeat [DOT; DOT] k) (repeat [DOT; DOT] j)
  = repeat [DOT; DOT] (k + j).
Proof.
  revert j. induction k as [|k IH]; intros j; [reflexivity|].
  replace (S k + j)%nat with (k + S j)%nat by lia. rewrite <- IH.
  change (repeat [DOT; DOT] (S k)) with ([DOT; DOT] :: repeat [DOT; DOT] k).
  cbn [fold_left]. f_equal. destruct j; reflexivity.
Qed.

Lemma fold_kept (allow : bool) (res : list jsstring) :
  stacked allow res ->
  fold_left (normalize_segment allow) (rev res) [] = res.
Proof.
  intros (k & pl & E & Hpl & Hk). subst res.
  rewrite rev_app_distr, fold_left_app.
  rewrite rev_repeat.
  assert (Ef : fold_left (normalize_segment allow) (repeat [DOT; DOT] k) []
               = repeat [DOT; DOT] k).
  { destruct allow.
    - etransitivity; [exact (fold_dotdots k 0)|]. f_equal. lia.
    - now rewrite (Hk eq_refl). }
  etransitivity; [apply f_equal; exact Ef|].
  rewrite fold_plain by now apply Forall_rev.
  now rewrite rev_involutive.
Qed.

Lemma isAbsolute_framed (a t : bool) (l : list jsstring) :
  Forall proper l -> isAbsolute (framed a t l) = a.
Proof.
  intros H. destruct l as [|seg l].
  - destruct a, t; reflexivity.
  - destruct (unsegments_head (seg :: l)) as (d & x & Eu & Hd);
      [discriminate|assumption|].
    unfold framed. rewrite Eu. destruct a; [reflexivity|].
    simpl. now apply N.eqb_neq.
Qed.

Lemma trailingSeparator_framed (a t : bool) (l : list jsstring) :
  Forall proper l -> l <> [] -> trailingSeparator (framed a t l) = t.
Proof.
  intros H Hl. destruct l as [|seg l]; [contradiction|].
  destruct (unsegments_last (seg :: l)) as (x & d & Eu & Hd);
    [discriminate|assumption|].
  unfold framed. rewrite Eu. destruct t.
  - rewrite app_assoc. apply trailingSeparator_snoc.
  - rewrite app_nil_r, app_assoc, trailingSeparator_snoc. now apply N.eqb_neq.
Qed.

Lemma segments_framed (a t : bool) (l : list jsstring) :
  Forall proper l -> l <> [] ->
  segments (framed a t l)
  = (if a then [[]] else []) ++ l ++ (if t then [[]] else []).
Proof.
  intros H Hl.
  assert (Hs : Forall slash_free l)
    by (eapply Forall_impl; [|exact H]; intros x Hx; apply Hx).
  destruct l as [|seg l]; [contradiction|]. unfold framed.
  assert (E : segments (unsegments (seg :: l) ++ (if t then [SLASH] else []))
              = (seg :: l) ++ (if t then [[]] else [])).
  { destruct t.
    - rewrite segments_snoc, segments_unsegments; [reflexivity|discriminate|assumption].
    - rewrite !app_nil_r. apply segments_unsegments; [discriminate|assumption]. }
  destruct a.
  - change ([SLASH] ++ ?x) with ([] ++ SLASH :: x).
    change (segments ([SLASH] ++ unsegments (seg :: l) ++ (if t then [SLASH] else [])))
      with (segments ([] ++ SLASH :: unsegments (seg :: l) ++ (if t then [SLASH] else []))).
    rewrite segments_app, E. reflexivity.
  - exact E.
Qed.

Lemma fold_framed (a t : bool) (l : list jsstring) :
  stacked (negb a) (rev l) -> l <> [] ->
  rev (fold_left (normalize_segment (negb a)) (segments (framed a t l)) []) = l.
Proof.
  intros Hs Hl.
  assert (H : Forall proper l)
    by (rewrite <- (rev_involutive l); exact (stacked_proper _ _ Hs)).
  rewrite segments_framed by assumption.
  pose proof (fold_kept _ _ Hs) as E. rewrite rev_involutive in E.
  assert (Et : forall acc,
             fold_left (normalize_segment (negb a)) (l ++ (if t then [[]] else [])) acc
             = fold_left (normalize_segment (negb a)) l acc).
  { intros acc. rewrite fold_left_app. now destruct t. }
  destruct a.
  - change ([[]] ++ ?x) with ([] :: x). cbn [fold_left].
    rewrite normalize_segment_empty, Et, E. apply rev_involutive.
  - change ([] ++ ?x) with x. rewrite Et, E. apply rev_involutive.
Qed.

Lemma kept_framed (p : jsstring) :
  kept p <> [] ->
  kept (framed (isAbsolute p) (trailingSeparator p) (kept p)) = kept p.
Proof.
  intros Hk. pose proof (kept_proper p) as H.
  unfold kept at 1. rewrite isAbsolute_framed by assumption.
  apply fold_framed; [apply kept_stacked|assumption].
Qed.

Lemma normalize_idempotent (p : jsstring) : normalize (normalize p) = normalize p.
Proof.
  destruct p as [|c p]; [reflexivity|].
  rewrite (normalize_framed (c :: p)) by discriminate.
  destruct (kept (c :: p)) as [|seg l] eqn:E.
  - destruct (isAbsolute (c :: p)), (trailingSeparator (c :: p)); reflexivity.
  - pose proof (kept_proper (c :: p)) as H. rewrite E in H.
    assert (Hne : framed (isAbsolute (c :: p)) (trailingSeparator (c :: p)) (seg :: l) <> []).
    { destruct (unsegments_head (seg :: l)) as (d & x & Eu & _);
        [discriminate|assumption|].
      unfold framed. rewrite Eu. destruct (isAbsolute (c :: p)); discriminate. }
    rewrite normalize_framed by exact Hne.
    rewrite isAbsolute_framed, trailingSeparator_framed by (assumption || discriminate).
    rewrite <- E. rewrite kept_framed; [reflexivity|]. rewrite E. discriminate.
Qed.

(** X11.  [path.join] returns a normalized path: the [path.normalize] that
    line 55 puts around it gives the same string back, for every root
    directory and every request path.  [safePath] is the joined path. *)
Theorem safePath_is_the_joined_path (rootDirectory url : jsstring) :
  normalize (join rootDirectory url) = join rootDirectory url.
Proof.
  unfold join. destruct rootDirectory, url; try reflexivity;
    apply normalize_idempotent.
Qed.

End PathFacts.

(** ** The request handler and the root directory *)

Module ContainmentFacts.
Import Path PathMore PathFacts FileServer FileServerFacts.
Local Open Scope N_scope.

Lemma startsWith_prefix (s p : jsstring) :
  startsWith s p = true -> exists q, s = p ++ q.
Proof.
  revert s. induction p as [|c p IH]; intros s H; [now exists s|].
  destruct s as [|d s]; [discriminate|]. simpl in H.
  apply andb_true_iff in H. destruct H as [E H]. apply N.eqb_eq in E. subst d.
  destruct (IH s H) as [q ->]. now exists q.
Qed.

Lemma decode_percent_free (s : jsstring) :
  ~ In URI.PERCENT s -> URI.decodeURIComponent s = Some s.
Proof.
  intros H. unfold URI.decodeURIComponent.
  assert (E : URI.tokens s = Some (map URI.Lit s)).
  { induction s as [|c s IH]; [reflexivity|].
    rewrite URIFacts.tokens_literal.
    - rewrite IH; [reflexivity|]. intros I. apply H. now right.
    - apply N.eqb_neq. intros ->. apply H. now left. }
  rewrite E. clear. induction s as [|c s IH]; [reflexivity|].
  simpl. now rewrite IH.
Qed.

Lemma normalize_segment_subset (allow : bool) (res : list jsstring) (seg x : jsstring) :
  In x (normalize_segment allow res seg) -> x = seg \/ In x res.
Proof.
  unfold normalize_segment.
  destruct (jseqb seg [] || jseqb seg [DOT]); [now right|].
  destruct (jseqb seg [DOT; DOT]).
  - destruct res as [|last before].
    + destruct allow; [intros [<-|[]]; now left|intros []].
    + destruct (jseqb last [DOT; DOT]).
      * destruct allow; [intros [<-|I]; [now left|now right]|now right].
      * intros I. right. now right.
  - intros [<-|I]; [now left|now right].
Qed.

Lemma fold_subset (allow : bool) (segs res : list jsstring) (x : jsstring) :
  In x (fold_left (normalize_segment allow) segs res) -> In x segs \/ In x res.
Proof.
  revert res. induction segs as [|seg segs IH]; intros res I; [now right|].
  simpl in I. apply IH in I. destruct I as [I|I]; [left; now right|].
  apply normalize_segment_subset in I. destruct I as [->|I]; [left; now left|now right].
Qed.

Lemma segments_chars (s seg : jsstring) (c : code_unit) :
  In seg (segments s) -> In c seg -> In c s.
Proof.
  revert seg. induction s as [|d s IH]; intros seg I Ic.
  - destruct I as [<-|[]]. contradiction.
  - simpl in I. destruct (d =? SLASH).
    + destruct I as [<-|I]; [contradiction|]. right. now apply (IH seg).
    + pose proof (segments_nonempty s) as Hn.
      destruct (segments s) as [|seg0 segs]; [contradiction|].
      destruct I as [<-|I].
      * destruct Ic as [<-|Ic]; [now left|]. right. apply (IH seg0); [now left|assumption].
      * right. apply (IH seg); [now right|assumption].
Qed.

Lemma unsegments_chars (l : list jsstring) (c : code_unit) :
  In c (unsegments l) -> c = SLASH \/ exists seg, In seg l /\ In c seg.
Proof.
  induction l as [|seg l IH]; intros I; [contradiction|].
  destruct l as [|seg' l].
  - right. exists seg. split; [now left|assumption].
  - change (unsegments (seg :: seg' :: l))
      with (seg ++ SLASH :: unsegments (seg' :: l)) in I.
    apply in_app_or in I. destruct I as [I|[<-|I]].
    + right. exists seg. split; [now left|assumption].
    + now left.
    + destruct (IH I) as [->|(s & Is & Ic)]; [now left|].
      right. exists s. split; [now right|assumption].
Qed.

Lemma entries_chars (p seg : jsstring) (c : code_unit) :
  In seg (entries p) -> In c seg -> In c p.
Proof.
  unfold entries. intros I Ic. apply in_rev in I.
  apply fold_subset in I. destruct I as [I|[]].
  now apply (segments_chars p seg).
Qed.

(** An absolute path is normalized to the path of its entries, with the
    trailing separator it had. *)
Lemma normalize_absolute (p : jsstring) :
  isAbsolute p = true ->
  normalize p = framed true (trailingSeparator p) (entries p).
Proof.
  intros H. rewrite normalize_framed by (intros ->; discriminate).
  unfold kept. rewrite H. reflexivity.
Qed.

Lemma framed_absolute (t : bool) (l : list jsstring) :
  l <> [] -> framed true t l = absolute l ++ (if t then [SLASH] else []).
Proof. intros H. destruct l; [contradiction|reflexivity]. Qed.

Lemma normalize_absolute_chars (p : jsstring) (c : code_unit) :
  isAbsolute p = true -> In c (normalize p) -> c = SLASH \/ In c p.
Proof.
  intros H I. rewrite normalize_absolute in I by assumption.
  destruct (entries p) as [|seg l] eqn:E.
  - destruct I as [<-|[]]. now left.
  - rewrite framed_absolute in I by discriminate.
    apply in_app_or in I. destruct I as [[<-|I]|I]; [now left| |].
    + apply unsegments_chars in I. destruct I as [->|(s & Is & Ic)]; [now left|].
      right. apply (entries_chars p s); [now rewrite E|assumption].
    + destruct (trailingSeparator p); [|contradiction].
      destruct I as [<-|[]]. now left.
Qed.

Lemma join_child (l : list jsstring) (t : bool) (name : jsstring) :
  Forall plain l -> plain name ->
  join (absolute l ++ (if t then [SLASH] else [])) name = absolute (l ++ [name]).
Proof.
  intros Hl Hn.
  assert (Hne : name <> []) by apply Hn.
  assert (E : join (absolute l ++ (if t then [SLASH] else [])) name
              = normalize ((absolute l ++ (if t then [SLASH] else [])) ++ SLASH :: name)).
  { unfold absolute. destruct name; [contradiction|reflexivity]. }
  rewrite E, normalize_absolute by reflexivity.
  rewrite entries_child by assumption.
  assert (El : entries (absolute l ++ (if t then [SLASH] else [])) = l).
  { destruct t; [rewrite entries_snoc_slash|rewrite app_nil_r];
      now apply entries_absolute. }
  rewrite El, framed_absolute by (destruct l; discriminate).
  destruct (exists_last Hne) as (n' & c & ->).
  assert (Hc : c <> SLASH).
  { intros ->. apply Hn. apply in_or_app. right. now left. }
  replace ((absolute l ++ (if t then [SLASH] else [])) ++ SLASH :: n' ++ [c])
    with (((absolute l ++ (if t then [SLASH] else [])) ++ SLASH :: n') ++ [c])
    by (now rewrite <- app_assoc).
  rewrite trailingSeparator_snoc.
  apply N.eqb_neq in Hc. rewrite Hc. apply app_nil_r.
Qed.

Lemma index_html_plain : plain (js "index.html").
Proof. apply plainb_plain. reflexivity. Qed.

(** A normalized absolute path that starts with a root ending in a
    separator goes through the entries of the root. *)
Lemma framed_below (ds l : list jsstring) (t : bool) (q : jsstring) :
  Forall plain ds -> Forall plain l ->
  framed true t l = (absolute ds ++ [SLASH]) ++ q ->
  exists rest, l = ds ++ rest.
Proof.
  intros Hds Hl E.
  assert (Hs : Forall slash_free l)
    by (eapply Forall_impl; [|exact Hl]; apply plain_slash_free).
  assert (Hsd : Forall slash_free ds)
    by (eapply Forall_impl; [|exact Hds]; apply plain_slash_free).
  destruct l as [|seg l].
  - simpl in E. unfold absolute in E. simpl in E. injection E as E.
    destruct (unsegments ds); discriminate.
  - rewrite framed_absolute in E by discriminate.
    unfold absolute in E. cbn [app] in E. injection E as E.
    rewrite <- app_assoc in E.
    apply (f_equal segments) in E.
    assert (El : segments (unsegments (seg :: l) ++ (if t then [SLASH] else []))
                 = (seg :: l) ++ (if t then [[]] else [])).
    { destruct t.
      - rewrite segments_snoc, segments_unsegments; [reflexivity|discriminate|assumption].
      - rewrite !app_nil_r. apply segments_unsegments; [discriminate|assumption]. }
    assert (E' : (seg :: l) ++ (if t then [[]] else [])
                 = segments (unsegments ds ++ [SLASH] ++ q))
      by (rewrite <- El; exact E).
    clear E El. rename E' into E.
    change ([SLASH] ++ q) with (SLASH :: q) in E. rewrite segments_app in E.
    destruct ds as [|d ds].
    + simpl in E. injection E as E _. inversion Hl as [|? ? [H0 _] ?]. now subst.
    + rewrite segments_unsegments in E by (discriminate || assumption).
      destruct t.
      * pose proof (segments_nonempty q) as Hq.
        destruct (exists_last Hq) as (r & x & Er). rewrite Er in E.
        rewrite app_assoc in E. apply app_inj_tail in E. destruct E as [E _].
        now exists r.
      * rewrite app_nil_r in E. now exists (segments q).
Qed.

(** What the handler does with a request without percent sign, for an
    absolute root: it does not throw, and what it hands to the file system
    is the normalized path that passed the check, or the [index.html] in
    it. *)
Lemma percent_free_handled (root : jsstring) (fs : FileSystem) (url : jsstring) :
  isAbsolute root = true -> ~ In URI.PERCENT root -> ~ In URI.PERCENT url ->
  (exists r, reply (handler root fs url) = Returns r)
  /\ forall a, In a (accesses (handler root fs url)) ->
     exists l t q,
       Forall plain l
       /\ framed true t l = root ++ q
       /\ (accessed_path a = framed true t l
           \/ accessed_path a = join (framed true t l) (js "index.html")).
Proof.
  intros Hroot Hr Hu.
  assert (Hj : exists X, join root url = normalize X /\ isAbsolute X = true
                         /\ ~ In URI.PERCENT X).
  { destruct root as [|c root]; [discriminate|]. destruct url as [|u url].
    - exists (c :: root). repeat split; assumption.
    - exists ((c :: root) ++ SLASH :: u :: url). repeat split; [assumption|].
      intros I. apply in_app_or in I. destruct I as [I|[I|I]];
        [contradiction|discriminate|contradiction]. }
  destruct Hj as (X & Ej & Ha & Hx).
  assert (Es : normalize (join root url)
               = framed true (trailingSeparator X) (entries X)).
  { rewrite Ej, normalize_idempotent. now apply normalize_absolute. }
  assert (Hp : ~ In URI.PERCENT (normalize (join root url))).
  { rewrite Ej, normalize_idempotent. intros I.
    apply normalize_absolute_chars in I; [|assumption].
    destruct I as [I|I]; [discriminate|contradiction]. }
  pose proof (decode_percent_free _ Hp) as Ed.
  split.
  - unfold handler. cbv zeta.
    destruct (startsWith _ root); cbn [negb]; cbv iota; [|cbn [reply]; eauto].
    rewrite Ed. cbn [reply]. destruct (readFile fs _) as [content|code]; [eauto|].
    destruct (jseqb code _); eauto.
  - intros a I. apply accesses_follow_the_check in I.
    destruct I as (filePath & Hs & Ed' & Hacc).
    assert (Ef : filePath = normalize (join root url)) by congruence.
    subst filePath. clear Ed'.
    apply startsWith_prefix in Hs. destruct Hs as [q Eq].
    rewrite Es in Eq, Hacc.
    exists (entries X), (trailingSeparator X), q.
    split; [apply entries_plain|]. now split.
Qed.

Lemma accessed_entry (l : list jsstring) (t : bool) (p : jsstring) :
  Forall plain l -> l <> [] ->
  p = framed true t l \/ p = join (framed true t l) (js "index.html") ->
  exists more,
    Forall plain more
    /\ (p = absolute (l ++ more) \/ p = absolute (l ++ more) ++ [SLASH]).
Proof.
  intros Hl Hne [->| ->]; rewrite framed_absolute by assumption.
  - exists []. split; [constructor|]. rewrite app_nil_r.
    destruct t; [now right|left; apply app_nil_r].
  - exists [js "index.html"]. split.
    + constructor; [apply index_html_plain|constructor].
    + left. apply join_child; [assumption|apply index_html_plain].
Qed.

Lemma segments_after (d q : jsstring) :
  slash_free d ->
  exists q0 qs, segments q = q0 :: qs /\ segments (d ++ q) = (d ++ q0) :: qs.
Proof.
  intros Hd. pose proof (segments_nonempty q) as Hq.
  destruct (segments q) as [|q0 qs] eqn:E; [contradiction|].
  exists q0, qs. split; [reflexivity|].
  induction d as [|c d IH]; [exact E|].
  cbn [app segments].
  assert (Hc : (c =? SLASH) = false).
  { apply N.eqb_neq. intros ->. apply Hd. now left. }
  rewrite Hc, IH; [reflexivity|]. intros I. apply Hd. now right.
Qed.

Lemma unsegments_app_snoc (init : list jsstring) (d : jsstring) :
  init <> [] -> unsegments (init ++ [d]) = unsegments init ++ SLASH :: d.
Proof.
  induction init as [|a init IH]; intros H; [contradiction|].
  destruct init as [|b init]; [reflexivity|].
  change (unsegments ((a :: b :: init) ++ [d]))
    with (a ++ SLASH :: unsegments ((b :: init) ++ [d])).
  rewrite IH by discriminate.
  change (unsegments (a :: b :: init)) with (a ++ SLASH :: unsegments (b :: init)).
  now rewrite <- app_assoc.
Qed.

Lemma segments_root_then (init : list jsstring) (d q : jsstring) :
  Forall plain (init ++ [d]) ->
  exists x rest,
    segments (unsegments (init ++ [d]) ++ q) = init ++ (d ++ x) :: rest.
Proof.
  intros H. apply Forall_app in H. destruct H as [Hi Hd].
  inversion Hd as [|? ? Hpd _]; subst.
  destruct (segments_after d q (plain_slash_free _ Hpd)) as (q0 & qs & _ & E).
  exists q0, qs. destruct init as [|a init]; [exact E|].
  rewrite unsegments_app_snoc by discriminate.
  rewrite <- app_assoc. cbn [app]. rewrite segments_app, E.
  rewrite segments_unsegments; [reflexivity|discriminate|].
  eapply Forall_impl; [|exact Hi]. apply plain_slash_free.
Qed.

(** A normalized absolute path that starts with the text of a root goes
    through the parent of the root, into an entry whose name starts with
    the name of the root. *)
Lemma framed_beside (init : list jsstring) (d : jsstring) (l : list jsstring)
    (t : bool) (q : jsstring) :
  Forall plain (init ++ [d]) -> Forall plain l ->
  framed true t l = absolute (init ++ [d]) ++ q ->
  exists x rest, l = init ++ (d ++ x) :: rest.
Proof.
  intros Hds Hl E.
  assert (Hs : Forall slash_free l)
    by (eapply Forall_impl; [|exact Hl]; apply plain_slash_free).
  destruct (segments_root_then init d q Hds) as (x & rest & Er).
  destruct l as [|seg l].
  - exfalso. unfold framed, absolute in E. cbn [app] in E. injection E as E.
    destruct (unsegments_head (init ++ [d])) as (c & y & Eu & _).
    + destruct init; discriminate.
    + eapply Forall_impl; [|exact Hds]. apply plain_proper.
    + rewrite Eu in E. discriminate.
  - rewrite framed_absolute in E by discriminate.
    unfold absolute in E. cbn [app] in E. injection E as E.
    apply (f_equal segments) in E. rewrite Er in E.
    assert (El : segments (unsegments (seg :: l) ++ (if t then [SLASH] else []))
                 = (seg :: l) ++ (if t then [[]] else [])).
    { destruct t.
      - rewrite segments_snoc, segments_unsegments; [reflexivity|discriminate|assumption].
      - rewrite !app_nil_r. apply segments_unsegments; [discriminate|assumption]. }
    assert (E' : (seg :: l) ++ (if t then [[]] else []) = init ++ (d ++ x) :: rest)
      by (rewrite <- El; exact E).
    clear E El Er. destruct t.
    + destruct (@exists_last _ ((d ++ x) :: rest)) as (r & y & Ey); [discriminate|].
      rewrite Ey, app_assoc in E'. apply app_inj_tail in E'. destruct E' as [E' <-].
      destruct r as [|r0 r].
      * exfalso. injection Ey as Ey _. apply app_eq_nil in Ey.
        apply Forall_app in Hds. destruct Hds as [_ Hd].
        inversion Hd as [|? ? [Hne _] _]; subst. now apply Hne.
      * injection Ey as <- _. now exists x, r.
    + rewrite app_nil_r in E'. now exists x, rest.
Qed.

(** X12.  A server whose root directory is a normalized absolute path
    without percent sign, written with a trailing separator, asked for a
    path without percent sign: the handler does not throw, and every path it
    hands to the file system ([existsSync], [statSync], [readFile]) is the
    path of an entry below the root directory, without [.] or [..]
    segment.  (Line 62 decodes the root along with the request, so a percent
    sign in the root is another matter.) *)
Theorem percent_free_requests_stay_below_the_root
    (ds : list jsstring) (fs : FileSystem) (url : jsstring) :
  let root := absolute ds ++ [SLASH] in
  Forall plain ds -> ~ In URI.PERCENT root -> ~ In URI.PERCENT url ->
  (exists r, reply (handler root fs url) = Returns r)
  /\ forall a, In a (accesses (handler root fs url)) ->
     exists rest,
       Forall plain rest
       /\ (accessed_path a = absolute (ds ++ rest)
           \/ accessed_path a = absolute (ds ++ rest) ++ [SLASH]).
Proof.
  intros root Hds Hr Hu.
  destruct (percent_free_handled root fs url eq_refl Hr Hu) as [Hreply Hacc].
  split; [exact Hreply|]. intros a I.
  destruct (Hacc a I) as (l & t & q & Hl & Eq & Ha).
  destruct (framed_below ds l t q Hds Hl Eq) as [rest El].
  destruct (accessed_entry l t (accessed_path a) Hl) as (more & Hm & Hp);
    [|exact Ha|].
  { intros ->. unfold framed, root, absolute in Eq. cbn [app] in Eq.
    injection Eq as Eq. destruct (unsegments ds); discriminate. }
  exists (rest ++ more). split.
  - rewrite El in Hl. apply Forall_app in Hl. destruct Hl as [_ Hl].
    apply Forall_app. now split.
  - rewrite El in Hp. rewrite <- app_assoc in Hp. exact Hp.
Qed.
(** X18.  The same server with the root written without trailing
    separator, [/parent/name], the root again a normalized absolute path
    without percent sign: for a request path without percent sign the
    handler does not throw, and every path it hands to the file system is
    normalized, goes through the parent directory of the root and from
    there into an entry whose name starts with the name of the root.  The
    check of line 56 compares text, so the entry can be a sibling of the
    root, [/parent/name2]; it is nothing else. *)
Theorem percent_free_requests_stay_beside_the_root
    (init : list jsstring) (d : jsstring) (fs : FileSystem) (url : jsstring) :
  let root := absolute (init ++ [d]) in
  Forall plain (init ++ [d]) -> ~ In URI.PERCENT root -> ~ In URI.PERCENT url ->
  (exists r, reply (handler root fs url) = Returns r)
  /\ forall a, In a (accesses (handler root fs url)) ->
     exists x rest,
       Forall plain ((d ++ x) :: rest)
       /\ (accessed_path a = absolute (init ++ (d ++ x) :: rest)
           \/ accessed_path a = absolute (init ++ (d ++ x) :: rest) ++ [SLASH]).
Proof.
  intros root Hds Hr Hu.
  destruct (percent_free_handled root fs url eq_refl Hr Hu) as [Hreply Hacc].
  split; [exact Hreply|]. intros a I.
  destruct (Hacc a I) as (l & t & q & Hl & Eq & Ha).
  destruct (framed_beside init d l t q Hds Hl Eq) as (x & rest & El).
  destruct (accessed_entry l t (accessed_path a) Hl) as (more & Hm & Hp);
    [subst l; now destruct init|exact Ha|].
  exists x, (rest ++ more). split.
  - rewrite El in Hl. apply Forall_app in Hl. destruct Hl as [_ Hl].
    change ((d ++ x) :: rest ++ more) with (((d ++ x) :: rest) ++ more).
    apply Forall_app. now split.
  - rewrite El in Hp. rewrite <- app_assoc in Hp. exact Hp.
Qed.

Lemma percent_free_requests_stay_below_the_root_witness :
  Forall plain [js "srv"; js "www"]
  /\ ~ In URI.PERCENT (absolute [js "srv"; js "www"] ++ [SLASH])
  /\ ~ In URI.PERCENT (js "/a/../b/")
  /\ (exists r,
        reply (handler (absolute [js "srv"; js "www"] ++ [SLASH]) example_fs
                 (js "/a/../b/")) = Returns r)
  /\ forall a,
       In a (accesses (handler (absolute [js "srv"; js "www"] ++ [SLASH])
                         example_fs (js "/a/../b/"))) ->
       exists rest,
         Forall plain rest
         /\ (accessed_path a = absolute ([js "srv"; js "www"] ++ rest)
             \/ accessed_path a = absolute ([js "srv"; js "www"] ++ rest) ++ [SLASH]).
Proof.
  assert (H1 : Forall plain [js "srv"; js "www"])
    by (apply Forall_plainb; reflexivity).
  assert (H2 : ~ In URI.PERCENT (absolute [js "srv"; js "www"] ++ [SLASH]))
    by (apply not_In_existsb; reflexivity).
  assert (H3 : ~ In URI.PERCENT (js "/a/../b/"))
    by (apply not_In_existsb; reflexivity).
  split; [exact H1|]. split; [exact H2|]. split; [exact H3|].
  exact (percent_free_requests_stay_below_the_root
           [js "srv"; js "www"] example_fs (js "/a/../b/") H1 H2 H3).
Defined.

Lemma percent_free_requests_stay_beside_the_root_witness :
  Forall plain ([js "srv"] ++ [js "www"])
  /\ ~ In URI.PERCENT (absolute ([js "srv"] ++ [js "www"]))
  /\ ~ In URI.PERCENT (js "/../www2/secret.txt")
  /\ (exists r,
        reply (handler (absolute ([js "srv"] ++ [js "www"])) example_fs
                 (js "/../www2/secret.txt")) = Returns r)
  /\ forall a,
       In a (accesses (handler (absolute ([js "srv"] ++ [js "www"])) example_fs
                         (js "/../www2/secret.txt"))) ->
       exists x rest,
         Forall plain ((js "www" ++ x) :: rest)
         /\ (accessed_path a = absolute ([js "srv"] ++ (js "www" ++ x) :: rest)
             \/ accessed_path a
                = absolute ([js "srv"] ++ (js "www" ++ x) :: rest) ++ [SLASH]).
Proof.
  assert (H1 : Forall plain ([js "srv"] ++ [js "www"]))
    by (apply Forall_plainb; reflexivity).
  assert (H2 : ~ In URI.PERCENT (absolute ([js "srv"] ++ [js "www"])))
    by (apply not_In_existsb; reflexivity).
  assert (H3 : ~ In URI.PERCENT (js "/../www2/secret.txt"))
    by (apply not_In_existsb; reflexivity).
  split; [exact H1|]. split; [exact H2|]. split; [exact H3|].
  exact (percent_free_requests_stay_beside_the_root
           [js "srv"] (js "www") example_fs (js "/../www2/secret.txt") H1 H2 H3).
Defined.

End ContainmentFacts.

(** ** [findIndexHtmlFiles] on a tree *)

Module IndexFilesFacts.
Import Path PathMore PathFacts ContainmentFacts IndexFiles.
Local Open Scope N_scope.


Lemma index_paths_Dir (children : list (jsstring * tree)) :
  index_paths (Dir children) = flat_map entry_paths children.
Proof.
  induction children as [|[name sub] rest IH]; [reflexivity|].
  change (index_paths (Dir ((name, sub) :: rest)))
    with (entry_paths (name, sub) ++ index_paths (Dir rest)).
  now rewrite IH.
Qed.

Lemma height_child (children : list (jsstring * tree)) (e : jsstring * tree) :
  In e children -> (height (snd e) < height (Dir children))%nat.
Proof.
  induction children as [|[name sub] rest IH]; intros I; [contradiction|].
  change (height (Dir ((name, sub) :: rest)))
    with (S (Nat.max (height sub) (pred (height (Dir rest))))).
  destruct I as [<-|I]; [simpl; lia|].
  specialize (IH I). lia.
Qed.

Lemma well_formed_Dir (children : list (jsstring * tree)) :
  well_formed (Dir children) <->
  NoDup (map fst children)
  /\ Forall (fun e => plain (fst e) /\ well_formed (snd e)) children.
Proof.
  change (well_formed (Dir children))
    with (NoDup (map fst children)
          /\ (fix each (children : list (jsstring * tree)) : Prop :=
                match children with
                | [] => True
                | (name, sub) :: rest => plain name /\ well_formed sub /\ each rest
                end) children).
  apply and_iff_compat_l.
  induction children as [|[name sub] rest IH].
  - split; [constructor|trivial].
  - split.
    + intros (Hn & Hs & Hr). constructor; [now split|now apply IH].
    + intros H. inversion H as [|? ? [Hn Hs] Hr]; subst.
      split; [assumption|]. split; [assumption|now apply IH].
Qed.

Lemma child_In (name : jsstring) (children : list (jsstring * tree)) (t : tree) :
  child name children = Some t -> In (name, t) children.
Proof.
  induction children as [|[n s] rest IH]; [discriminate|]. simpl.
  destruct (jseqb n name) eqn:E.
  - apply jseqb_eq in E. intros [= ->]. left. now subst.
  - intros H. right. now apply IH.
Qed.

Lemma In_child (name : jsstring) (children : list (jsstring * tree)) (t : tree) :
  NoDup (map fst children) -> In (name, t) children ->
  child name children = Some t.
Proof.
  induction children as [|[n s] rest IH]; intros Hn I; [contradiction|].
  simpl in Hn. inversion Hn as [|? ? Hnot Hrest]; subst. simpl.
  destruct I as [[= -> ->]|I].
  - now rewrite jseqb_refl.
  - destruct (jseqb n name) eqn:E; [|now apply IH].
    apply jseqb_eq in E. subst n. exfalso. apply Hnot.
    apply (in_map fst) in I. exact I.
Qed.

Lemma find_tree_app (t : tree) (a b : list jsstring) :
  find_tree t (a ++ b)
  = match find_tree t a with
    | Some t' => find_tree t' b
    | None => None
    end.
Proof.
  revert t. induction a as [|s a IH]; intros t; [reflexivity|].
  simpl. destruct t as [|children]; [reflexivity|].
  destruct (child s children); [apply IH|reflexivity].
Qed.

Lemma find_tree_well_formed (t : tree) (segs : list jsstring) (t' : tree) :
  well_formed t -> find_tree t segs = Some t' ->
  Forall plain segs /\ well_formed t'.
Proof.
  revert t. induction segs as [|s segs IH]; intros t Hw H.
  - injection H as <-. split; [constructor|assumption].
  - simpl in H. destruct t as [|children]; [discriminate|].
    destruct (child s children) as [sub|] eqn:Ec; [|discriminate].
    apply child_In in Ec. apply well_formed_Dir in Hw. destruct Hw as [_ Hw].
    rewrite Forall_forall in Hw. destruct (Hw _ Ec) as [Hp Hsub].
    destruct (IH sub Hsub H) as [Hsegs Ht'].
    split; [constructor|]; assumption.
Qed.

Lemma walk_lost (root : tree) (segs : list jsstring) :
  fold_left (walk_step root) segs None = None.
Proof. induction segs as [|s segs IH]; [reflexivity|exact IH]. Qed.

Lemma walk_step_plain (root : tree) (here : list jsstring) (seg : jsstring) :
  plain seg ->
  walk_step root (Some here) seg
  = match find_tree root here with
    | Some (Dir _) => Some (here ++ [seg])
    | _ => None
    end.
Proof.
  intros (H0 & H1 & H2 & _). apply jseqb_neq in H0, H1, H2.
  unfold walk_step. now rewrite H0, H1, H2.
Qed.

Lemma walk_plain (root : tree) (ds here : list jsstring) :
  Forall plain ds ->
  match fold_left (walk_step root) ds (Some here) with
  | Some there => find_tree root there
  | None => None
  end = find_tree root (here ++ ds).
Proof.
  revert here. induction ds as [|d ds IH]; intros here H.
  - simpl. now rewrite app_nil_r.
  - inversion H; subst. cbn [fold_left]. rewrite walk_step_plain by assumption.
    rewrite (find_tree_app root here (d :: ds)).
    destruct (find_tree root here) as [[|children]|] eqn:E.
    + now rewrite walk_lost.
    + rewrite IH by assumption. rewrite <- app_assoc.
      now rewrite (find_tree_app root here ([d] ++ ds)), E.
    + now rewrite walk_lost.
Qed.

Lemma at_path_absolute (cwd : jsstring) (top : list (jsstring * tree))
    (ds : list jsstring) :
  Forall plain ds ->
  at_path cwd (Dir top) (absolute ds) = find_tree (Dir top) ds.
Proof.
  intros H. unfold at_path, absolute.
  change (isAbsolute (SLASH :: unsegments ds)) with true. cbv iota.
  change (SLASH :: unsegments ds) with ([] ++ SLASH :: unsegments ds).
  rewrite segments_app. change (segments []) with [@nil code_unit].
  cbn [app fold_left].
  change (walk_step (Dir top) (Some []) []) with (Some (@nil jsstring)).
  destruct ds as [|d ds]; [reflexivity|].
  rewrite segments_unsegments;
    [|discriminate|eapply Forall_impl; [|exact H]; apply plain_slash_free].
  apply (walk_plain (Dir top) (d :: ds) []). exact H.
Qed.

Lemma join_absolute (ds : list jsstring) (name : jsstring) :
  Forall plain ds -> plain name ->
  join (absolute ds) name = absolute (ds ++ [name]).
Proof.
  intros Hd Hn. rewrite <- (join_child ds false name Hd Hn).
  now rewrite app_nil_r.
Qed.

Lemma resolve_absolute (cwd : jsstring) (ds : list jsstring) :
  Forall plain ds -> resolve cwd (absolute ds) = absolute ds.
Proof.
  intros H. unfold resolve. change (isAbsolute (absolute ds)) with true.
  cbv iota. now rewrite entries_snoc_slash, entries_absolute.
Qed.

Lemma after_common_app (base rel : list jsstring) :
  after_common base (base ++ rel) = ([], rel).
Proof.
  induction base as [|b base IH]; [reflexivity|].
  simpl. now rewrite jseqb_refl.
Qed.

Lemma absolute_inj (a b : list jsstring) :
  Forall plain a -> Forall plain b -> absolute a = absolute b -> a = b.
Proof.
  intros Ha Hb E. apply (f_equal entries) in E.
  now rewrite !entries_absolute in E.
Qed.

Lemma relative_below (cwd : jsstring) (base rel : list jsstring) :
  Forall plain base -> Forall plain rel -> rel <> [] ->
  relative cwd (absolute base) (absolute (base ++ rel)) = unsegments rel.
Proof.
  intros Hb Hr Hne.
  assert (Hbr : Forall plain (base ++ rel)) by (apply Forall_app; now split).
  assert (Hd : absolute base <> absolute (base ++ rel)).
  { intros E. apply absolute_inj in E; [|assumption|assumption].
    rewrite <- (app_nil_r base) in E at 1. apply app_inv_head in E.
    now subst. }
  unfold relative. apply jseqb_neq in Hd. rewrite Hd.
  rewrite !resolve_absolute, Hd, !entries_absolute by assumption.
  now rewrite after_common_app.
Qed.

(** The call on a directory of a tree, with an array that already holds
    [fileList]. *)
Lemma findIndexHtmlFiles_tree (cwd : jsstring) (top : list (jsstring * tree)) (base : list jsstring)
    (fuel : nat) :
  well_formed (Dir top) ->
  forall (rel : list jsstring) (t : tree) (fileList : list jsstring),
    find_tree (Dir top) (base ++ rel) = Some t ->
    (height t < fuel)%nat ->
    findIndexHtmlFiles fuel cwd (tree_fs cwd (Dir top))
      (absolute (base ++ rel)) (absolute base) fileList
    = Some match t with
           | File => Throws (IOError (js "ENOTDIR"))
           | Dir _ =>
               Returns (fileList
                        ++ map (fun p => unsegments (rel ++ p)) (index_paths t))
           end.
Proof.
  intros Hw. induction fuel as [|fuel IHf]; intros rel t fileList Hf Hh; [lia|].
  destruct (find_tree_well_formed _ _ _ Hw Hf) as [Hp Ht].
  assert (Hbase : Forall plain base) by (apply Forall_app in Hp; apply Hp).
  assert (Hrel : Forall plain rel) by (apply Forall_app in Hp; apply Hp).
  cbn [findIndexHtmlFiles]. cbn [tree_fs readdirSync].
  rewrite at_path_absolute, Hf by assumption.
  destruct t as [|children]; [reflexivity|].
  rewrite index_paths_Dir.
  assert (Hall : Forall (fun e => child (fst e) children = Some (snd e)
                                  /\ plain (fst e) /\ well_formed (snd e)
                                  /\ (height (snd e) < fuel)%nat) children).
  { apply well_formed_Dir in Ht. destruct Ht as [Hn Hc].
    rewrite Forall_forall in *. intros [name sub] I.
    destruct (Hc _ I) as [H1 H2].
    split; [now apply In_child|]. split; [assumption|]. split; [assumption|].
    pose proof (height_child children _ I) as Hc'. cbn [snd] in *. lia. }
  clear Hh Ht. revert fileList. revert Hall.
  generalize children at 2 3 4 as todo.
  induction todo as [|[name sub] todo IHt]; intros Hall fileList.
  - simpl. now rewrite app_nil_r.
  - inversion Hall as [|? ? (Hc & Hn & Hs & Hh) Hall']; subst.
    simpl in Hc, Hn, Hs, Hh.
    cbn [map fst]. 
    rewrite join_absolute by assumption.
    cbn [statSync_isDirectory tree_fs].
    rewrite at_path_absolute by (apply Forall_app; split; [assumption|now constructor]).
    rewrite find_tree_app, Hf. cbn [find_tree]. rewrite Hc.
    cbn [flat_map]. rewrite map_app, app_assoc.
    destruct sub as [|grand].
    + change (entry_paths (name, File))
        with (if jseqb name index_html then [[name]] else []).
      fold index_html.
      destruct (jseqb name index_html).
      * rewrite <- app_assoc, relative_below;
          [|assumption|apply Forall_app; split; [assumption|now constructor]
           |now destruct rel].
        rewrite IHt by assumption. reflexivity.
      * cbn [map]. rewrite app_nil_r. now apply IHt.
    + rewrite <- app_assoc.
      rewrite (IHf (rel ++ [name]) (Dir grand) fileList);
        [|now rewrite app_assoc, find_tree_app, Hf; cbn [find_tree]; rewrite Hc
         |assumption].
      rewrite IHt by assumption.
      change (entry_paths (name, Dir grand))
        with (map (cons name) (index_paths (Dir grand))).
      rewrite map_map.
      assert (Em : map (fun p => unsegments ((rel ++ [name]) ++ p))
                     (index_paths (Dir grand))
                   = map (fun p => unsegments (rel ++ name :: p))
                       (index_paths (Dir grand))).
      { apply map_ext. intros p. now rewrite <- app_assoc. }
      rewrite Em. now rewrite <- !app_assoc.
Qed.

Lemma In_flat_map_entry (children : list (jsstring * tree)) (p : list jsstring) :
  In p (index_paths (Dir children)) <->
  exists name sub, In (name, sub) children /\ In p (entry_paths (name, sub)).
Proof.
  rewrite index_paths_Dir, in_flat_map. split.
  - intros ([name sub] & I & Ip). now exists name, sub.
  - intros (name & sub & I & Ip). now exists (name, sub).
Qed.

(** What [index_paths] lists: the paths that end in [index.html] and lead
    to a file. *)
Lemma index_paths_spec (n : nat) :
  forall (t : tree) (p : list jsstring),
    (height t < n)%nat -> well_formed t ->
    (In p (index_paths t) <->
     (exists q, p = q ++ [index_html]) /\ find_tree t p = Some File).
Proof.
  induction n as [|n IH]; intros t p Hh Hw; [lia|].
  destruct t as [|children].
  - split; [intros []|]. intros [[q ->] H]. destruct q; discriminate.
  - pose proof Hw as Hw'. apply well_formed_Dir in Hw'. destruct Hw' as [Hn Hc].
    rewrite Forall_forall in Hc.
    rewrite In_flat_map_entry. split.
    + intros (name & sub & I & Ip).
      pose proof (In_child _ _ _ Hn I) as Ec.
      destruct (Hc _ I) as [_ Hsub]. cbn [snd] in Hsub.
      pose proof (height_child _ _ I) as Hlt. cbn [snd] in Hlt.
      destruct sub as [|grand].
      * change (entry_paths (name, File))
          with (if jseqb name index_html then [[name]] else []) in Ip.
        destruct (jseqb name index_html) eqn:E; [|contradiction].
        apply jseqb_eq in E. destruct Ip as [<-|[]]. split.
        -- exists []. now subst.
        -- simpl. now rewrite Ec.
      * change (entry_paths (name, Dir grand))
          with (map (cons name) (index_paths (Dir grand))) in Ip.
        apply in_map_iff in Ip. destruct Ip as (p' & <- & Ip').
        apply (IH (Dir grand) p') in Ip'; [|lia|assumption].
        destruct Ip' as [[q ->] Hf]. split.
        -- now exists (name :: q).
        -- simpl. now rewrite Ec.
    + intros [[q Eq] Hf].
      destruct p as [|s p']; [destruct q; discriminate|].
      simpl in Hf. destruct (child s children) as [sub|] eqn:Ec; [|discriminate].
      apply child_In in Ec. exists s, sub. split; [assumption|].
      destruct (Hc _ Ec) as [_ Hsub]. cbn [snd] in Hsub.
      pose proof (height_child _ _ Ec) as Hlt. cbn [snd] in Hlt.
      destruct sub as [|grand].
      * destruct p' as [|x p']; [|discriminate].
        destruct q as [|y q]; [|destruct q; discriminate].
        injection Eq as ->.
        change (entry_paths (index_html, File))
          with (if jseqb index_html index_html then [[index_html]] else []).
        rewrite jseqb_refl. now left.
      * change (entry_paths (s, Dir grand))
          with (map (cons s) (index_paths (Dir grand))).
        apply in_map. apply (IH (Dir grand) p'); [lia|assumption|].
        split; [|assumption].
        destruct q as [|y q].
        -- injection Eq as -> ->. discriminate.
        -- injection Eq as -> ->. now exists q.
Qed.

(** X13.  Called on a directory of a tree-shaped file system by its
    normalized absolute path, with enough fuel for the depth of the
    directory, [findIndexHtmlFiles] returns the paths of [index_paths],
    written relative to the directory: the files named [index.html] below
    it, depth first, in the order of the directory listings.  A directory
    named [index.html] is searched, not listed. *)
Theorem findIndexHtmlFiles_is_the_tree_traversal
    (cwd : jsstring) (top : list (jsstring * tree)) (ds : list jsstring)
    (children : list (jsstring * tree)) (fuel : nat) :
  well_formed (Dir top) ->
  find_tree (Dir top) ds = Some (Dir children) ->
  (height (Dir children) < fuel)%nat ->
  findIndexHtmlFiles fuel cwd (tree_fs cwd (Dir top)) (absolute ds) (absolute ds) []
  = Some (Returns (map unsegments (index_paths (Dir children)))).
Proof.
  intros Hw Hf Hh.
  pose proof (findIndexHtmlFiles_tree cwd top ds fuel Hw [] (Dir children) []) as H.
  rewrite app_nil_r in H. now rewrite (H Hf Hh).
Qed.

(** X14.  Under the same conditions the list [findIndexHtmlFiles] returns
    holds exactly the relative paths, ending in [index.html], that lead from
    the directory to a regular file: none is missed and nothing else is
    listed. *)
Theorem findIndexHtmlFiles_finds_every_index_file
    (cwd : jsstring) (top : list (jsstring * tree)) (ds : list jsstring)
    (children : list (jsstring * tree)) (fuel : nat) :
  well_formed (Dir top) ->
  find_tree (Dir top) ds = Some (Dir children) ->
  (height (Dir children) < fuel)%nat ->
  exists found,
    findIndexHtmlFiles fuel cwd (tree_fs cwd (Dir top)) (absolute ds) (absolute ds) []
    = Some (Returns found)
    /\ forall s,
         In s found <->
         exists q, s = unsegments (q ++ [js "index.html"])
                   /\ find_tree (Dir top) (ds ++ q ++ [js "index.html"]) = Some File.
Proof.
  intros Hw Hf Hh. exists (map unsegments (index_paths (Dir children))).
  split.
  { pose proof (findIndexHtmlFiles_tree cwd top ds fuel Hw [] (Dir children) []) as H.
    rewrite app_nil_r in H. now rewrite (H Hf Hh). }
  destruct (find_tree_well_formed _ _ _ Hw Hf) as [_ Ht].
  intros s. rewrite in_map_iff. split.
  - intros (p & <- & Ip).
    apply (index_paths_spec _ _ _ (Nat.lt_succ_diag_r _) Ht) in Ip.
    destruct Ip as [[q ->] Hp]. exists q. split; [reflexivity|].
    now rewrite find_tree_app, Hf.
  - intros (q & -> & Hq). exists (q ++ [index_html]). split; [reflexivity|].
    apply (index_paths_spec _ _ _ (Nat.lt_succ_diag_r _) Ht).
    split; [now exists q|]. now rewrite find_tree_app, Hf in Hq.
Qed.

Lemma site_well_formed : well_formed site.
Proof.
  cbn -[plain]. 
  repeat match goal with
         | |- _ /\ _ => split
         | |- True => exact I
         | |- plain _ => apply plainb_plain; reflexivity
         | |- NoDup _ =>
             repeat (constructor;
                     [simpl; intros HH;
                      repeat (destruct HH as [HH|HH];
                              [vm_compute in HH; discriminate HH|]);
                      exact HH|]);
             constructor
         end.
Qed.

Lemma findIndexHtmlFiles_is_the_tree_traversal_witness :
  well_formed (Dir site_entries)
  /\ find_tree (Dir site_entries) [js "srv"; js "out"] = Some (Dir out_entries)
  /\ (height (Dir out_entries) < 4)%nat
  /\ findIndexHtmlFiles 4 (js "/home") (tree_fs (js "/home") (Dir site_entries))
       (absolute [js "srv"; js "out"]) (absolute [js "srv"; js "out"]) []
     = Some (Returns (map unsegments (index_paths (Dir out_entries)))).
Proof.
  assert (H2 : find_tree (Dir site_entries) [js "srv"; js "out"]
               = Some (Dir out_entries)) by reflexivity.
  assert (H3 : (height (Dir out_entries) < 4)%nat) by (simpl; lia).
  split; [exact site_well_formed|]. split; [exact H2|]. split; [exact H3|].
  exact (findIndexHtmlFiles_is_the_tree_traversal (js "/home") site_entries
           [js "srv"; js "out"] out_entries 4 site_well_formed H2 H3).
Defined.

Lemma findIndexHtmlFiles_finds_every_index_file_witness :
  well_formed (Dir site_entries)
  /\ find_tree (Dir site_entries) [js "srv"; js "out"] = Some (Dir out_entries)
  /\ (height (Dir out_entries) < 4)%nat
  /\ exists found,
       findIndexHtmlFiles 4 (js "/home") (tree_fs (js "/home") (Dir site_entries))
         (absolute [js "srv"; js "out"]) (absolute [js "srv"; js "out"]) []
       = Some (Returns found)
       /\ forall s,
            In s found <->
            exists q, s = unsegments (q ++ [js "index.html"])
                      /\ find_tree (Dir site_entries)
                           ([js "srv"; js "out"] ++ q ++ [js "index.html"])
                         = Some File.
Proof.
  assert (H2 : find_tree (Dir site_entries) [js "srv"; js "out"]
               = Some (Dir out_entries)) by reflexivity.
  assert (H3 : (height (Dir out_entries) < 4)%nat) by (simpl; lia).
  split; [exact site_well_formed|]. split; [exact H2|]. split; [exact H3|].
  exact (findIndexHtmlFiles_finds_every_index_file (js "/home") site_entries
           [js "srv"; js "out"] out_entries 4 site_well_formed H2 H3).
Defined.

End IndexFilesFacts.

(** ** The file [generatePDf] writes *)

Module PdfFacts.
Import Path PathMore PathFacts ContainmentFacts Pdf.
Local Open Scope N_scope.

Lemma last_segment_slash_free (s : jsstring) : slash_free (last (segments s) []).
Proof.
  pose proof (segments_are_slash_free s) as H.
  pose proof (segments_nonempty s) as Hn.
  destruct (exists_last Hn) as (l & seg & E). rewrite E in *.
  rewrite last_last. apply Forall_app in H. destruct H as [_ H].
  now inversion H.
Qed.

Lemma filename_plain (url : jsstring) : plain (filename url).
Proof.
  unfold filename. pose proof (last_segment_slash_free (replace_index_html url)) as H.
  set (seg := last _ _) in *.
  assert (L : (4 <= length (seg ++ js ".pdf"))%nat)
    by (rewrite length_app; simpl; lia).
  repeat split.
  - intros E. rewrite E in L. simpl in L. lia.
  - intros E. rewrite E in L. simpl in L. lia.
  - intros E. rewrite E in L. simpl in L. lia.
  - intros I. apply in_app_or in I. destruct I as [I|I]; [now apply H|].
    simpl in I. repeat (destruct I as [I|I]; [discriminate|]). contradiction.
Qed.

(** X15.  Whatever the URL, the file name [generatePDf] builds is not
    empty, is not [.] or [..] and holds no [/]; this is a fact about strings
    and holds on every platform.  Where [node:path] follows the POSIX rules
    modelled here ([/] the only separator), the path handed to [page.pdf]
    is therefore [outDir], a normalized absolute path with or without
    trailing separator, followed by that one name.  Nothing is said of
    [path.win32], where a backslash of the URL separates too. *)
Theorem pdf_is_written_into_outDir (ds : list jsstring) (trailing : bool)
    (url : jsstring) :
  Forall plain ds ->
  plain (filename url)
  /\ pdf_path (absolute ds ++ (if trailing then [SLASH] else [])) url
     = absolute (ds ++ [filename url]).
Proof.
  intros H. split; [apply filename_plain|].
  unfold pdf_path. apply join_child; [assumption|apply filename_plain].
Qed.

Lemma test_suffix (p pre suf : jsstring) :
  Probe.test p (pre ++ suf) = false -> Probe.test p suf = false.
Proof.
  induction pre as [|c pre IH]; [trivial|].
  intros H. simpl in H. apply orb_false_iff in H. destruct H as [_ H].
  now apply IH.
Qed.

Lemma test_head (p s : jsstring) : Probe.test p s = false -> startsWith s p = false.
Proof.
  destruct s; simpl; intros H; apply orb_false_iff in H; apply H.
Qed.

(** A pattern without separator that does not start [suf] does not start
    [suf] followed by a separator either. *)
Lemma no_straddle (p suf x : jsstring) :
  ~ In SLASH p -> startsWith suf p = false ->
  strip_prefix p (suf ++ SLASH :: x) = None.
Proof.
  revert suf. induction p as [|c p IH]; intros suf Hp H.
  - destruct suf; discriminate.
  - destruct suf as [|d suf].
    + cbn [strip_prefix app]. destruct (N.eqb_spec SLASH c) as [E|E]; [|reflexivity].
      exfalso. apply Hp. now left.
    + cbn [strip_prefix app startsWith] in *. destruct (d =? c); [|reflexivity].
      apply IH; [|exact H]. intros I. apply Hp. now right.
Qed.

Lemma no_match_before (region suf pre x : jsstring) :
  Probe.test (js "/index") region = false ->
  region = pre ++ suf -> suf <> [] ->
  after_index_html (suf ++ SLASH :: x) = None.
Proof.
  intros Ht -> Hs. apply test_suffix, test_head in Ht.
  destruct suf as [|c suf]; [contradiction|].
  unfold after_index_html.
  change (js "/index") with (SLASH :: js "index") in *.
  cbn [startsWith] in Ht. cbn [strip_prefix app].
  destruct (c =? SLASH); [|reflexivity].
  rewrite no_straddle; [reflexivity| |exact Ht].
  simpl. intros I. repeat (destruct I as [I|I]; [discriminate|]). contradiction.
Qed.

Lemma replace_after (region x : jsstring) :
  Probe.test (js "/index") region = false ->
  replace_index_html (region ++ SLASH :: x) = region ++ replace_index_html (SLASH :: x).
Proof.
  intros Ht.
  assert (H : forall pre suf, region = pre ++ suf ->
              replace_index_html (suf ++ SLASH :: x)
              = suf ++ replace_index_html (SLASH :: x)).
  { intros pre suf. revert pre. induction suf as [|c suf IH]; intros pre E;
      [reflexivity|].
    pose proof (no_match_before region (c :: suf) pre x Ht E) as Hn.
    change ((c :: suf) ++ SLASH :: x) with (c :: suf ++ SLASH :: x) in *.
    cbn [replace_index_html]. rewrite Hn by discriminate.
    cbn [app]. f_equal. apply (IH (pre ++ [c])).
    now rewrite <- app_assoc. }
  now apply (H []).
Qed.

Lemma replaced_article_url (prefix name : jsstring) :
  Probe.test (js "/index") (prefix ++ SLASH :: name) = false ->
  replace_index_html (prefix ++ SLASH :: name ++ js "/index.html")
  = prefix ++ SLASH :: name.
Proof.
  intros Ht.
  change (prefix ++ SLASH :: name ++ js "/index.html")
    with (prefix ++ (SLASH :: name) ++ SLASH :: js "index.html").
  rewrite app_assoc, replace_after by exact Ht.
  change (replace_index_html (SLASH :: js "index.html")) with (@nil code_unit).
  apply app_nil_r.
Qed.

Lemma last_segment_after (prefix name : jsstring) :
  ~ In SLASH name -> last (segments (prefix ++ SLASH :: name)) [] = name.
Proof.
  intros Hn. rewrite segments_app, (segments_slash_free name Hn).
  apply last_last.
Qed.

(** X16.  For the URL of an article, [prefix/name/index.html] with no other
    [/index] in it, the file is called [name.pdf]. *)
Theorem article_pdf_is_named_after_its_directory (prefix name : jsstring) :
  ~ In SLASH name ->
  Probe.test (js "/index") (prefix ++ SLASH :: name) = false ->
  filename (prefix ++ SLASH :: name ++ js "/index.html") = name ++ js ".pdf".
Proof.
  intros Hn Ht. unfold filename.
  now rewrite (replaced_article_url prefix name Ht), (last_segment_after prefix name Hn).
Qed.

(** X19.  Only the last directory name of the URL goes into the file name:
    for two articles [prefix1/name/index.html] and [prefix2/name/index.html],
    neither with another [/index] in it, [generatePDf] hands the same path
    to [page.pdf]. *)
Theorem same_directory_name_same_pdf (outDir prefix1 prefix2 name : jsstring) :
  ~ In SLASH name ->
  Probe.test (js "/index") (prefix1 ++ SLASH :: name) = false ->
  Probe.test (js "/index") (prefix2 ++ SLASH :: name) = false ->
  pdf_path outDir (prefix1 ++ SLASH :: name ++ js "/index.html")
  = pdf_path outDir (prefix2 ++ SLASH :: name ++ js "/index.html").
Proof.
  intros Hn H1 H2. unfold pdf_path, filename.
  rewrite (replaced_article_url prefix1 name H1), (replaced_article_url prefix2 name H2).
  now rewrite !(last_segment_after _ name Hn).
Qed.

Lemma pdf_is_written_into_outDir_witness :
  Forall plain [js "tmp"; js "pdf"]
  /\ plain (filename (js "http://127.0.0.1:8080/my-article/index.html"))
  /\ pdf_path (absolute [js "tmp"; js "pdf"] ++ [])
       (js "http://127.0.0.1:8080/my-article/index.html")
     = absolute ([js "tmp"; js "pdf"]
                 ++ [filename (js "http://127.0.0.1:8080/my-article/index.html")]).
Proof.
  assert (H1 : Forall plain [js "tmp"; js "pdf"])
    by (apply Forall_plainb; reflexivity).
  split; [exact H1|].
  exact (pdf_is_written_into_outDir [js "tmp"; js "pdf"] false
           (js "http://127.0.0.1:8080/my-article/index.html") H1).
Defined.

Lemma article_pdf_is_named_after_its_directory_witness :
  ~ In SLASH (js "my-article")
  /\ Probe.test (js "/index") (js "http://127.0.0.1:8080" ++ SLASH :: js "my-article")
     = false
  /\ filename (js "http://127.0.0.1:8080" ++ SLASH :: js "my-article"
               ++ js "/index.html")
     = js "my-article" ++ js ".pdf".
Proof.
  assert (H1 : ~ In SLASH (js "my-article"))
    by (apply not_In_existsb; reflexivity).
  assert (H2 : Probe.test (js "/index")
                 (js "http://127.0.0.1:8080" ++ SLASH :: js "my-article") = false)
    by reflexivity.
  split; [exact H1|]. split; [exact H2|].
  exact (article_pdf_is_named_after_its_directory
           (js "http://127.0.0.1:8080") (js "my-article") H1 H2).
Defined.

Lemma same_directory_name_same_pdf_witness :
  ~ In SLASH (js "report")
  /\ Probe.test (js "/index") (js "http://127.0.0.1:8080/2023" ++ SLASH :: js "report")
     = false
  /\ Probe.test (js "/index") (js "http://127.0.0.1:8080/2024" ++ SLASH :: js "report")
     = false
  /\ pdf_path (js "/tmp/pdf")
       (js "http://127.0.0.1:8080/2023" ++ SLASH :: js "report" ++ js "/index.html")
     = pdf_path (js "/tmp/pdf")
         (js "http://127.0.0.1:8080/2024" ++ SLASH :: js "report" ++ js "/index.html").
Proof.
  assert (H1 : ~ In SLASH (js "report"))
    by (apply not_In_existsb; reflexivity).
  assert (H2 : Probe.test (js "/index")
                 (js "http://127.0.0.1:8080/2023" ++ SLASH :: js "report") = false)
    by reflexivity.
  assert (H3 : Probe.test (js "/index")
                 (js "http://127.0.0.1:8080/2024" ++ SLASH :: js "report") = false)
    by reflexivity.
  split; [exact H1|]. split; [exact H2|]. split; [exact H3|].
  exact (same_directory_name_same_pdf (js "/tmp/pdf")
           (js "http://127.0.0.1:8080/2023") (js "http://127.0.0.1:8080/2024")
           (js "report") H1 H2 H3).
Defined.

End PdfFacts.

(** ** [verifyMitmproxy] *)

Module ProbeFacts.
Import Probe.
Local Open Scope N_scope.

Lemma startsWith_iff (s p : jsstring) :
  startsWith s p = true <-> exists q, s = p ++ q.
Proof.
  split; [apply ContainmentFacts.startsWith_prefix|].
  intros [q ->]. induction p as [|c p IH]; [now destruct q|].
  simpl. now rewrite N.eqb_refl.
Qed.

Lemma test_nil (p : jsstring) : test p [] = startsWith [] p.
Proof. simpl. apply orb_false_r. Qed.

Lemma test_cons (p : jsstring) (c : code_unit) (s : jsstring) :
  test p (c :: s) = startsWith (c :: s) p || test p s.
Proof. reflexivity. Qed.

Lemma test_spec (p s : jsstring) :
  test p s = true <-> exists pre post, s = pre ++ p ++ post.
Proof.
  split.
  - induction s as [|c s IH].
    + rewrite test_nil. intros H.
      apply startsWith_iff in H. destruct H as [q E]. now exists [], q.
    + rewrite test_cons. intros H. apply orb_true_iff in H. destruct H as [H|H].
      * apply startsWith_iff in H. destruct H as [q E]. now exists [], q.
      * destruct (IH H) as (pre & post & ->). now exists (c :: pre), post.
  - intros (pre & post & ->). induction pre as [|c pre IH].
    + assert (H : startsWith (p ++ post) p = true)
        by (apply startsWith_iff; now exists post).
      cbn [app]. destruct (p ++ post).
      * now rewrite test_nil.
      * now rewrite test_cons, H.
    + cbn [app]. rewrite test_cons, IH. apply orb_true_r.
Qed.

Lemma fold_append (chunks : list jsstring) (data : jsstring) :
  fold_left (fun data chunk => data ++ chunk) chunks data = data ++ concat chunks.
Proof.
  revert data. induction chunks as [|c chunks IH]; intros data; simpl.
  - now rewrite app_nil_r.
  - now rewrite IH, app_assoc.
Qed.

(** X17.  [verifyMitmproxy] answers [true] exactly when a system proxy with
    a URL is configured, the response of [http://mitm.it] through it has
    ended, and the sentinel sentence occurs nowhere in the body, the chunks
    put together: how the body is cut into chunks does not matter. *)
Theorem verified_iff_no_sentinel (proxy : option SystemProxy)
    (http_get : jsstring -> exchange) :
  verifyMitmproxy proxy http_get = Fulfilled true <->
  exists p chunks,
    proxy = Some p /\ proxyUrl p <> []
    /\ http_get (proxyUrl p) = Ends chunks
    /\ ~ exists pre post, concat chunks = pre ++ sentinel ++ post.
Proof.
  unfold verifyMitmproxy. split.
  - destruct proxy as [p|]; [|discriminate].
    destruct (proxyUrl p) as [|c u] eqn:Eu; [discriminate|].
    destruct (http_get (c :: u)) as [e|chunks|] eqn:Eg; [discriminate| |discriminate].
    cbv zeta. rewrite fold_append. cbn [app].
    destruct (test sentinel (concat chunks)) eqn:Et; [discriminate|].
    intros _. exists p, chunks. rewrite Eu. repeat split; [discriminate|assumption|].
    intros H. apply test_spec in H. congruence.
  - intros (p & chunks & -> & Hu & Eg & Hn).
    destruct (proxyUrl p) as [|c u] eqn:Eu; [contradiction|].
    rewrite Eg. cbv zeta. rewrite fold_append. cbn [app].
    destruct (test sentinel (concat chunks)) eqn:Et; [|reflexivity].
    exfalso. apply Hn. now apply test_spec.
Qed.
End ProbeFacts.

(** ** Encoded requests and the containment check *)

Module TraversalFacts.
Import Path PathMore PathFacts FileServer FileServerFacts ContainmentFacts Traversal.
Local Open Scope N_scope.

Lemma unsegments_app (a b : list jsstring) :
  a <> [] -> b <> [] ->
  unsegments (a ++ b) = unsegments a ++ SLASH :: unsegments b.
Proof.
  intros Ha Hb. induction a as [|x a IH]; [contradiction|].
  destruct a as [|y a].
  - destruct b; [contradiction|reflexivity].
  - change (unsegments ((x :: y :: a) ++ b))
      with (x ++ SLASH :: unsegments ((y :: a) ++ b)).
    rewrite IH by discriminate.
    change (unsegments (x :: y :: a)) with (x ++ SLASH :: unsegments (y :: a)).
    now rewrite <- app_assoc.
Qed.

Lemma absolute_prefix (ds more : list jsstring) :
  startsWith (absolute (ds ++ more)) (absolute ds) = true.
Proof.
  apply ProbeFacts.startsWith_iff. unfold absolute.
  destruct ds as [|d ds]; [now exists (unsegments more)|].
  destruct more as [|m more].
  - exists []. now rewrite !app_nil_r.
  - exists (SLASH :: unsegments (m :: more)).
    now rewrite unsegments_app by discriminate.
Qed.

Lemma join_request (ds more : list jsstring) :
  Forall plain ds -> Forall plain more -> more <> [] ->
  join (absolute ds) (SLASH :: unsegments more) = absolute (ds ++ more).
Proof.
  intros Hd Hm Hne.
  change (join (absolute ds) (SLASH :: unsegments more))
    with (normalize (absolute ds ++ SLASH :: SLASH :: unsegments more)).
  rewrite normalize_absolute by reflexivity.
  assert (Hs : Forall slash_free more)
    by (eapply Forall_impl; [|exact Hm]; apply plain_slash_free).
  assert (E : entries (absolute ds ++ SLASH :: SLASH :: unsegments more) = ds ++ more).
  { rewrite entries_app, entries_absolute by assumption.
    change (SLASH :: unsegments more) with ([] ++ SLASH :: unsegments more).
    rewrite segments_app, segments_unsegments by assumption.
    change (segments [] ++ more) with ([] :: more). cbn [fold_left].
    rewrite normalize_segment_empty, fold_plain by assumption.
    now rewrite rev_app_distr, !rev_involutive. }
  rewrite E, framed_absolute by (destruct ds, more; discriminate || contradiction).
  destruct (unsegments_last more Hne) as (x & c & Eu & Hc).
  { eapply Forall_impl; [|exact Hm]. apply plain_proper. }
  rewrite Eu.
  replace (absolute ds ++ SLASH :: SLASH :: x ++ [c])
    with ((absolute ds ++ SLASH :: SLASH :: x) ++ [c])
    by (now rewrite <- app_assoc).
  rewrite trailingSeparator_snoc. apply N.eqb_neq in Hc. rewrite Hc.
  apply app_nil_r.
Qed.

Lemma decode_literal (c : code_unit) (s : jsstring) :
  c <> URI.PERCENT ->
  URI.decodeURIComponent (c :: s) = option_map (cons c) (URI.decodeURIComponent s).
Proof.
  intros H. unfold URI.decodeURIComponent.
  rewrite URIFacts.tokens_literal by now apply N.eqb_neq.
  now destruct (URI.tokens s).
Qed.

Lemma decode_literals (a s : jsstring) :
  ~ In URI.PERCENT a ->
  URI.decodeURIComponent (a ++ s) = option_map (app a) (URI.decodeURIComponent s).
Proof.
  induction a as [|c a IH]; intros H.
  - cbn [app]. now destruct (URI.decodeURIComponent s).
  - cbn [app]. rewrite decode_literal by (intros ->; apply H; now left).
    rewrite IH by (intros I; apply H; now right).
    now destruct (URI.decodeURIComponent s).
Qed.

Lemma tokens_dot (s : jsstring) :
  URI.tokens (js "%2e" ++ s) = option_map (cons (URI.Esc 46)) (URI.tokens s).
Proof.
  change (js "%2e" ++ s) with (37 :: 50 :: 101 :: s).
  simpl. now destruct (URI.tokens s).
Qed.

Lemma decode_dots (s : jsstring) :
  URI.decodeURIComponent (js "%2e%2e" ++ s)
  = option_map (app [DOT; DOT]) (URI.decodeURIComponent s).
Proof.
  unfold URI.decodeURIComponent.
  change (js "%2e%2e" ++ s) with (js "%2e" ++ js "%2e" ++ s).
  rewrite !tokens_dot.
  destruct (URI.tokens s) as [ts|]; [|reflexivity].
  cbn [option_map]. rewrite !URIFacts.decode_tokens_1 by reflexivity.
  now destruct (URI.decode_tokens ts).
Qed.

Lemma decode_unsegments (l l' : list jsstring) :
  Forall2 (fun s s' => forall rest,
             URI.decodeURIComponent (s ++ rest)
             = option_map (app s') (URI.decodeURIComponent rest)) l l' ->
  URI.decodeURIComponent (unsegments l) = Some (unsegments l').
Proof.
  induction 1 as [|s s' l l' Hs Hl IH]; [reflexivity|].
  destruct Hl as [|t t' l l' Ht Hl].
  - cbn [unsegments]. rewrite <- (app_nil_r s), Hs. cbn. now rewrite app_nil_r.
  - change (unsegments (s :: t :: l)) with (s ++ SLASH :: unsegments (t :: l)).
    change (unsegments (s' :: t' :: l')) with (s' ++ SLASH :: unsegments (t' :: l')).
    rewrite Hs, decode_literal by discriminate. now rewrite IH.
Qed.

Lemma pops (ds : list jsstring) :
  Forall plain ds ->
  fold_left (normalize_segment false) (repeat [DOT; DOT] (length ds)) (rev ds) = [].
Proof.
  intros H. rewrite <- length_rev. apply Forall_rev in H.
  induction (rev ds) as [|d l IH]; [reflexivity|].
  inversion H as [|? ? Hd Hl]; subst.
  cbn [length repeat fold_left].
  assert (E : normalize_segment false (d :: l) [DOT; DOT] = l).
  { unfold normalize_segment. cbn [jseqb orb].
    change (jseqb [DOT; DOT] [] || jseqb [DOT; DOT] [DOT]) with false.
    change (jseqb [DOT; DOT] [DOT; DOT]) with true. cbv iota.
    assert (N2 : jseqb d [DOT; DOT] = false) by (apply jseqb_neq; apply Hd).
    now rewrite N2. }
  rewrite E. now apply IH.
Qed.

Lemma normalize_absolute_entries (l : list jsstring) :
  Forall plain l -> l <> [] -> normalize (absolute l) = absolute l.
Proof.
  intros H Hne.
  assert (Et : trailingSeparator (absolute l) = false).
  { destruct (unsegments_last l Hne) as (x & c & Eu & Hc).
    { eapply Forall_impl; [|exact H]. apply plain_proper. }
    unfold absolute. rewrite Eu.
    change (SLASH :: x ++ [c]) with ((SLASH :: x) ++ [c]).
    rewrite trailingSeparator_snoc. now apply N.eqb_neq. }
  rewrite normalize_absolute by reflexivity.
  rewrite entries_absolute, framed_absolute, Et by assumption.
  apply app_nil_r.
Qed.

Lemma Forall2_same (P : jsstring -> jsstring -> Prop) (l : list jsstring) :
  Forall (fun s => P s s) l -> Forall2 P l l.
Proof. induction 1; constructor; assumption. Qed.

Lemma Forall2_repeat (P : jsstring -> jsstring -> Prop) (a b : jsstring) (n : nat) :
  P a b -> Forall2 P (repeat a n) (repeat b n).
Proof. intros H. induction n; constructor; assumption. Qed.

Lemma decode_climb (ds target : list jsstring) :
  target <> [] ->
  Forall (fun seg => ~ In URI.PERCENT seg) ds ->
  Forall (fun seg => ~ In URI.PERCENT seg) target ->
  URI.decodeURIComponent
    (absolute (ds ++ repeat (js "%2e%2e") (length ds) ++ target))
  = Some (climbing_path ds target).
Proof.
  intros Hne Pd Pt. unfold absolute, climbing_path, absolute.
  rewrite decode_literal by discriminate.
  rewrite (decode_unsegments _ (ds ++ repeat [DOT; DOT] (length ds) ++ target));
    [reflexivity|].
  apply Forall2_app; [|apply Forall2_app].
  - apply Forall2_same. eapply Forall_impl; [|exact Pd].
    intros s Hs rest. now apply decode_literals.
  - apply Forall2_repeat. apply decode_dots.
  - apply Forall2_same. eapply Forall_impl; [|exact Pt].
    intros s Hs rest. now apply decode_literals.
Qed.

Lemma climbing_path_entries (ds target : list jsstring) :
  Forall plain ds -> Forall plain target -> target <> [] ->
  entries (climbing_path ds target) = target.
Proof.
  intros Hd Ht Hne. unfold climbing_path, absolute.
  change (SLASH :: ?x) with ([] ++ SLASH :: x).
  rewrite entries_app. change (rev (entries [])) with (@nil jsstring).
  rewrite segments_unsegments.
  - rewrite !fold_left_app.
    rewrite (fold_plain false ds [] Hd), app_nil_r.
    match goal with
    | |- rev (fold_left _ target ?X) = _ =>
        replace X with (@nil jsstring) by (symmetry; exact (pops ds Hd))
    end.
    transitivity (rev (rev target ++ []));
      [f_equal; exact (fold_plain false target [] Ht)|].
    rewrite app_nil_r. apply rev_involutive.
  - destruct ds, target; discriminate || contradiction.
  - apply Forall_app. split; [|apply Forall_app; split].
    + eapply Forall_impl; [|exact Hd]. apply plain_slash_free.
    + apply Forall_forall. intros x I. apply repeat_spec in I. subst.
      apply dotdot_proper.
    + eapply Forall_impl; [|exact Ht]. apply plain_slash_free.
Qed.

(** X20.  The check of line 56 runs before the path is decoded, so it does
    not see dots written as [%2e].  Take a root directory and a target,
    both given by normalized absolute paths without percent sign.  The
    request made of one [%2e%2e] for each entry of the root's path and then
    the path of the target passes the check; the handler decodes it to the
    root's path followed by as many [..] and the target's path, which names
    the target from the top of the file system; and when the file system has
    a regular file there, the reply is 200 with the content of that file. *)
Theorem encoded_traversal_reaches_every_file (ds target : list jsstring)
    (fs : FileSystem) (content : jsstring) :
  Forall plain ds -> Forall plain target -> target <> [] ->
  Forall (fun seg => ~ In URI.PERCENT seg) ds ->
  Forall (fun seg => ~ In URI.PERCENT seg) target ->
  fs (climbing_path ds target) = RegularFile content ->
  entries (climbing_path ds target) = target
  /\ reply (handler (absolute ds) fs (climbing_request (length ds) target))
     = Returns {| statusCode := 200; body := content |}.
Proof.
  intros Hd Ht Hne Pd Pt Hfs.
  split; [now apply climbing_path_entries|].
  assert (Hmore : Forall plain (repeat (js "%2e%2e") (length ds) ++ target)).
  { apply Forall_app. split; [|assumption].
    apply Forall_forall. intros x I. apply repeat_spec in I. subst.
    apply plainb_plain. reflexivity. }
  assert (Hmne : repeat (js "%2e%2e") (length ds) ++ target <> [])
    by (destruct (repeat _ _), target; discriminate || contradiction).
  assert (Hall : Forall plain (ds ++ repeat (js "%2e%2e") (length ds) ++ target))
    by (apply Forall_app; now split).
  assert (Es : normalize (join (absolute ds) (climbing_request (length ds) target))
               = absolute (ds ++ repeat (js "%2e%2e") (length ds) ++ target)).
  { unfold climbing_request. rewrite join_request by assumption.
    apply normalize_absolute_entries; [assumption|].
    destruct ds; [assumption|discriminate]. }
  unfold handler. cbv zeta. rewrite Es, absolute_prefix. cbn [negb]. cbv iota.
  rewrite (decode_climb ds target Hne Pd Pt).
  unfold existsSync, statSync_isDirectory, readFile. rewrite Hfs.
  cbn [andb reply]. cbv iota. now rewrite Hfs.
Qed.

Lemma encoded_traversal_reaches_every_file_witness :
  Forall plain [js "srv"; js "www"]
  /\ Forall plain [js "etc"; js "passwd"]
  /\ [js "etc"; js "passwd"] <> []
  /\ Forall (fun seg => ~ In URI.PERCENT seg) [js "srv"; js "www"]
  /\ Forall (fun seg => ~ In URI.PERCENT seg) [js "etc"; js "passwd"]
  /\ example_fs (climbing_path [js "srv"; js "www"] [js "etc"; js "passwd"])
     = RegularFile (js "root:x:0:0:root:/root:/bin/sh")
  /\ entries (climbing_path [js "srv"; js "www"] [js "etc"; js "passwd"])
     = [js "etc"; js "passwd"]
  /\ reply (handler (absolute [js "srv"; js "www"]) example_fs
              (climbing_request (length [js "srv"; js "www"])
                 [js "etc"; js "passwd"]))
     = Returns {| statusCode := 200; body := js "root:x:0:0:root:/root:/bin/sh" |}.
Proof.
  assert (H1 : Forall plain [js "srv"; js "www"])
    by (apply Forall_plainb; reflexivity).
  assert (H2 : Forall plain [js "etc"; js "passwd"])
    by (apply Forall_plainb; reflexivity).
  assert (H3 : [js "etc"; js "passwd"] <> []) by discriminate.
  assert (H4 : Forall (fun seg => ~ In URI.PERCENT seg) [js "srv"; js "www"])
    by (repeat constructor; apply not_In_existsb; reflexivity).
  assert (H5 : Forall (fun seg => ~ In URI.PERCENT seg) [js "etc"; js "passwd"])
    by (repeat constructor; apply not_In_existsb; reflexivity).
  assert (H6 : example_fs (climbing_path [js "srv"; js "www"] [js "etc"; js "passwd"])
               = RegularFile (js "root:x:0:0:root:/root:/bin/sh"))
    by reflexivity.
  split; [exact H1|]. split; [exact H2|]. split; [exact H3|].
  split; [exact H4|]. split; [exact H5|]. split; [exact H6|].
  exact (encoded_traversal_reaches_every_file
           [js "srv"; js "www"] [js "etc"; js "passwd"] example_fs
           (js "root:x:0:0:root:/root:/bin/sh") H1 H2 H3 H4 H5 H6).
Defined.

End TraversalFacts.

(** ** The browser of [generatePDf] *)

Module BrowserFacts.
Import Lifecycle BrowserLaunch.

Lemma Browser_eqb_eq (a b : Browser) : Browser_eqb a b = true <-> a = b.
Proof.
  destruct a as [x], b as [y]. unfold Browser_eqb. simpl.
  rewrite Nat.eqb_eq. split; [now intros ->|now intros [= ->]].
Qed.

Lemma Browser_eqb_refl (b : Browser) : Browser_eqb b b = true.
Proof. now apply Browser_eqb_eq. Qed.

Lemma is_launching_In (b : Browser) (st : State) :
  is_launching b st = true <-> In b (launching st).
Proof.
  unfold is_launching. rewrite existsb_exists. split.
  - intros (x & I & E). apply Browser_eqb_eq in E. now subst.
  - intros I. exists b. split; [assumption|apply Browser_eqb_refl].
Qed.

Lemma In_no_longer (x b : Browser) (l : list Browser) :
  In x (no_longer b l) <-> In x l /\ x <> b.
Proof.
  unfold no_longer. rewrite filter_In, negb_true_iff.
  rewrite <- not_true_iff_false, Browser_eqb_eq. tauto.
Qed.

Lemma ensure_launches (st : State) :
  browser (_resource st) = None ->
  ensureBrowserLaunched st
  = (Launching {| browser_id := next_id st |},
     {| _resource := _resource st;
        next_id := S (next_id st);
        started := started st ++ [{| browser_id := next_id st |}];
        launching := launching st ++ [{| browser_id := next_id st |}] |}).
Proof. intros H. unfold ensureBrowserLaunched. now rewrite H. Qed.

Lemma ensure_already (st : State) (b : Browser) :
  browser (_resource st) = Some b -> ensureBrowserLaunched st = (Already, st).
Proof. intros H. unfold ensureBrowserLaunched. now rewrite H. Qed.

Lemma launched_sets (b : Browser) (st : State) :
  In b (launching st) ->
  run_event st (Launched b) = on_launched b st.
Proof.
  intros I. apply is_launching_In in I. simpl. now rewrite I.
Qed.

Lemma not_closed (c : Collaborators) (r : Resource) (kept lost : Browser) :
  browser r = Some kept -> lost <> kept ->
  ~ In (CloseBrowser lost) (snd (cleanup c r [])).
Proof.
  intros Hb Hne I. apply RegistryMore.cleanup_log_subset in I.
  unfold full_teardown in I. rewrite Hb in I.
  destruct I as [I|[I|I]]; [discriminate|discriminate|].
  destruct I as [[= E]|I]; [now apply Hne|].
  apply in_map_iff in I. destruct I as (s & E & _). discriminate.
Qed.

(** X21.  Two calls of [ensureBrowserLaunched] (two calls of [generatePDf])
    made while [_resource.browser] is [null], the second before the first
    has resumed, start two different browsers.  Whichever call resumes
    last leaves its browser in [_resource.browser]; the other browser has
    been started too, and [cleanup] never closes it. *)
Theorem overlapping_calls_leak_a_browser (es : list event) (c : Collaborators)
    (second_resumes_first : bool) :
  let st := run initial es in
  let st1 := snd (ensureBrowserLaunched st) in
  let st2 := snd (ensureBrowserLaunched st1) in
  browser (_resource st) = None ->
  exists b1 b2,
    fst (ensureBrowserLaunched st) = Launching b1
    /\ fst (ensureBrowserLaunched st1) = Launching b2
    /\ b1 <> b2
    /\ let kept := if second_resumes_first then b1 else b2 in
       let lost := if second_resumes_first then b2 else b1 in
       let st4 := run st2 [Launched lost; Launched kept] in
       browser (_resource st4) = Some kept
       /\ In lost (started st4)
       /\ ~ In (CloseBrowser lost) (snd (cleanup c (_resource st4) [])).
Proof.
  intros st st1 st2 Hnone.
  pose proof (ensure_launches st Hnone) as E1.
  assert (Hnone1 : browser (_resource st1) = None)
    by (unfold st1; rewrite E1; exact Hnone).
  pose proof (ensure_launches st1 Hnone1) as E2.
  exists {| browser_id := next_id st |}, {| browser_id := next_id st1 |}.
  split; [now rewrite E1|]. split; [now rewrite E2|].
  assert (Hid : next_id st1 = S (next_id st)) by (unfold st1; now rewrite E1).
  assert (Hne : {| browser_id := next_id st |} <> {| browser_id := next_id st1 |})
    by (rewrite Hid; intros [= H]; lia).
  split; [exact Hne|].
  assert (L2 : launching st2
               = (launching st ++ [{| browser_id := next_id st |}])
                   ++ [{| browser_id := next_id st1 |}]).
  { unfold st2. rewrite E2. cbn [snd launching]. unfold st1. now rewrite E1. }
  assert (S2 : started st2
               = (started st ++ [{| browser_id := next_id st |}])
                   ++ [{| browser_id := next_id st1 |}]).
  { unfold st2. rewrite E2. cbn [snd started]. unfold st1. now rewrite E1. }
  set (b1 := {| browser_id := next_id st |}) in *.
  set (b2 := {| browser_id := next_id st1 |}) in *.
  cbv zeta.
  assert (H : forall lost kept,
             lost <> kept -> In lost (launching st2) -> In kept (launching st2) ->
             In lost (started st2) ->
             browser (_resource (run st2 [Launched lost; Launched kept])) = Some kept
             /\ In lost (started (run st2 [Launched lost; Launched kept]))
             /\ ~ In (CloseBrowser lost)
                    (snd (cleanup c (_resource (run st2 [Launched lost; Launched kept])) []))).
  { intros lost kept Hlk Il Ik Is. unfold run. cbn [fold_left].
    rewrite (launched_sets lost st2 Il).
    rewrite (launched_sets kept (on_launched lost st2))
      by (cbn [on_launched launching]; apply In_no_longer; split;
          [assumption|congruence]).
    split; [reflexivity|]. split; [exact Is|].
    now apply (not_closed c _ kept lost). }
  assert (I1 : In b1 (launching st2))
    by (rewrite L2; apply in_or_app; left; apply in_or_app; right; now left).
  assert (I2 : In b2 (launching st2))
    by (rewrite L2; apply in_or_app; right; now left).
  assert (J1 : In b1 (started st2))
    by (rewrite S2; apply in_or_app; left; apply in_or_app; right; now left).
  assert (J2 : In b2 (started st2))
    by (rewrite S2; apply in_or_app; right; now left).
  destruct second_resumes_first.
  - apply H; [congruence|assumption|assumption|assumption].
  - apply H; assumption.
Qed.

Lemma idle (launches : list bool) (st : State) (b : Browser) :
  browser (_resource st) = Some b -> one_after_the_other launches st = st.
Proof.
  intros H. induction launches as [|resolves rest IH]; [reflexivity|].
  cbn [one_after_the_other]. now rewrite (ensure_already st b H).
Qed.

Lemma launch_failed_drops (b : Browser) (st : State) :
  In b (launching st) ->
  run_event st (LaunchFailed b) = on_launch_failed b st.
Proof.
  intros I. apply is_launching_In in I. simpl. now rewrite I.
Qed.

Lemma no_longer_last (b : Browser) (l : list Browser) :
  (length (no_longer b (l ++ [b])) <= length l)%nat.
Proof.
  unfold no_longer. rewrite filter_app. cbn [filter].
  rewrite Browser_eqb_refl. cbn [negb]. rewrite app_nil_r.
  apply filter_length_le.
Qed.

Lemma launches_made_positive (launches : list bool) :
  existsb (fun x => x) launches = true -> (1 <= launches_made launches)%nat.
Proof.
  destruct launches as [|[] rest]; simpl; [discriminate|lia|lia].
Qed.

(** X22.  Calls made one after the other, each settled before the next is
    made, whether their launches resolve or reject.  When
    [_resource.browser] is set at the start nothing changes at all.  When
    it is not, every call starts a browser until the first launch
    resolves; that browser is put in [_resource.browser] and no later call
    starts another.  When every launch rejects, [_resource.browser] stays
    [null].  Rejected launches leaving no browser, at most one started
    browser is added. *)
Theorem calls_one_after_the_other_share_a_browser (launches : list bool)
    (st : State) :
  (length (started (one_after_the_other launches st))
   <= S (length (started st)))%nat
  /\ match browser (_resource st) with
     | Some _ => one_after_the_other launches st = st
     | None =>
         next_id (one_after_the_other launches st)
         = (next_id st + launches_made launches)%nat
         /\ (forallb negb launches = true ->
             browser (_resource (one_after_the_other launches st)) = None)
         /\ (existsb (fun x => x) launches = true ->
             browser (_resource (one_after_the_other launches st))
             = Some {| browser_id :=
                         (next_id st + pred (launches_made launches))%nat |})
     end.
Proof.
  revert st. induction launches as [|resolves rest IH]; intros st.
  - cbn [one_after_the_other launches_made]. split; [lia|].
    destruct (browser (_resource st)) eqn:Eb; [reflexivity|].
    split; [lia|]. split; [reflexivity|discriminate].
  - destruct (browser (_resource st)) as [b|] eqn:Eb.
    + rewrite (idle (resolves :: rest) st b Eb). split; [lia|reflexivity].
    + cbn [one_after_the_other]. rewrite (ensure_launches st Eb).
      set (b := {| browser_id := next_id st |}).
      set (st1 := {| _resource := _resource st; next_id := S (next_id st);
                     started := started st ++ [b];
                     launching := launching st ++ [b] |}).
      assert (Ib : In b (launching st1))
        by (cbn [launching st1]; apply in_or_app; right; now left).
      destruct resolves.
      * rewrite (launched_sets b st1 Ib).
        rewrite (idle rest (on_launched b st1) b eq_refl).
        cbn [on_launched started next_id _resource set_browser browser st1
             launches_made existsb forallb negb andb orb].
        split; [rewrite length_app; simpl; lia|].
        split; [lia|]. split; [discriminate|].
        intros _. unfold b. now rewrite Nat.add_0_r.
      * rewrite (launch_failed_drops b st1 Ib).
        destruct (IH (on_launch_failed b st1)) as [Hlen Hrest].
        assert (Enone : browser (_resource (on_launch_failed b st1)) = None)
          by exact Eb.
        rewrite Enone in Hrest. destruct Hrest as (Hid & Hnone & Hsome).
        pose proof (no_longer_last b (started st)) as Hdrop.
        cbn [on_launch_failed started next_id st1] in Hlen, Hid, Hsome.
        cbn [launches_made forallb existsb negb andb orb].
        split; [lia|]. split; [lia|]. split; [exact Hnone|].
        intros Hex. rewrite (Hsome Hex). f_equal. f_equal.
        pose proof (launches_made_positive rest Hex). lia.
Qed.

(** X23.  [cleanup] closes the browser but leaves it in
    [_resource.browser] (lines 152-155 only read the field): after a
    cleanup that ran to its end, [ensureBrowserLaunched] still returns at
    once without starting a browser, and the first thing [generatePDf] does
    is to open a page in the browser that has just been closed. *)
Theorem cleanup_leaves_closed_browser_in_place (st : State) (c : Collaborators)
    (p : Puppeteer) (url outDir : jsstring) (b : Browser) :
  browser (_resource st) = Some b ->
  MitmproxyManager_close c = Returns tt ->
  osProxy_closeProxy c = Returns tt ->
  browser_close c b = Returns tt ->
  fst (cleanup c (_resource st) []) = Returns tt
  /\ In (CloseBrowser b) (snd (cleanup c (_resource st) []))
  /\ ensureBrowserLaunched st = (Already, st)
  /\ exists rest,
       snd (print_page p (_resource st) url outDir []) = NewPage b :: rest.
Proof.
  intros Hb H1 H2 H3.
  pose proof (LifecycleFacts.cleanup_cases c (_resource st)) as Hc.
  rewrite H1, H2, Hb, H3 in Hc.
  split; [apply (f_equal fst) in Hc; exact Hc|].
  split.
  - apply (f_equal snd) in Hc. rewrite Hc. unfold full_teardown. rewrite Hb.
    simpl. auto.
  - split; [now apply (ensure_already st b)|].
    unfold print_page. rewrite Hb. unfold made, await.
    destruct (newPage p b); [|now eexists].
    destruct (goto p url); [|now eexists].
    destruct (pdf p _); now eexists.
Qed.

Lemma overlapping_calls_leak_a_browser_witness :
  browser (_resource (run initial [])) = None
  /\ exists b1 b2,
       fst (ensureBrowserLaunched (run initial [])) = Launching b1
       /\ b1 <> b2
       /\ ~ In (CloseBrowser b1)
              (snd (cleanup only_server_complains
                      (_resource
                         (run (snd (ensureBrowserLaunched
                                      (snd (ensureBrowserLaunched (run initial [])))))
                              [Launched b1; Launched b2]))
                      [])).
Proof.
  split; [reflexivity|].
  destruct (overlapping_calls_leak_a_browser [] only_server_complains false eq_refl)
    as (b1 & b2 & H1 & _ & Hne & _ & _ & Hleak).
  exists b1, b2. split; [exact H1|]. split; [exact Hne|exact Hleak].
Defined.

Lemma cleanup_leaves_closed_browser_in_place_witness :
  let st := run initial [Ensure; Launched {| browser_id := 0 |}] in
  let p := {| newPage := fun _ => Returns tt;
              goto := fun _ => Returns tt;
              pdf := fun _ => Returns tt |} in
  browser (_resource st) = Some {| browser_id := 0 |}
  /\ MitmproxyManager_close only_server_complains = Returns tt
  /\ osProxy_closeProxy only_server_complains = Returns tt
  /\ browser_close only_server_complains {| browser_id := 0 |} = Returns tt
  /\ In (CloseBrowser {| browser_id := 0 |})
        (snd (cleanup only_server_complains (_resource st) []))
  /\ ensureBrowserLaunched st = (Already, st)
  /\ exists rest,
       snd (print_page p (_resource st) (js "http://127.0.0.1:8080/a/index.html")
              (js "/tmp/pdf") [])
       = NewPage {| browser_id := 0 |} :: rest.
Proof.
  cbv zeta.
  split; [reflexivity|]. split; [reflexivity|]. split; [reflexivity|].
  split; [reflexivity|].
  destruct (cleanup_leaves_closed_browser_in_place
              (run initial [Ensure; Launched {| browser_id := 0 |}])
              only_server_complains
              {| newPage := fun _ => Returns tt;
                 goto := fun _ => Returns tt;
                 pdf := fun _ => Returns tt |}
              (js "http://127.0.0.1:8080/a/index.html") (js "/tmp/pdf")
              {| browser_id := 0 |} eq_refl eq_refl eq_refl eq_refl)
    as (_ & H2 & H3 & H4).
  split; [exact H2|]. split; [exact H3|exact H4].
Defined.

End BrowserFacts.
